(** * Hex game: graph, board, victory search and Monte Carlo player

    A shallow embedding of [graph.hpp], [hexboard.hpp] and the Monte Carlo
    player of [aiplayer.hpp], followed by the properties of the design
    document that are proved about them.

    Conventions of the embedding.
    - [vertID] is C++ [unsigned]: an integer of 32 bits, kept as a [Z] in
      [0, 2^32) with every arithmetic operation wrapped by [u32].
    - A method of a class is a computation in the state-and-failure monad
      [M St] over the object's fields.  A failed [assert], and an access
      outside a [vector], end the computation with [Abort].
    - The only unbounded loop (the search of [is_victory]) takes a fuel
      argument; [OutOfFuel] is kept apart from [Abort], and the fuel given by
      [is_victory] is shown to be enough. *)

From Stdlib Require Import ZArith Lia.
From stdpp Require Import base tactics option numbers list.

Local Open Scope Z_scope.

(* stdpp's [naive_solver] clears hypotheses that may be gone already *)
#[local] Set Warnings "-clear-no-such-hyp".

(** ** Machine integers *)

Definition vertID := Z.

Definition u32 (z : Z) : Z := z mod 2 ^ 32.

(** [static_cast<int>] of an unsigned value (two's complement). *)
Definition to_int (z : Z) : Z := if z <? 2 ^ 31 then z else z - 2 ^ 32.

(** The values of type [int]. *)
Definition is_int (z : Z) : Prop := - 2 ^ 31 <= z < 2 ^ 31.

(** [l[x]] for an index kept as an integer; [None] outside the list. *)
Definition at_index {A} (l : list A) (x : Z) : option A :=
  if 0 <=? x then l !! Z.to_nat x else None.

(** ** Computations that may fail *)

Inductive res (A : Type) : Type :=
  | Ret (a : A)
  | Abort
  | OutOfFuel.
Arguments Ret {A} a.
Arguments Abort {A}.
Arguments OutOfFuel {A}.

Definition M (St A : Type) : Type := St → res (A * St).

#[global] Instance M_ret {St} : MRet (M St) := λ A a s, Ret (a, s).
#[global] Instance M_bind {St} : MBind (M St) := λ A B f m s,
  match m s with
  | Ret (a, s') => f a s'
  | Abort => Abort
  | OutOfFuel => OutOfFuel
  end.

Definition get_state {St} : M St St := λ s, Ret (s, s).
Definition put_state {St} (s : St) : M St unit := λ _, Ret (tt, s).
Definition abort {St A} : M St A := λ _, Abort.
Definition out_of_fuel {St A} : M St A := λ _, OutOfFuel.

(** [assert(c)] *)
Definition assert {St} (c : bool) : M St unit :=
  if c then mret tt else abort.

(** A value that must be there: [None] is a failed assertion or an access
    outside a vector. *)
Definition must {St A} (o : option A) : M St A :=
  match o with Some a => mret a | None => abort end.

(** Runs a computation on a part [T] of the state [St]. *)
Definition lift {St T A} (proj : St → T) (upd : T → St → St) (m : M T A) : M St A :=
  λ s, match m (proj s) with
       | Ret (a, t) => Ret (a, upd t s)
       | Abort => Abort
       | OutOfFuel => OutOfFuel
       end.

(** Calls a method that only reads on another object [t]; the state of the
    caller is left alone, a failure of the call is a failure of the
    caller. *)
Definition ask {St T A} (t : T) (m : M T A) : M St A :=
  λ s, match m t with
       | Ret (a, _) => Ret (a, s)
       | Abort => Abort
       | OutOfFuel => OutOfFuel
       end.

(** [for (vertID i = lo; i < lo + n; ++i) body(i)] *)
Fixpoint for_range {St} (i : Z) (n : nat) (body : Z → M St unit) : M St unit :=
  match n with
  | O => mret tt
  | S n' => body i;; for_range (i + 1) n' body
  end.

(** [for (vertID i = 0; i < bound; ++i) body(i)], for an unsigned [bound]: the
    counter never wraps, as it stays below [bound]. *)
Definition for_upto {St} (bound : Z) (body : Z → M St unit) : M St unit :=
  for_range 0 (Z.to_nat bound) body.

(** [if (c) body] *)
Definition when {St} (c : bool) (body : M St unit) : M St unit :=
  if c then body else mret tt.

(** ** graph.hpp *)

Section Graph.
Context {vtype etype : Type}.

Record Edge := mkEdge { neigh : vertID; val : etype }.

Record Vertex := mkVertex { key : vtype; elist : list Edge }.

(** [Vertex::find]: the index of the first edge to [n], or -1. *)
Fixpoint find_from (i : Z) (l : list Edge) (n : vertID) : Z :=
  match l with
  | [] => -1
  | e :: l' => if neigh e =? n then i else find_from (i + 1) l' n
  end.

Definition find (v : Vertex) (n : vertID) : Z := find_from 0 (elist v) n.

Definition set_key (k : vtype) (v : Vertex) : Vertex :=
  {| key := k; elist := elist v |}.

(** [Vertex::add] *)
Definition add (n : vertID) (weight : etype) (v : Vertex) : Vertex :=
  {| key := key v; elist := elist v ++ [mkEdge n weight] |}.

(** [Vertex::is_adjacent] *)
Definition vertex_is_adjacent (v : Vertex) (n : vertID) : bool :=
  0 <=? find v n.

(** [Vertex::get_weight]: the edge must exist. *)
Definition get_weight (v : Vertex) (n : vertID) : option etype :=
  let i := find v n in
  if 0 <=? i then val <$> elist v !! Z.to_nat i else None.

(** [Vertex::set_weight]: the edge must exist. *)
Definition set_weight (n : vertID) (weight : etype) (v : Vertex)
  : option Vertex :=
  let i := find v n in
  if 0 <=? i
  then Some {| key := key v;
               elist := alter (λ e, mkEdge (neigh e) weight)
                              (Z.to_nat i) (elist v) |}
  else None.

(** [Vertex::del]: removes the first edge to [n], and tells whether there
    was one. *)
Definition del (n : vertID) (v : Vertex) : bool * Vertex :=
  let i := find v n in
  if 0 <=? i
  then (true, {| key := key v; elist := delete (Z.to_nat i) (elist v) |})
  else (false, v).

(** [Vertex::get_neighbors] *)
Definition vertex_get_neighbors (v : Vertex) : list vertID :=
  neigh <$> elist v.

Record Graph := mkGraph { nedges : Z; vlist : list Vertex }.

(** [Graph()] *)
Definition empty_graph : Graph := {| nedges := 0; vlist := [] |}.

Definition get_nodes : M Graph Z :=
  g ← get_state; mret (u32 (Z.of_nat (length (vlist g)))).

Definition get_edges : M Graph Z :=
  g ← get_state; mret (nedges g).

Definition validate_vertex (x : vertID) : M Graph unit :=
  n ← get_nodes; assert (x <? n).

Definition validate_vertices (x y : vertID) : M Graph unit :=
  validate_vertex x;; validate_vertex y.

(** [vlist[x]], read. *)
Definition vertex_at (x : vertID) : M Graph Vertex :=
  g ← get_state; must (at_index (vlist g) x).

(** [vlist[x] = v], written in place. *)
Definition put_vertex (x : vertID) (v : Vertex) : M Graph unit :=
  g ← get_state;
  put_state {| nedges := nedges g;
               vlist := <[Z.to_nat x := v]> (vlist g) |}.

Definition is_adjacent (x y : vertID) : M Graph bool :=
  validate_vertices x y;;
  v ← vertex_at x; mret (vertex_is_adjacent v y).

Definition is_vertex (x : vertID) : M Graph bool :=
  n ← get_nodes; mret (x <? n).

Definition get_edge_weight (x y : vertID) : M Graph etype :=
  validate_vertices x y;;
  v ← vertex_at x; must (get_weight v y).

Definition get_vertex_key (x : vertID) : M Graph vtype :=
  validate_vertex x;;
  v ← vertex_at x; mret (key v).

(** No validation here: [vlist[v]] outside the vector aborts. *)
Definition get_neighbors (v : vertID) : M Graph (list vertID) :=
  vx ← vertex_at v; mret (vertex_get_neighbors vx).

Definition add_vertex (k : vtype) : M Graph unit :=
  g ← get_state;
  put_state {| nedges := nedges g; vlist := vlist g ++ [mkVertex k []] |}.

Definition set_edge_weight (x y : vertID) (weight : etype) : M Graph unit :=
  validate_vertices x y;;
  vx ← vertex_at x; vx' ← must (set_weight y weight vx); put_vertex x vx';;
  vy ← vertex_at y; vy' ← must (set_weight x weight vy); put_vertex y vy'.

Definition incr_nedges : M Graph unit :=
  g ← get_state;
  put_state {| nedges := u32 (nedges g + 1); vlist := vlist g |}.

Definition add_edge (x y : vertID) (weight : etype) : M Graph unit :=
  validate_vertices x y;;
  a ← is_adjacent x y;
  if negb a then
    vx ← vertex_at x; put_vertex x (add y weight vx);;
    vy ← vertex_at y; put_vertex y (add x weight vy);;
    incr_nedges
  else
    set_edge_weight x y weight.

Definition set_vertex_key (x : vertID) (k : vtype) : M Graph unit :=
  validate_vertex x;;
  v ← vertex_at x; put_vertex x (set_key k v).

(** [Graph::clear] empties the vertex list; the edge counter is left as it
    is. *)
Definition clear : M Graph unit :=
  g ← get_state; put_state {| nedges := nedges g; vlist := [] |}.

(** [Graph::clone(g)]: the vertices of [g], then its edges, one for each
    pair [j < i]. *)
Definition clone (g : Graph) : M Graph unit :=
  n ← ask g get_nodes;
  for_upto n (λ i, k ← ask g (get_vertex_key i); add_vertex k);;
  for_upto n (λ i,
    for_upto i (λ j,
      a ← ask g (is_adjacent i j);
      if (a : bool)
      then w ← ask g (get_edge_weight i j); add_edge i j w
      else mret tt)).

End Graph.

Arguments Edge : clear implicits.
Arguments Vertex : clear implicits.
Arguments Graph : clear implicits.

(** ** hexboard.hpp *)

Inductive Color := BLUE | RED | GRAY | WHITE.

#[global] Instance Color_eq_dec : EqDecision Color.
Proof. solve_decision. Defined.

Inductive Outcome := OCC_ERROR | OOB_ERROR | NO_WIN | P1_WIN | P2_WIN.

#[global] Instance Outcome_eq_dec : EqDecision Outcome.
Proof. solve_decision. Defined.

(** The functor [Transpose]: from a coordinate to a vertex index. *)
Record Transpose := mkTranspose { ro : vertID; co : vertID; dim : vertID }.

#[global] Instance Transpose_eq_dec : EqDecision Transpose.
Proof. solve_decision. Defined.

(** [Transpose::operator()]; [assert(i>=0)] always holds of an unsigned. *)
Definition transpose (t : Transpose) (row col : vertID) : option vertID :=
  let i := u32 (u32 (u32 (row + ro t) * dim t) + u32 (col + co t)) in
  if (0 <=? i) && (i <? u32 (dim t * dim t)) then Some i else None.

(** [class HexBoard : public Graph<Color,int>] *)
Record HexBoard := mkHexBoard {
  graph : Graph Color Z;
  abs_dim : vertID;
  rel_dim : vertID;
  abs_pos : Transpose;
  rel_pos : Transpose;
  p1_turn : bool
}.

Definition set_graph (g : Graph Color Z) (b : HexBoard) : HexBoard :=
  {| graph := g; abs_dim := abs_dim b; rel_dim := rel_dim b;
     abs_pos := abs_pos b; rel_pos := rel_pos b; p1_turn := p1_turn b |}.

Definition set_p1_turn (t : bool) : M HexBoard unit :=
  b ← get_state;
  put_state {| graph := graph b; abs_dim := abs_dim b; rel_dim := rel_dim b;
               abs_pos := abs_pos b; rel_pos := rel_pos b; p1_turn := t |}.

(** A method inherited from [Graph], called on the board. *)
Definition base {A} (m : M (Graph Color Z) A) : M HexBoard A :=
  lift graph set_graph m.

Definition call_abs_pos (row col : vertID) : M HexBoard vertID :=
  b ← get_state; must (transpose (abs_pos b) row col).

Definition call_rel_pos (row col : vertID) : M HexBoard vertID :=
  b ← get_state; must (transpose (rel_pos b) row col).

Definition get_current_player : M HexBoard Z :=
  b ← get_state; mret (if p1_turn b then 1 else 2).

Definition get_current_player_symbol : M HexBoard Color :=
  b ← get_state; mret (if p1_turn b then BLUE else RED).

Definition get_playable_dim : M HexBoard Z :=
  b ← get_state; mret (to_int (rel_dim b)).

(** [set_vertex_key(abs_pos(row,col), c)] *)
Definition paint_abs (row col : vertID) (c : Color) : M HexBoard unit :=
  i ← call_abs_pos row col; base (set_vertex_key i c).

(** [add_edge(abs_pos(r1,c1), abs_pos(r2,c2), 1)] *)
Definition link_abs (r1 c1 r2 c2 : vertID) : M HexBoard unit :=
  i ← call_abs_pos r1 c1; j ← call_abs_pos r2 c2; base (add_edge i j 1).

(** The body of the colouring loop of [reset_board]. *)
Definition paint_step (ad col : vertID) : M HexBoard unit :=
  paint_abs 0 col RED;;
  paint_abs (u32 (ad - 1)) col RED;;
  paint_abs col 0 BLUE;;
  paint_abs col (u32 (ad - 1)) BLUE;;
  paint_abs 0 0 GRAY;;
  paint_abs 0 (u32 (ad - 1)) GRAY;;
  paint_abs (u32 (ad - 1)) 0 GRAY;;
  paint_abs (u32 (ad - 1)) (u32 (ad - 1)) GRAY.

(** The body of the inner loop that adds the edges of the cell
    [(row,col)]. *)
Definition link_cell (ad row col : vertID) : M HexBoard unit :=
  when (col <? u32 (ad - 1))
    (link_abs row col row (u32 (col + 1)));;
  when (row <? u32 (ad - 1))
    (link_abs row col (u32 (row + 1)) col);;
  when ((0 <? col) && (row <? u32 (ad - 1)))
    (link_abs row col (u32 (row + 1)) (u32 (col - 1))).

(** The body of the outer loop that adds the edges of one row. *)
Definition link_row (ad row : vertID) : M HexBoard unit :=
  for_upto ad (link_cell ad row);;
  when (row <? u32 (ad - 1))
    (link_abs row (u32 (ad - 1)) (u32 (row + 1)) (u32 (ad - 1))).

Definition reset_board : M HexBoard unit :=
  base clear;;
  b ← get_state;
  let ad := abs_dim b in
  for_upto (u32 (ad * ad)) (λ _, base (add_vertex WHITE));;
  for_upto ad (paint_step ad);;
  for_upto ad (link_row ad);;
  set_p1_turn true.

(** The constructor [HexBoard(unsigned dim)]. *)
Definition new_HexBoard (d : Z) : res HexBoard :=
  let dim := u32 d in
  let b := {| graph := empty_graph;
              abs_dim := u32 (dim + 2);
              rel_dim := dim;
              abs_pos := mkTranspose 0 0 (u32 (dim + 2));
              rel_pos := mkTranspose 1 1 (u32 (dim + 2));
              p1_turn := true |} in
  match (assert (2 <? rel_dim b);; reset_board) b with
  | Ret (_, b') => Ret b'
  | Abort => Abort
  | OutOfFuel => OutOfFuel
  end.

(** The inner loop of [is_victory] over the neighbours of the popped vertex.
    [None] is the early [return true]; otherwise the visited flags and the
    stack after the loop.  The vector [stack] is kept with its back first. *)
Fixpoint scan_neighbors (sym : Color) (dst : vertID) (neigh : list vertID)
    (visited : list bool) (stack : list vertID)
    : M HexBoard (option (list bool * list vertID)) :=
  match neigh with
  | [] => mret (Some (visited, stack))
  | p :: rest =>
      if p =? dst then mret None
      else
        seen ← must (at_index visited p);
        if negb seen then
          let visited' := <[Z.to_nat p := true]> visited in
          k ← base (get_vertex_key p);
          if decide (k = sym)
          then scan_neighbors sym dst rest visited' (p :: stack)
          else scan_neighbors sym dst rest visited' stack
        else scan_neighbors sym dst rest visited stack
  end.

(** The loop [while(!stack.empty())] of [is_victory]. *)
Fixpoint search (fuel : nat) (sym : Color) (dst : vertID)
    (visited : list bool) (stack : list vertID) : M HexBoard bool :=
  match stack with
  | [] => mret false
  | top :: stack' =>
      match fuel with
      | O => out_of_fuel
      | S fuel' =>
          neigh ← base (get_neighbors top);
          r ← scan_neighbors sym dst neigh visited stack';
          match r with
          | None => mret true
          | Some (visited', stack'') => search fuel' sym dst visited' stack''
          end
      end
  end.

(** [is_victory] with the number of iterations of its loop bounded by
    [fuel]. *)
Definition is_victory_fuel (fuel : nat) (sym : Color) : M HexBoard bool :=
  b ← get_state;
  src ← (if decide (sym = BLUE) then call_abs_pos 1 0 else call_abs_pos 0 1);
  dst ← (if decide (sym = BLUE)
         then call_abs_pos (u32 (abs_dim b - 2)) (u32 (abs_dim b - 1))
         else call_abs_pos (u32 (abs_dim b - 1)) (u32 (abs_dim b - 2)));
  n ← base get_nodes;
  search fuel sym dst (replicate (Z.to_nat n) false) [src].

(** Every iteration of the loop pops a vertex, and a vertex is pushed only
    when its flag goes from unvisited to visited: one more iteration than
    there are vertices is enough (lemma [search_fuel_enough]). *)
Definition is_victory (sym : Color) : M HexBoard bool :=
  b ← get_state;
  is_victory_fuel (S (length (vlist (graph b)))) sym.

Definition play (rowi coli : Z) : M HexBoard Outcome :=
  let row := u32 rowi in
  let col := u32 coli in
  b ← get_state;
  if negb ((0 <=? row) && (0 <=? col)
           && (row <? rel_dim b) && (col <? rel_dim b))
  then mret OOB_ERROR
  else
    i ← call_rel_pos row col;
    k ← base (get_vertex_key i);
    if negb (bool_decide (k = WHITE)) then mret OCC_ERROR
    else
      i' ← call_rel_pos row col;
      b1 ← get_state;
      base (set_vertex_key i' (if p1_turn b1 then BLUE else RED));;
      sym ← get_current_player_symbol;
      won ← is_victory sym;
      b2 ← get_state;
      if (won : bool)
      then (mret (if p1_turn b2 then P1_WIN else P2_WIN) : M HexBoard Outcome)
      else
        set_p1_turn (negb (p1_turn b2));;
        mret NO_WIN.

(** The inner loop of [get_free_vertices], appending to [fvert]. *)
Fixpoint free_in_row (row : vertID) (col : Z) (n : nat) (fvert : list vertID)
    : M HexBoard (list vertID) :=
  match n with
  | O => mret fvert
  | S n' =>
      i ← call_rel_pos row col;
      k ← base (get_vertex_key i);
      if bool_decide (k = WHITE)
      then i' ← call_rel_pos row col;
           free_in_row row (col + 1) n' (fvert ++ [i'])
      else free_in_row row (col + 1) n' fvert
  end.

Fixpoint free_in_rows (row : Z) (n : nat) (fvert : list vertID)
    : M HexBoard (list vertID) :=
  match n with
  | O => mret fvert
  | S n' =>
      b ← get_state;
      fvert' ← free_in_row row 0 (Z.to_nat (rel_dim b)) fvert;
      free_in_rows (row + 1) n' fvert'
  end.

Definition get_free_vertices : M HexBoard (list vertID) :=
  b ← get_state; free_in_rows 0 (Z.to_nat (rel_dim b)) [].

(** Division by zero has no defined result. *)
Definition vertex_to_row_col (vert : vertID) : M HexBoard (Z * Z) :=
  b ← get_state;
  assert (negb (abs_dim b =? 0));;
  mret (to_int (vert / abs_dim b) - 1, to_int (vert mod abs_dim b) - 1).

(** [clone_board_state(other)]: [other] is another object, only read. *)
Definition clone_board_state (other : HexBoard) : M HexBoard unit :=
  n ← base get_nodes;
  n' ← ask other (base get_nodes);
  assert (n =? n');;
  for_upto n' (λ i,
    k ← ask other (base (get_vertex_key i));
    base (set_vertex_key i k)).

(** ** aiplayer.hpp: the Monte Carlo player *)

Section MonteCarlo.
(** [std::default_random_engine] and [std::shuffle] belong to the C++
    library: the generator's state is an abstract type, and [shuffle]
    returns the permuted vector with the next state of the generator. *)
Variable RNG : Type.
Variable shuffle : RNG → list vertID → list vertID * RNG.

(** The fields of [AIMonteCarloPlayer]; [board] is the object behind the
    pointer [Player::board].  The name of the player and the progress
    messages written to [cout] are left out. *)
Record AIMonteCarloPlayer := mkAI {
  board : HexBoard;
  gen : RNG;
  gcopy : HexBoard;
  trials : Z
}.

Definition on_board {A} (m : M HexBoard A) : M AIMonteCarloPlayer A :=
  lift board (λ b s, {| board := b; gen := gen s; gcopy := gcopy s;
                        trials := trials s |}) m.

Definition on_gcopy {A} (m : M HexBoard A) : M AIMonteCarloPlayer A :=
  lift gcopy (λ b s, {| board := board s; gen := gen s; gcopy := b;
                        trials := trials s |}) m.

(** [shuffle(tmp.begin(), tmp.end(), gen)] *)
Definition call_shuffle (tmp : list vertID)
  : M AIMonteCarloPlayer (list vertID) :=
  s ← get_state;
  let '(tmp', g') := shuffle (gen s) tmp in
  put_state {| board := board s; gen := g'; gcopy := gcopy s;
               trials := trials s |};;
  mret tmp'.

(** [for(j...) gcopy.set_vertex_key(tmp[j], ((j%2)==0) ? op : me)] *)
Fixpoint fill (j : Z) (tmp : list vertID) (op me : Color)
  : M HexBoard unit :=
  match tmp with
  | [] => mret tt
  | p :: rest =>
      base (set_vertex_key p (if Z.rem j 2 =? 0 then op else me));;
      fill (j + 1) rest op me
  end.

(** [for(p...) gcopy.set_vertex_key( *p, Color::WHITE)] *)
Fixpoint unfill (tmp : list vertID) : M HexBoard unit :=
  match tmp with
  | [] => mret tt
  | p :: rest => base (set_vertex_key p WHITE);; unfill rest
  end.

(** The loop over the trials; [n] iterations are left. *)
Fixpoint trial_loop (n : nat) (me op : Color) (tmp : list vertID) (wins : Z)
  : M AIMonteCarloPlayer Z :=
  match n with
  | O => mret wins
  | S n' =>
      tmp' ← call_shuffle tmp;
      on_gcopy (fill 0 tmp' op me);;
      won ← on_gcopy (is_victory me);
      on_gcopy (unfill tmp');;
      trial_loop n' me op tmp' (if (won : bool) then wins + 1 else wins)
  end.

Definition simulate (curmove : vertID) (fvert : list vertID)
  : M AIMonteCarloPlayer Z :=
  let tmp := filter (λ p, p ≠ curmove) fvert in
  s ← get_state;
  on_gcopy (clone_board_state (board s));;
  me ← on_board get_current_player_symbol;
  let op := if decide (me = BLUE) then RED else BLUE in
  on_gcopy (base (set_vertex_key curmove me));;
  wins ← trial_loop (Z.to_nat (trials s)) me op tmp 0;
  on_gcopy (base (set_vertex_key curmove WHITE));;
  mret wins.

(** The loop of [play] over the candidates [ps], with the current
    [winner] and [hiwins]. *)
Fixpoint best_move (ps fvert : list vertID) (winner : vertID) (hiwins : Z)
  : M AIMonteCarloPlayer vertID :=
  match ps with
  | [] => mret winner
  | p :: rest =>
      wins ← simulate p fvert;
      if hiwins <? wins
      then best_move rest fvert p wins
      else best_move rest fvert winner hiwins
  end.

(** [AIMonteCarloPlayer::play]: the move is returned as [(row, col)]. *)
Definition ai_play : M AIMonteCarloPlayer (Z * Z) :=
  fvert ← on_board get_free_vertices;
  assert (negb (bool_decide (fvert = [])));;
  winner ← best_move fvert fvert 0 0;
  assert (negb (winner =? 0));;
  on_board (vertex_to_row_col winner).

End MonteCarlo.

Arguments board {RNG} _.
Arguments gen {RNG} _.
Arguments gcopy {RNG} _.
Arguments trials {RNG} _.
Arguments mkAI {RNG} _ _ _ _.

(** * More of the program *)

(** ** aiplayer.hpp: construction and settings *)

(** [AIMonteCarloPlayer(nm, b)]: the scratch board is a new board of the
    playable dimension of [b], the number of trials is 1000.  The generator
    starts from the clock, here [seed]. *)
Definition new_AIMonteCarloPlayer {RNG} (seed : RNG) (b : HexBoard)
  : res (AIMonteCarloPlayer RNG) :=
  match get_playable_dim b with
  | Ret (d, _) =>
      match new_HexBoard d with
      | Ret gc => Ret (mkAI b seed gc 1000)
      | Abort => Abort
      | OutOfFuel => OutOfFuel
      end
  | Abort => Abort
  | OutOfFuel => OutOfFuel
  end.

(** [set_trials] *)
Definition set_trials {RNG} (t : Z) : M (AIMonteCarloPlayer RNG) unit :=
  s ← get_state;
  put_state {| board := board s; gen := gen s; gcopy := gcopy s;
               trials := t |}.

(** ** cursor.hpp *)

(** The special keys, as values of the underlying type [char]. *)
Definition UP : Z := 65.
Definition DOWN : Z := 66.
Definition RIGHT : Z := 67.
Definition LEFT : Z := 68.
Definition ESC : Z := 27.
Definition SPACE : Z := 32.

(** What [Cursor] reads and writes: the characters that wait on the
    standard input, and the local modes [c_lflag] of the terminal. *)
Record Terminal := mkTerminal { stdin : list Z; c_lflag : Z }.

Module Cursor.
Section Cursor.
(** The constants of [<termios.h>] and [<cstdio>], and the conversion from
    [int] to [char] behind [static_cast<Key>], which depends on the
    platform. *)
Variables ICANON ECHO EOF : Z.
Variable to_char : Z → Z.

(** [getchar()]: the next character, or [EOF] once the input is used up. *)
Definition getchar : M Terminal Z :=
  t ← get_state;
  match stdin t with
  | [] => mret EOF
  | c :: rest =>
      put_state {| stdin := rest; c_lflag := c_lflag t |};; mret c
  end.

(** [set_terminal_state]: [tcgetattr], the change of the two modes, and
    [tcsetattr]. *)
Definition set_terminal_state (on : bool) : M Terminal unit :=
  t ← get_state;
  put_state {| stdin := stdin t;
               c_lflag := if on
                          then u32 (Z.lor (c_lflag t) (Z.lor ICANON ECHO))
                          else u32 (Z.land (c_lflag t)
                                           (Z.lnot (Z.lor ICANON ECHO))) |}.

(** [Cursor::read] *)
Definition read : M Terminal Z :=
  set_terminal_state false;;
  c ← getchar;
  code ← (if to_char c =? ESC
          then c' ← getchar;
               if to_char c' =? 91
               then c'' ← getchar; mret (to_char c'')
               else mret (to_char c')
          else mret (to_char c));
  set_terminal_state true;;
  mret code.

End Cursor.
End Cursor.

(** ** player.hpp: the player who moves a cursor with the arrows *)

(** The result of an operation on [int]; an overflow has no defined
    result. *)
Definition int_result {St} (z : Z) : M St Z :=
  if (- 2 ^ 31 <=? z) && (z <? 2 ^ 31) then mret z else abort.

Module ArrowHumanPlayer.

(** The fields: [board] is the object behind the pointer [Player::board],
    [y] and [x] are the row and the column of the cursor.  The terminal is
    kept with them.  The name of the player and the messages written to
    [cout] are left out. *)
Record t := mk { board : HexBoard; terminal : Terminal; y : Z; x : Z }.

Section ArrowHumanPlayer.
Variables ICANON ECHO EOF : Z.
Variable to_char : Z → Z.

Definition on_terminal {A} (m : M Terminal A) : M t A :=
  lift terminal (λ tm s, {| board := board s; terminal := tm;
                            y := y s; x := x s |}) m.

Definition set_cursor (row col : Z) : M t unit :=
  s ← get_state;
  put_state {| board := board s; terminal := terminal s;
               y := row; x := col |}.

(** [commit_if_valid]; the conjunctions of the test are evaluated from the
    left, as far as needed. *)
Definition commit_if_valid (row col : Z) : M t unit :=
  s ← get_state;
  row_ok ← (if 0 <=? row
            then d ← ask (board s) get_playable_dim; mret (row <? d)
            else mret false);
  col_ok ← (if (row_ok : bool)
            then if 0 <=? col
                 then d ← ask (board s) get_playable_dim; mret (col <? d)
                 else mret false
            else mret false);
  if (col_ok : bool) then set_cursor row col else mret tt.

(** [reset]: the cursor goes to the centre of the board. *)
Definition reset : M t unit :=
  s ← get_state;
  d ← ask (board s) get_playable_dim;
  set_cursor (Z.quot d 2) (Z.quot d 2).

(** The constructor calls [reset], which overwrites the cursor without
    reading it. *)
Definition new (b : HexBoard) (tm : Terminal) : res t :=
  match reset {| board := b; terminal := tm; y := 0; x := 0 |} with
  | Ret (_, s) => Ret s
  | Abort => Abort
  | OutOfFuel => OutOfFuel
  end.

(** [play]: the loop [while(true)] reads a key at each iteration, moves the
    cursor on an arrow, and returns the cursor on [SPACE]. *)
Fixpoint play (fuel : nat) : M t (Z * Z) :=
  match fuel with
  | O => out_of_fuel
  | S fuel' =>
      code ← on_terminal (Cursor.read ICANON ECHO EOF to_char);
      s ← get_state;
      if code =? UP then
        r ← int_result (y s - 1); commit_if_valid r (x s);; play fuel'
      else if code =? DOWN then
        r ← int_result (y s + 1); commit_if_valid r (x s);; play fuel'
      else if code =? LEFT then
        c ← int_result (x s - 1); commit_if_valid (y s) c;; play fuel'
      else if code =? RIGHT then
        c ← int_result (x s + 1); commit_if_valid (y s) c;; play fuel'
      else if code =? SPACE then mret (y s, x s)
      else play fuel'
  end.

End ArrowHumanPlayer.
End ArrowHumanPlayer.

(** ** player.hpp: the player who moves at random *)

(** [a % b] on [int]: a division by zero, and the one quotient that
    overflows, have no defined result. *)
Definition int_rem {St} (a b : Z) : M St Z :=
  if (b =? 0) || ((a =? - 2 ^ 31) && (b =? -1)) then abort
  else mret (Z.rem a b).

Module AIRandomPlayer.
Section AIRandomPlayer.
(** [rand()] belongs to the C library: the state of its generator is an
    abstract type, and [rand] returns a number with the next state. *)
Variable RandState : Type.
Variable rand : RandState → Z * RandState.

(** [board] is the object behind the pointer [Player::board]; the state of
    the generator of [rand] is kept with it. *)
Record t := mk { board : HexBoard; seed : RandState }.

Definition call_rand : M t Z :=
  s ← get_state;
  let '(r, g) := rand (seed s) in
  put_state {| board := board s; seed := g |};;
  mret r.

(** [play] *)
Definition play : M t (Z * Z) :=
  r1 ← call_rand;
  s1 ← get_state;
  d1 ← ask (board s1) get_playable_dim;
  row ← int_rem r1 d1;
  r2 ← call_rand;
  s2 ← get_state;
  d2 ← ask (board s2) get_playable_dim;
  col ← int_rem r2 d2;
  mret (row, col).

End AIRandomPlayer.

Arguments mk {RandState} _ _.
Arguments board {RandState} _.
Arguments seed {RandState} _.

End AIRandomPlayer.

(** * Specification vocabulary *)

(** ** Total correctness of a computation *)

(** [wp m s Q]: from the state [s], [m] returns a value and a state that
    satisfy [Q]; it does not abort and it does not run out of fuel. *)
Definition wp {St A} (m : M St A) (s : St) (Q : A → St → Prop) : Prop :=
  ∃ a s', m s = Ret (a, s') ∧ Q a s'.

(** [m] leaves the state as it found it, whenever it returns. *)
Definition read_only {St A} (m : M St A) : Prop :=
  ∀ s a s', m s = Ret (a, s') → s' = s.

(** ** Observations of a board *)

Definition nodes (b : HexBoard) : Z := Z.of_nat (length (vlist (graph b))).

(** The label of a vertex. *)
Definition label (b : HexBoard) (x : vertID) : option Color :=
  key <$> at_index (vlist (graph b)) x.

(** The neighbours of a vertex, in the order of its edge list. *)
Definition neighbors (b : HexBoard) (x : vertID) : list vertID :=
  from_option vertex_get_neighbors [] (at_index (vlist (graph b)) x).

(** The edge lists of all the vertices, with their weights. *)
Definition edges (b : HexBoard) : list (list (Edge Z)) :=
  elist <$> vlist (graph b).

(** The index of the absolute coordinate [(row,col)], margins included, and
    of the relative coordinate [(row,col)] of the playable area. *)
Definition abs_index (b : HexBoard) (row col : Z) : vertID :=
  row * abs_dim b + col.

Definition rel_index (b : HexBoard) (row col : Z) : vertID :=
  (row + 1) * abs_dim b + (col + 1).

(** The dimensions of a board agree with each other and with the two
    functors, and every index of the padded grid fits [vertID]. *)
Record dims_ok (b : HexBoard) : Prop := {
  dims_rel : 2 < rel_dim b;
  dims_abs : abs_dim b = rel_dim b + 2;
  dims_fit : abs_dim b * abs_dim b < 2 ^ 32;
  dims_abs_pos : abs_pos b = mkTranspose 0 0 (abs_dim b);
  dims_rel_pos : rel_pos b = mkTranspose 1 1 (abs_dim b)
}.

(** The invariant of the class [HexBoard]: good dimensions, one vertex per
    cell of the padded grid, and every edge leads to a vertex. *)
Record wf_board (b : HexBoard) : Prop := {
  wf_dims : dims_ok b;
  wf_nodes : nodes b = abs_dim b * abs_dim b;
  wf_edges : ∀ x y, y ∈ neighbors b x → 0 <= y < nodes b
}.

(** The board [b] with the label of the vertex [x] set to [k]. *)
Definition paint (x : vertID) (k : Color) (b : HexBoard) : HexBoard :=
  set_graph {| nedges := nedges (graph b);
               vlist := alter (set_key k) (Z.to_nat x) (vlist (graph b)) |} b.

(** The board [b] with the turn given to [t]. *)
Definition with_turn (t : bool) (b : HexBoard) : HexBoard :=
  {| graph := graph b; abs_dim := abs_dim b; rel_dim := rel_dim b;
     abs_pos := abs_pos b; rel_pos := rel_pos b; p1_turn := t |}.

(** ** Paths of one colour *)

(** [reach b sym src v]: [v] is [src], or a vertex labelled [sym] next to a
    vertex already reached. *)
Inductive reach (b : HexBoard) (sym : Color) (src : vertID) : vertID → Prop :=
  | reach_src : reach b sym src src
  | reach_step u v :
      reach b sym src u → v ∈ neighbors b u → label b v = Some sym →
      reach b sym src v.

(** Every vertex of the list is a neighbour of the one before. *)
Fixpoint is_path (b : HexBoard) (l : list vertID) : Prop :=
  match l with
  | x :: l' =>
      match l' with
      | y :: _ => y ∈ neighbors b x ∧ is_path b l'
      | [] => True
      end
  | [] => True
  end.

(** A path from [src] to [dst] whose vertices strictly between the two are
    all labelled [sym]. *)
Definition colored_path (b : HexBoard) (sym : Color) (src dst : vertID) : Prop :=
  ∃ mid, Forall (λ v, label b v = Some sym) mid ∧
         is_path b (src :: mid ++ [dst]).

(** The two margin vertices that anchor the search for a colour. *)
Definition source (b : HexBoard) (sym : Color) : vertID :=
  match sym with
  | BLUE => abs_index b 1 0
  | _ => abs_index b 0 1
  end.

Definition destination (b : HexBoard) (sym : Color) : vertID :=
  match sym with
  | BLUE => abs_index b (abs_dim b - 2) (abs_dim b - 1)
  | _ => abs_index b (abs_dim b - 1) (abs_dim b - 2)
  end.

(** The number of vertices not yet visited. *)
Fixpoint count_false (l : list bool) : nat :=
  match l with
  | [] => 0
  | f :: l' => (if f then 0 else 1) + count_false l'
  end.

Definition seen (visited : list bool) (x : vertID) : Prop :=
  at_index visited x = Some true.

(** ** The search of [is_victory] *)

(** What one run of the inner loop over [neigh] does to the flags and to
    the stack, when it does not find [dst]. *)
Record scan_ok (b : HexBoard) (sym : Color) (dst : vertID)
    (neigh : list vertID) (visited : list bool) (stack : list vertID)
    (visited' : list bool) (stack' : list vertID) : Prop := {
  sc_dst : dst ∉ neigh;
  sc_length : length visited' = length visited;
  sc_marked : ∀ x, x ∈ neigh → seen visited' x;
  sc_mono : ∀ x, seen visited x → seen visited' x;
  sc_new : ∀ x, seen visited' x → seen visited x ∨ x ∈ neigh;
  sc_pushed : ∀ x, x ∈ stack' →
    x ∈ stack ∨ (x ∈ neigh ∧ label b x = Some sym);
  sc_kept : ∀ x, x ∈ stack → x ∈ stack';
  sc_push : ∀ x, x ∈ neigh → ¬ seen visited x → label b x = Some sym →
    x ∈ stack';
  sc_measure : (length stack' + count_false visited'
                ≤ length stack + count_false visited)%nat
}.

Definition scan_post (b : HexBoard) (sym : Color) (dst : vertID)
    (neigh : list vertID) (visited : list bool) (stack : list vertID)
    (r : option (list bool * list vertID)) : Prop :=
  match r with
  | None => dst ∈ neigh
  | Some (visited', stack') =>
      scan_ok b sym dst neigh visited stack visited' stack'
  end.

(** The invariant of the outer loop.  [popped] is the set of the vertices
    popped so far, which the program does not keep. *)
Record search_inv (b : HexBoard) (sym : Color) (src dst : vertID)
    (popped : vertID → Prop) (visited : list bool) (stack : list vertID)
    : Prop := {
  inv_length : Z.of_nat (length visited) = nodes b;
  inv_stack : ∀ u, u ∈ stack → reach b sym src u;
  inv_popped : ∀ u, popped u →
    reach b sym src u ∧ ∀ v, v ∈ neighbors b u → v ≠ dst ∧ seen visited v;
  inv_seen : ∀ v, seen visited v → label b v = Some sym →
    popped v ∨ v ∈ stack;
  inv_src : popped src ∨ src ∈ stack
}.

(** A test of [wf_board] that computes, for boards given in full. *)
Definition check_board (b : HexBoard) : bool :=
  (2 <? rel_dim b) && (abs_dim b =? rel_dim b + 2)
  && (abs_dim b * abs_dim b <? 2 ^ 32)
  && bool_decide (abs_pos b = mkTranspose 0 0 (abs_dim b))
  && bool_decide (rel_pos b = mkTranspose 1 1 (abs_dim b))
  && (nodes b =? abs_dim b * abs_dim b)
  && forallb (λ v, forallb (λ e, (0 <=? neigh e) && (neigh e <? nodes b))
                           (elist v))
             (vlist (graph b)).

(** ** Observations of a graph *)

Section GraphObservations.
Context {vtype etype : Type}.

(** The neighbours of [x], in the order of its edge list. *)
Definition gneighbors (g : Graph vtype etype) (x : vertID) : list vertID :=
  from_option vertex_get_neighbors [] (at_index (vlist g) x).

(** The edges kept at [x] that lead to [y]. *)
Definition edges_to (g : Graph vtype etype) (x y : vertID)
  : list (Edge etype) :=
  from_option (λ v, filter (λ e, neigh e = y) (elist v)) []
              (at_index (vlist g) x).

(** [Vertex::set_weight], when the edge is there. *)
Definition reweigh (n : vertID) (weight : etype) (v : Vertex vtype etype)
  : Vertex vtype etype :=
  {| key := key v;
     elist := alter (λ e, mkEdge (neigh e) weight)
                    (Z.to_nat (find v n)) (elist v) |}.

(** The graph after [add_edge(x,y,weight)] when [y] was not among the
    neighbours of [x], and when it was. *)
Definition with_new_edge (x y : vertID) (weight : etype)
    (g : Graph vtype etype) : Graph vtype etype :=
  {| nedges := u32 (nedges g + 1);
     vlist := alter (add x weight) (Z.to_nat y)
                (alter (add y weight) (Z.to_nat x) (vlist g)) |}.

Definition with_new_weight (x y : vertID) (weight : etype)
    (g : Graph vtype etype) : Graph vtype etype :=
  {| nedges := nedges g;
     vlist := alter (reweigh x weight) (Z.to_nat y)
                (alter (reweigh y weight) (Z.to_nat x) (vlist g)) |}.

End GraphObservations.

(** ** Inserting an edge twice *)

(** After [add_edge(x,y,w1)] and [add_edge(x,y,w2)] each end keeps exactly
    one edge to the other, its weight is [w2] whichever end is asked, and
    the second call leaves the number of edges as it was. *)
Definition inserted_once {vtype etype} (g : Graph vtype etype)
    (x y : vertID) (w1 w2 : etype) : Prop :=
  ∃ g1 g2,
    add_edge x y w1 g = Ret (tt, g1) ∧
    add_edge x y w2 g1 = Ret (tt, g2) ∧
    edges_to g2 x y = [mkEdge y w2] ∧
    edges_to g2 y x = [mkEdge x w2] ∧
    get_edge_weight x y g2 = Ret (w2, g2) ∧
    get_edge_weight y x g2 = Ret (w2, g2) ∧
    get_edges g2 = Ret (nedges g1, g2).

(** ** The board built by [reset_board] *)

(** The corners of the padded grid of side [ad]. *)
Definition is_corner (ad row col : Z) : Prop :=
  (row = 0 ∨ row = ad - 1) ∧ (col = 0 ∨ col = ad - 1).

(** The label of the cell [(row,col)] after [k] iterations of the colouring
    loop. *)
Definition painted (ad k row col : Z) : Color :=
  if decide (is_corner ad row col) then
    if decide (0 < k) then GRAY else WHITE
  else if decide (row = 0 ∨ row = ad - 1) then
    if decide (col < k) then RED else WHITE
  else if decide (col = 0 ∨ col = ad - 1) then
    if decide (row < k) then BLUE else WHITE
  else WHITE.

(** The label of the cell [(row,col)] of a new board. *)
Definition initial_color (ad row col : Z) : Color :=
  if decide (is_corner ad row col) then GRAY
  else if decide (row = 0 ∨ row = ad - 1) then RED
  else if decide (col = 0 ∨ col = ad - 1) then BLUE
  else WHITE.

(** The three edges that the cell [(r,c)] adds: to the right, downwards, and
    down to the left. *)
Definition hex_step (r c r' c' : Z) : Prop :=
  (r' = r ∧ c' = c + 1) ∨ (r' = r + 1 ∧ c' = c) ∨ (r' = r + 1 ∧ c' = c - 1).

(** Two cells of the grid of side [ad] joined by one of these edges. *)
Definition hex_link (ad : Z) (x y : vertID) : Prop :=
  ∃ r c r' c',
    0 <= r < ad ∧ 0 <= c < ad ∧ 0 <= r' < ad ∧ 0 <= c' < ad ∧
    x = r * ad + c ∧ y = r' * ad + c' ∧ hex_step r c r' c'.

(** The edge lists are those of a simple undirected graph. *)
Record simple (b : HexBoard) : Prop := {
  simple_nodup : ∀ x, NoDup (neighbors b x);
  simple_sym : ∀ x y, y ∈ neighbors b x → x ∈ neighbors b y;
  simple_valid : ∀ x y, y ∈ neighbors b x → 0 <= y < nodes b
}.

(** A board of side [ad] while its edges are being added. *)
Record building (ad : Z) (b : HexBoard) : Prop := {
  bld_dims : dims_ok b;
  bld_abs : abs_dim b = ad;
  bld_nodes : nodes b = ad * ad;
  bld_simple : simple b
}.

(** [b'] is [b] with the edges [L] added, in either direction. *)
Record linked (b : HexBoard) (L : vertID → vertID → Prop) (b' : HexBoard)
    : Prop := {
  lk_label : ∀ x, label b' x = label b x;
  lk_rel : rel_dim b' = rel_dim b;
  lk_turn : p1_turn b' = p1_turn b;
  lk_edges : ∀ x y,
    y ∈ neighbors b' x ↔ y ∈ neighbors b x ∨ L x y ∨ L y x
}.

(** The computation [m] adds the edges [L] to a board being built. *)
Definition adds (ad : Z) (m : M HexBoard unit)
    (L : vertID → vertID → Prop) : Prop :=
  ∀ b, building ad b → wp m b (λ _ b', building ad b' ∧ linked b L b').

(** A board of side [ad] while its vertices are being coloured: it has all
    its vertices and no edge yet. *)
Record painting (ad : Z) (b : HexBoard) : Prop := {
  ptg_dims : dims_ok b;
  ptg_abs : abs_dim b = ad;
  ptg_nodes : nodes b = ad * ad;
  ptg_edges : ∀ x, neighbors b x = []
}.

(** What [reset_board] builds, for the side [ad]. *)
Record fresh_board (ad : Z) (b : HexBoard) : Prop := {
  fresh_wf : wf_board b;
  fresh_abs : abs_dim b = ad;
  fresh_turn : p1_turn b = true;
  fresh_label : ∀ row col, 0 <= row < ad → 0 <= col < ad →
    label b (row * ad + col) = Some (initial_color ad row col);
  fresh_nodup : ∀ x, NoDup (neighbors b x);
  fresh_edges : ∀ x y,
    y ∈ neighbors b x ↔ hex_link ad x y ∨ hex_link ad y x
}.

(** ** Margins and corners *)

(** The colours of the margin of the padded grid: the corners are blocked,
    the top and bottom rows are RED, the left and right columns BLUE. *)
Record margins_colored (b : HexBoard) : Prop := {
  mc_corner : ∀ row col, is_corner (abs_dim b) row col →
    label b (abs_index b row col) = Some GRAY;
  mc_rows : ∀ row col, row = 0 ∨ row = abs_dim b - 1 →
    0 < col < abs_dim b - 1 →
    label b (abs_index b row col) = Some RED;
  mc_cols : ∀ row col, col = 0 ∨ col = abs_dim b - 1 →
    0 < row < abs_dim b - 1 →
    label b (abs_index b row col) = Some BLUE
}.

(** A sequence of calls of [play], with the outcomes in order. *)
Fixpoint plays (moves : list (Z * Z)) : M HexBoard (list Outcome) :=
  match moves with
  | [] => mret []
  | (row, col) :: rest =>
      o ← play row col; os ← plays rest; mret (o :: os)
  end.

(** The six cells around the cell [(row,col)], as vertices. *)
Definition around (b : HexBoard) (row col : Z) : list vertID :=
  [abs_index b row (col - 1); abs_index b row (col + 1);
   abs_index b (row - 1) col; abs_index b (row + 1) col;
   abs_index b (row + 1) (col - 1); abs_index b (row - 1) (col + 1)].

(** The cells of the diagonal of a playable area of side [n] that follows
    the diagonal edges, from the top right to the bottom left, in relative
    coordinates. *)
Definition hex_diagonal (n : Z) : list (Z * Z) :=
  (λ i, (i, n - 1 - i)) <$> seqZ 0 n.

(** The board with the colour [k] on the given cells of the playable
    area. *)
Definition paint_cells (cells : list (Z * Z)) (k : Color) (b : HexBoard)
  : HexBoard :=
  foldr (λ cell b', paint (rel_index b cell.1 cell.2) k b') b cells.

(** The board [b] with [BLUE] on its diagonal. *)
Definition diagonal_board (b : HexBoard) : HexBoard :=
  paint_cells (hex_diagonal (rel_dim b)) BLUE b.

(** ** Boards that differ in their labels only *)

Record same_shape (b b' : HexBoard) : Prop := {
  shape_abs : abs_dim b' = abs_dim b;
  shape_rel : rel_dim b' = rel_dim b;
  shape_abs_pos : abs_pos b' = abs_pos b;
  shape_rel_pos : rel_pos b' = rel_pos b;
  shape_turn : p1_turn b' = p1_turn b;
  shape_nedges : nedges (graph b') = nedges (graph b);
  shape_edges : edges b' = edges b
}.

(** ** Boards given in full *)

Definition no_board : HexBoard :=
  {| graph := empty_graph; abs_dim := 0; rel_dim := 0;
     abs_pos := mkTranspose 0 0 0; rel_pos := mkTranspose 1 1 0;
     p1_turn := true |}.

Definition state_after {A} (m : M HexBoard A) (b : HexBoard) : HexBoard :=
  match m b with
  | Ret (_, b') => b'
  | _ => b
  end.

(** The board of [HexBoard(3)]. *)
Definition board3 : HexBoard :=
  Eval vm_compute in
    match new_HexBoard 3 with Ret b => b | _ => no_board end.

(** A position of the board of side 3 after seven moves.  BLUE holds
    (1,0), (0,2), (1,2) and (2,0); RED holds (0,0), (2,1) and (2,2) and is
    to move.  The two free cells (0,1) and (1,1), the vertices 7 and 12,
    each complete the chain of BLUE from (1,0) to (0,2). *)
Definition lost_moves : list (Z * Z) :=
  [(1, 0); (0, 0); (0, 2); (2, 1); (1, 2); (2, 2); (2, 0)].

Definition lost_position : HexBoard :=
  Eval vm_compute in state_after (plays lost_moves) board3.

(** The scratch board once the labels of [lost_position] are copied to
    it. *)
Definition lost_scratch : HexBoard :=
  Eval vm_compute in state_after (clone_board_state lost_position) board3.

(** ** The choice of the Monte Carlo player *)

Section Scores.
Variable RNG : Type.
Variable shuffle : RNG → list vertID → list vertID * RNG.

(** The counts that [simulate] returns for the candidates [ps], one after
    the other. *)
Fixpoint scores (ps fvert : list vertID)
  : M (AIMonteCarloPlayer RNG) (list Z) :=
  match ps with
  | [] => mret []
  | p :: rest =>
      wins ← simulate RNG shuffle p fvert;
      ws ← scores rest fvert;
      mret (wins :: ws)
  end.

End Scores.

(** What the loop of [play] keeps, from the candidates and their counts. *)
Fixpoint choose (ps : list vertID) (ws : list Z) (winner : vertID)
    (hiwins : Z) : vertID :=
  match ps, ws with
  | p :: ps', w :: ws' =>
      if hiwins <? w then choose ps' ws' p w else choose ps' ws' winner hiwins
  | _, _ => winner
  end.

(** ** The boards of a game *)

(** The boards that a game goes through: built by the constructor for a
    dimension above 2 whose padded grid fits [vertID], then changed by
    [play] on values of type [int] and by [reset_board]. *)
Inductive game_board : HexBoard → Prop :=
  | game_new d b :
      2 < d → (d + 2) * (d + 2) < 2 ^ 32 →
      new_HexBoard d = Ret b → game_board b
  | game_play b row col o b' :
      game_board b → is_int row → is_int col →
      play row col b = Ret (o, b') → game_board b'
  | game_reset b b' :
      game_board b → reset_board b = Ret (tt, b') → game_board b'.

(** * More of the program: vocabulary *)

(** ** The playable area *)

(** The vertices of the playable area, row by row. *)
Definition playable (b : HexBoard) : list vertID :=
  seqZ 0 (rel_dim b) ≫= λ row, rel_index b row <$> seqZ 0 (rel_dim b).

(** The vertices of the playable area that nobody holds, row by row. *)
Definition free_cells (b : HexBoard) : list vertID :=
  filter (λ v, label b v = Some WHITE) (playable b).

(** The number of cells of the playable area that hold the colour [c]. *)
Definition stones (c : Color) (b : HexBoard) : nat :=
  length (filter (λ v, label b v = Some c) (playable b)).

(** ** Games in progress *)

(** The boards of a game that nobody has won yet: the board of the
    constructor or of [reset_board], and the boards that [play] leaves when
    it returns an error or [NO_WIN]. *)
Inductive in_play : HexBoard → Prop :=
  | in_play_new d b :
      2 < d → (d + 2) * (d + 2) < 2 ^ 32 →
      new_HexBoard d = Ret b → in_play b
  | in_play_reset b b' :
      game_board b → reset_board b = Ret (tt, b') → in_play b'
  | in_play_move b row col o b' :
      in_play b → is_int row → is_int col →
      play row col b = Ret (o, b') → o ≠ P1_WIN → o ≠ P2_WIN → in_play b'.

(** ** Graphs built through the interface *)

(** The values of type [vertID]. *)
Definition is_vertID (x : Z) : Prop := 0 <= x < 2 ^ 32.

Section GraphVocabulary.
Context {vtype etype : Type}.

(** The number of vertices, not wrapped. *)
Definition order (g : Graph vtype etype) : Z := Z.of_nat (length (vlist g)).

(** The key kept at [x]. *)
Definition gkey (g : Graph vtype etype) (x : vertID) : option vtype :=
  key <$> at_index (vlist g) x.

(** The sum of the lengths of the edge lists. *)
Definition degree_sum (g : Graph vtype etype) : nat :=
  sum_list_with (λ v, length (elist v)) (vlist g).

(** The graphs that come from the empty graph by [add_vertex], [add_edge],
    [set_vertex_key] and [set_edge_weight] on arguments of type
    [vertID]. *)
Inductive built : Graph vtype etype → Prop :=
  | built_empty : built empty_graph
  | built_add_vertex g k g' :
      built g → add_vertex k g = Ret (tt, g') → built g'
  | built_add_edge g x y w g' :
      built g → is_vertID x → is_vertID y →
      add_edge x y w g = Ret (tt, g') → built g'
  | built_set_vertex_key g x k g' :
      built g → is_vertID x →
      set_vertex_key x k g = Ret (tt, g') → built g'
  | built_set_edge_weight g x y w g' :
      built g → is_vertID x → is_vertID y →
      set_edge_weight x y w g = Ret (tt, g') → built g'.

(** Between two distinct vertices each end keeps at most one edge, and both
    ends keep it with the same weight. *)
Definition undirected (g : Graph vtype etype) : Prop :=
  ∀ x y, x ≠ y →
    (length (edges_to g x y) ≤ 1)%nat ∧
    val <$> edges_to g x y = val <$> edges_to g y x.

(** A computation that returns keeps the number of vertices. *)
Definition keeps_order {A} (m : M (Graph vtype etype) A) : Prop :=
  ∀ g a g', m g = Ret (a, g') → order g' = order g.

End GraphVocabulary.

(** ** The cursor of the player who uses the arrows *)

(** Where a key takes the cursor on a playable area of side [d]: an arrow
    moves it by one cell unless that leaves the area, any other key leaves
    it where it is. *)
Definition arrow_step (d : Z) (pos : Z * Z) (code : Z) : Z * Z :=
  let target :=
    if code =? UP then (pos.1 - 1, pos.2)
    else if code =? DOWN then (pos.1 + 1, pos.2)
    else if code =? LEFT then (pos.1, pos.2 - 1)
    else if code =? RIGHT then (pos.1, pos.2 + 1)
    else pos in
  if (0 <=? target.1) && (target.1 <? d) && (0 <=? target.2) && (target.2 <? d)
  then target else pos.

(** The characters that a key sends: itself, or itself after [ESC] and
    [[], as the arrows of a terminal do. *)
Definition key_chars (k : bool * Z) : list Z :=
  if k.1 then [ESC; 91; k.2] else [k.2].

(** The cursor is on the playable area of the board, which is well
    formed. *)
Definition cursor_ok (s : ArrowHumanPlayer.t) : Prop :=
  wf_board (ArrowHumanPlayer.board s) ∧
  0 <= ArrowHumanPlayer.y s < rel_dim (ArrowHumanPlayer.board s) ∧
  0 <= ArrowHumanPlayer.x s < rel_dim (ArrowHumanPlayer.board s).

(** ** Positions and graphs given in full *)

(** The board of side 3 after four moves: BLUE holds (1,0) and (1,1), RED
    holds (0,0) and (0,1), and BLUE wins by moving to (1,2). *)
Definition near_win_moves : list (Z * Z) := [(1, 0); (0, 0); (1, 1); (0, 1)].

Definition near_win : HexBoard :=
  Eval vm_compute in state_after (plays near_win_moves) board3.

(** The graph of two vertices joined by an edge of weight 5. *)
Definition two_linked : Graph Color Z :=
  Eval vm_compute in
    match (add_vertex BLUE;; add_vertex RED;; add_edge 0 1 5) empty_graph with
    | Ret (_, g) => g
    | _ => empty_graph
    end.

(** The object that the constructor [HexBoard(65534)] hands to
    [reset_board]: the side of the padded grid is 65536, and its square,
    the number of vertices to add, is [2 ^ 32], which is 0 in [vertID]. *)
Definition wide_board : HexBoard :=
  {| graph := empty_graph;
     abs_dim := 65536;
     rel_dim := 65534;
     abs_pos := mkTranspose 0 0 65536;
     rel_pos := mkTranspose 1 1 65536;
     p1_turn := true |}.

(** * Proofs *)

(** ** The monad *)

Lemma bind_unfold {St A B} (m : M St A) (f : A → M St B) (s : St) :
  (m ≫= f) s = match m s with
               | Ret (a, s') => f a s'
               | Abort => Abort
               | OutOfFuel => OutOfFuel
               end.
Proof. reflexivity. Qed.

Lemma bind_get_state {St B} (f : St → M St B) (s : St) :
  (get_state ≫= f) s = f s s.
Proof. reflexivity. Qed.

Lemma bind_Ret {St A B} (m : M St A) (f : A → M St B) s a s' :
  m s = Ret (a, s') → (m ≫= f) s = f a s'.
Proof. intros H. by rewrite bind_unfold, H. Qed.

Lemma bind_inv {St A B} (m : M St A) (f : A → M St B) (s : St) (r : B * St) :
  (m ≫= f) s = Ret r → ∃ a s', m s = Ret (a, s') ∧ f a s' = Ret r.
Proof.
  rewrite bind_unfold. destruct (m s) as [[a s']| |]; [eauto | done..].
Qed.

Lemma wp_ret {St A} (a : A) (s : St) (Q : A → St → Prop) :
  Q a s → wp (mret a) s Q.
Proof. intros HQ. exists a, s. done. Qed.

Lemma wp_eq {St A} (m : M St A) s a s' (Q : A → St → Prop) :
  m s = Ret (a, s') → Q a s' → wp m s Q.
Proof. intros Hm HQ. by exists a, s'. Qed.

Lemma wp_bind {St A B} (m : M St A) (f : A → M St B) s (Q : B → St → Prop) :
  wp m s (λ a s', wp (f a) s' Q) → wp (m ≫= f) s Q.
Proof.
  intros (a & s' & Hm & b & s'' & Hf & HQ).
  exists b, s''. rewrite bind_unfold, Hm. done.
Qed.

Lemma wp_mono {St A} (m : M St A) s (Q Q' : A → St → Prop) :
  wp m s Q → (∀ a s', Q a s' → Q' a s') → wp m s Q'.
Proof. intros (a & s' & Hm & HQ) HQQ'. exists a, s'. eauto. Qed.

Lemma wp_get_state {St} (s : St) (Q : St → St → Prop) :
  Q s s → wp get_state s Q.
Proof. intros HQ. exists s, s. done. Qed.

Lemma wp_put_state {St} (s t : St) (Q : unit → St → Prop) :
  Q tt t → wp (put_state t) s Q.
Proof. intros HQ. exists tt, t. done. Qed.

Lemma wp_assert {St} (c : bool) (s : St) (Q : unit → St → Prop) :
  c = true → Q tt s → wp (assert c) s Q.
Proof. intros -> HQ. exists tt, s. done. Qed.

Lemma wp_must {St A} (o : option A) (a : A) (s : St) (Q : A → St → Prop) :
  o = Some a → Q a s → wp (must o) s Q.
Proof. intros -> HQ. exists a, s. done. Qed.

Lemma wp_lift {St T A} (proj : St → T) (upd : T → St → St) (m : M T A) s
    (Q : A → St → Prop) :
  wp m (proj s) (λ a t, Q a (upd t s)) → wp (lift proj upd m) s Q.
Proof.
  intros (a & t & Hm & HQ). exists a, (upd t s).
  unfold lift. rewrite Hm. done.
Qed.

Lemma wp_when {St} (c : bool) (m : M St unit) s (Q : unit → St → Prop) :
  (c = true → wp m s Q) → (c = false → Q tt s) → wp (when c m) s Q.
Proof.
  destruct c; simpl; intros H1 H2; [by apply H1 | by apply wp_ret, H2].
Qed.

(** The rule of the counted loop, with an invariant [I] indexed by the
    number of iterations done. *)
Lemma wp_for_range {St} (I : nat → St → Prop) (body : Z → M St unit) n i s :
  I 0%nat s →
  (∀ k s, (k < n)%nat → I k s →
     wp (body (i + Z.of_nat k)) s (λ _ s', I (S k) s')) →
  wp (for_range i n body) s (λ _ s', I n s').
Proof.
  revert I i s. induction n as [|n IH]; intros I i s H0 Hstep.
  - by apply wp_ret.
  - simpl. apply wp_bind.
    eapply wp_mono.
    { specialize (Hstep 0%nat s). rewrite Z.add_0_r in Hstep.
      apply Hstep; [lia | done]. }
    intros [] s' H1. simpl in H1.
    apply (IH (λ k, I (S k))); [done|].
    intros k s'' Hk HI.
    specialize (Hstep (S k) s''). 
    replace (i + 1 + Z.of_nat k) with (i + Z.of_nat (S k)) by lia.
    apply Hstep; [lia | done].
Qed.

Lemma wp_for_upto {St} (I : Z → St → Prop) (body : Z → M St unit) bound s :
  0 <= bound →
  I 0 s →
  (∀ k s, 0 <= k < bound → I k s → wp (body k) s (λ _ s', I (k + 1) s')) →
  wp (for_upto bound body) s (λ _ s', I bound s').
Proof.
  intros Hb H0 Hstep. unfold for_upto.
  eapply wp_mono.
  { apply (wp_for_range (λ k, I (Z.of_nat k))); [done|].
    intros k s' Hk HI. rewrite Z.add_0_l.
    eapply wp_mono; [apply Hstep; [lia | done]|].
    intros [] s''. cbv beta. rewrite Nat2Z.inj_succ. done. }
  intros [] s'. cbv beta. by rewrite Z2Nat.id.
Qed.

(** Unfolds the operations of the monad in straight-line code. *)
Ltac munfold :=
  unfold mbind, M_bind, mret, M_ret, get_state, put_state, must, abort; simpl.

(** Read-only computations. *)
Lemma read_only_ret {St A} (a : A) : read_only (mret a : M St A).
Proof. intros s a' s' H. by inversion H. Qed.

Lemma read_only_bind {St A B} (m : M St A) (f : A → M St B) :
  read_only m → (∀ a, read_only (f a)) → read_only (m ≫= f).
Proof.
  intros Hm Hf s b s'' H.
  apply bind_inv in H as (a & s' & H1 & H2).
  apply Hm in H1 as ->. by apply Hf in H2.
Qed.

Lemma read_only_get_state {St} : read_only (@get_state St).
Proof. intros s a s' H. by inversion H. Qed.

Lemma read_only_abort {St A} : read_only (@abort St A).
Proof. intros s a s' H. done. Qed.

Lemma read_only_out_of_fuel {St A} : read_only (@out_of_fuel St A).
Proof. intros s a s' H. done. Qed.

Lemma read_only_assert {St} (c : bool) : read_only (@assert St c).
Proof. destruct c; [apply read_only_ret | apply read_only_abort]. Qed.

Lemma read_only_must {St A} (o : option A) : read_only (@must St A o).
Proof. destruct o; [apply read_only_ret | apply read_only_abort]. Qed.

Lemma read_only_lift {St T A} (proj : St → T) (upd : T → St → St) (m : M T A) :
  (∀ s, upd (proj s) s = s) → read_only m → read_only (lift proj upd m).
Proof.
  intros Hid Hm s a s'. unfold lift.
  destruct (m (proj s)) as [[a' t]| |] eqn:E; [|done..].
  intros [= <- <-]. apply Hm in E as ->. apply Hid.
Qed.

(** ** Machine integers *)

Lemma u32_small z : 0 <= z < 2 ^ 32 → u32 z = z.
Proof. intros H. unfold u32. by apply Z.mod_small. Qed.

Lemma u32_range z : 0 <= u32 z < 2 ^ 32.
Proof. unfold u32. apply Z.mod_pos_bound. lia. Qed.

(** A negative [int] becomes a large unsigned value. *)
Lemma u32_negative z : is_int z → z < 0 → 2 ^ 31 <= u32 z.
Proof.
  intros [H1 H2] Hn. unfold u32.
  replace z with (z + 2 ^ 32 + (-1) * 2 ^ 32) by lia.
  rewrite Z.mod_add by lia. rewrite Z.mod_small; lia.
Qed.

Lemma at_index_Some {A} (l : list A) x a :
  at_index l x = Some a → 0 <= x < Z.of_nat (length l).
Proof.
  unfold at_index. destruct (Z.leb_spec 0 x) as [Hx|Hx]; [|done].
  intros Hl%lookup_lt_Some. lia.
Qed.

Lemma at_index_is_Some {A} (l : list A) x :
  0 <= x < Z.of_nat (length l) → is_Some (at_index l x).
Proof.
  intros Hr. unfold at_index. destruct (Z.leb_spec 0 x) as [Hx|Hx]; [|lia].
  apply lookup_lt_is_Some. lia.
Qed.

Lemma at_index_insert {A} (l : list A) x y a :
  0 <= x < Z.of_nat (length l) →
  at_index (<[Z.to_nat x := a]> l) y = if decide (y = x) then Some a else at_index l y.
Proof.
  intros Hr. unfold at_index. destruct (Z.leb_spec 0 y) as [Hy|Hy].
  - case_decide as E.
    + subst. apply list_lookup_insert_eq. lia.
    + apply list_lookup_insert_ne. lia.
  - case_decide; [lia | done].
Qed.

Lemma at_index_fmap {A B} (f : A → B) (l : list A) x :
  at_index (f <$> l) x = f <$> at_index l x.
Proof.
  unfold at_index. destruct (0 <=? x); [apply list_lookup_fmap | done].
Qed.

(** ** The graph underneath a board *)

Lemma set_graph_id b : set_graph (graph b) b = b.
Proof. by destruct b. Qed.

Lemma graph_eta (g : Graph Color Z) : {| nedges := nedges g; vlist := vlist g |} = g.
Proof. by destruct g. Qed.

Lemma nodes_nonneg b : 0 <= nodes b.
Proof. unfold nodes. lia. Qed.

Lemma label_Some_valid b x k : label b x = Some k → 0 <= x < nodes b.
Proof.
  unfold label, nodes. destruct (at_index _ x) as [v|] eqn:E; [|done].
  intros _. by apply at_index_Some in E.
Qed.

Lemma label_is_Some b x : 0 <= x < nodes b → is_Some (label b x).
Proof.
  intros H. unfold label.
  destruct (at_index_is_Some (vlist (graph b)) x H) as [v ->]. by eexists.
Qed.

Lemma neighbors_valid b x y : y ∈ neighbors b x → 0 <= x < nodes b.
Proof.
  unfold neighbors, nodes. destruct (at_index _ x) as [v|] eqn:E.
  - intros _. by apply at_index_Some in E.
  - simpl. by intros ?%elem_of_nil.
Qed.

Lemma base_get_nodes b :
  nodes b < 2 ^ 32 → base get_nodes b = Ret (nodes b, b).
Proof.
  intros H. unfold base, lift, get_nodes. munfold.
  rewrite set_graph_id, u32_small; [done|].
  unfold nodes in *. lia.
Qed.

Lemma get_vertex_key_eq (g : Graph Color Z) x v :
  Z.of_nat (length (vlist g)) < 2 ^ 32 →
  at_index (vlist g) x = Some v →
  get_vertex_key x g = Ret (key v, g).
Proof.
  intros Hn Hv. pose proof (at_index_Some _ _ _ Hv) as Hx.
  unfold get_vertex_key, validate_vertex, get_nodes, vertex_at, assert.
  munfold. rewrite u32_small by lia.
  destruct (Z.ltb_spec x (Z.of_nat (length (vlist g)))); [|lia]. simpl.
  by rewrite Hv.
Qed.

Lemma base_get_vertex_key b x k :
  nodes b < 2 ^ 32 → label b x = Some k →
  base (get_vertex_key x) b = Ret (k, b).
Proof.
  intros Hn Hl. unfold label in Hl.
  destruct (at_index (vlist (graph b)) x) as [v|] eqn:E; [|done].
  injection Hl as <-. unfold base, lift.
  rewrite (get_vertex_key_eq _ _ v) by done. by rewrite set_graph_id.
Qed.

Lemma set_vertex_key_eq (g : Graph Color Z) x k :
  Z.of_nat (length (vlist g)) < 2 ^ 32 →
  0 <= x < Z.of_nat (length (vlist g)) →
  set_vertex_key x k g =
    Ret (tt, {| nedges := nedges g;
                vlist := alter (set_key k) (Z.to_nat x) (vlist g) |}).
Proof.
  intros Hn Hx.
  destruct (at_index_is_Some (vlist g) x Hx) as [v Hv].
  unfold set_vertex_key, validate_vertex, get_nodes, vertex_at, put_vertex,
    assert.
  munfold. rewrite u32_small by lia.
  destruct (Z.ltb_spec x (Z.of_nat (length (vlist g)))); [|lia]. simpl.
  rewrite Hv. simpl. do 3 f_equal.
  unfold at_index in Hv. destruct (0 <=? x); [|done].
  apply list_eq. intros i. destruct (decide (i = Z.to_nat x)) as [->|Hne].
  - rewrite list_lookup_insert_eq by (by eapply lookup_lt_Some).
    by rewrite list_lookup_alter_eq, Hv.
  - by rewrite list_lookup_insert_ne, list_lookup_alter_ne.
Qed.

Lemma base_set_vertex_key b x k :
  nodes b < 2 ^ 32 → 0 <= x < nodes b →
  base (set_vertex_key x k) b = Ret (tt, paint x k b).
Proof.
  intros Hn Hx. unfold base, lift. by rewrite set_vertex_key_eq.
Qed.

Lemma get_neighbors_eq (g : Graph Color Z) x v :
  at_index (vlist g) x = Some v →
  get_neighbors x g = Ret (vertex_get_neighbors v, g).
Proof.
  intros Hv. unfold get_neighbors, vertex_at. munfold. by rewrite Hv.
Qed.

Lemma base_get_neighbors b x :
  0 <= x < nodes b → base (get_neighbors x) b = Ret (neighbors b x, b).
Proof.
  intros Hx. destruct (at_index_is_Some (vlist (graph b)) x Hx) as [v Hv].
  unfold base, lift, neighbors. rewrite (get_neighbors_eq _ _ v) by done.
  by rewrite Hv, set_graph_id.
Qed.

(** *** Painting a vertex *)

Lemma nodes_paint x k b : nodes (paint x k b) = nodes b.
Proof. unfold nodes, paint. simpl. by rewrite length_alter. Qed.

Lemma label_paint x k b y :
  0 <= x < nodes b →
  label (paint x k b) y = if decide (y = x) then Some k else label b y.
Proof.
  intros Hx. unfold label, paint, at_index. simpl.
  destruct (Z.leb_spec 0 y) as [Hy|Hy].
  - case_decide as E.
    + subst. rewrite list_lookup_alter_eq.
      destruct (lookup_lt_is_Some_2 (vlist (graph b)) (Z.to_nat x)) as [v ->];
        [unfold nodes in Hx; lia | done].
    + rewrite list_lookup_alter_ne by lia. done.
  - case_decide; [lia | done].
Qed.

Lemma label_paint_eq x k b : 0 <= x < nodes b → label (paint x k b) x = Some k.
Proof. intros Hx. rewrite label_paint by done. by case_decide. Qed.

Lemma label_paint_ne x k b y : y ≠ x → 0 <= x → label (paint x k b) y = label b y.
Proof.
  intros Hne Hx. unfold label, paint, at_index. simpl.
  destruct (Z.leb_spec 0 y) as [Hy|Hy]; [|done].
  rewrite list_lookup_alter_ne by lia. done.
Qed.

Lemma edges_paint x k b : edges (paint x k b) = edges b.
Proof.
  unfold edges, paint. simpl. apply list_eq. intros i.
  rewrite !list_lookup_fmap.
  destruct (decide (i = Z.to_nat x)) as [->|Hne].
  - rewrite list_lookup_alter_eq. by destruct (vlist (graph b) !! Z.to_nat x).
  - by rewrite list_lookup_alter_ne.
Qed.

Lemma neighbors_edges b b' x : edges b = edges b' → neighbors b x = neighbors b' x.
Proof.
  intros E. unfold neighbors, at_index. destruct (0 <=? x); [|done].
  assert (elist <$> vlist (graph b) !! Z.to_nat x
          = elist <$> vlist (graph b') !! Z.to_nat x) as H.
  { rewrite <- !list_lookup_fmap. unfold edges in E. by rewrite E. }
  unfold vertex_get_neighbors.
  destruct (vlist (graph b) !! Z.to_nat x), (vlist (graph b') !! Z.to_nat x);
    simpl in *; congruence.
Qed.

Lemma neighbors_paint x k b y : neighbors (paint x k b) y = neighbors b y.
Proof. apply neighbors_edges, edges_paint. Qed.

Lemma dims_ok_paint x k b : dims_ok b → dims_ok (paint x k b).
Proof. intros [H1 H2 H3 H4 H5]. by split. Qed.

Lemma wf_board_paint x k b : wf_board b → wf_board (paint x k b).
Proof.
  intros [Hd Hn He]. split.
  - by apply dims_ok_paint.
  - by rewrite nodes_paint.
  - intros y z. rewrite neighbors_paint, nodes_paint. apply He.
Qed.

Lemma wf_board_with_turn t b : wf_board b → wf_board (with_turn t b).
Proof.
  intros [[H1 H2 H3 H4 H5] Hn He]. split; [by split | done | exact He].
Qed.

Lemma wf_nodes_fit b : wf_board b → nodes b < 2 ^ 32.
Proof. intros [[H1 H2 H3 H4 H5] Hn He]. lia. Qed.

(** *** The functors *)

Lemma transpose_abs ad row col :
  ad * ad < 2 ^ 32 → 0 <= row < ad → 0 <= col < ad →
  transpose (mkTranspose 0 0 ad) row col = Some (row * ad + col).
Proof.
  intros Hf Hr Hc. unfold transpose. simpl.
  assert (0 <= row * ad + col < ad * ad) by nia.
  rewrite !Z.add_0_r.
  rewrite (u32_small row) by nia. rewrite (u32_small col) by nia.
  rewrite (u32_small (row * ad)) by nia.
  rewrite (u32_small (row * ad + col)) by nia.
  rewrite (u32_small (ad * ad)) by nia.
  destruct (Z.leb_spec 0 (row * ad + col)); [|lia].
  destruct (Z.ltb_spec (row * ad + col) (ad * ad)); [done | lia].
Qed.

Lemma transpose_rel ad row col :
  ad * ad < 2 ^ 32 → 0 <= row < ad - 1 → 0 <= col < ad - 1 →
  transpose (mkTranspose 1 1 ad) row col = Some ((row + 1) * ad + (col + 1)).
Proof.
  intros Hf Hr Hc. unfold transpose. simpl.
  assert (0 <= (row + 1) * ad + (col + 1) < ad * ad) by nia.
  rewrite (u32_small (row + 1)) by nia. rewrite (u32_small (col + 1)) by nia.
  rewrite (u32_small ((row + 1) * ad)) by nia.
  rewrite (u32_small ((row + 1) * ad + (col + 1))) by nia.
  rewrite (u32_small (ad * ad)) by nia.
  destruct (Z.leb_spec 0 ((row + 1) * ad + (col + 1))); [|lia].
  destruct (Z.ltb_spec ((row + 1) * ad + (col + 1)) (ad * ad)); [done | lia].
Qed.

Lemma call_abs_pos_eq b row col :
  dims_ok b → 0 <= row < abs_dim b → 0 <= col < abs_dim b →
  call_abs_pos row col b = Ret (abs_index b row col, b).
Proof.
  intros [H1 H2 H3 H4 H5] Hr Hc. unfold call_abs_pos. munfold.
  rewrite H4, transpose_abs by done. done.
Qed.

Lemma call_rel_pos_eq b row col :
  dims_ok b → 0 <= row < rel_dim b → 0 <= col < rel_dim b →
  call_rel_pos row col b = Ret (rel_index b row col, b).
Proof.
  intros [H1 H2 H3 H4 H5] Hr Hc. unfold call_rel_pos. munfold.
  rewrite H5, transpose_rel by lia. done.
Qed.

(** ** The search of [is_victory] *)

Lemma count_false_replicate n : count_false (replicate n false) = n.
Proof. induction n as [|n IH]; simpl; [done | by rewrite IH]. Qed.

Lemma count_false_mark (l : list bool) i :
  l !! i = Some false →
  (count_false (<[i := true]> l) + 1 = count_false l)%nat.
Proof.
  revert i. induction l as [|f l IH]; intros [|i] H; simpl in *; try done.
  - injection H as ->. simpl. lia.
  - specialize (IH i H). lia.
Qed.

Lemma seen_mark visited p x :
  0 <= p < Z.of_nat (length visited) →
  seen (<[Z.to_nat p := true]> visited) x ↔ x = p ∨ seen visited x.
Proof.
  intros Hp. unfold seen. rewrite at_index_insert by done.
  case_decide as E; split.
  - by left.
  - done.
  - by right.
  - by intros [?|?].
Qed.

Section Search.
Variable b : HexBoard.
Variable sym : Color.
Variable src dst : vertID.
Hypothesis Hfit : nodes b < 2 ^ 32.
Hypothesis Hedges : ∀ x y, y ∈ neighbors b x → 0 <= y < nodes b.

Lemma scan_ok_nil visited stack : scan_ok b sym dst [] visited stack visited stack.
Proof.
  split; try done.
  - by intros ?%elem_of_nil.
  - by intros x ?%elem_of_nil.
  - by left.
  - by left.
  - by intros x ?%elem_of_nil.
Qed.

(** The head of the list was visited before. *)
Lemma scan_ok_skip p neigh visited stack visited' stack' :
  p ≠ dst → seen visited p →
  scan_ok b sym dst neigh visited stack visited' stack' →
  scan_ok b sym dst (p :: neigh) visited stack visited' stack'.
Proof.
  intros Hne Hp [S1 S2 S3 S4 S5 S6 S7 S8 S9]. split; try done.
  - intros [E|E]%elem_of_cons; [by subst | done].
  - intros x [->|E]%elem_of_cons; [by apply S4 | by apply S3].
  - intros x Hx. destruct (S5 x Hx); [by left | right; by right].
  - intros x Hx. destruct (S6 x Hx) as [?|[? ?]]; [by left|].
    right. split; [by right | done].
  - intros x [->|E]%elem_of_cons Hns Hl; [done | by apply S8].
Qed.

(** The head of the list is visited now; it is pushed when [push] holds. *)
Lemma scan_ok_mark (push : bool) p neigh visited stack visited' stack' :
  p ≠ dst → visited !! Z.to_nat p = Some false → 0 <= p →
  (if push then label b p = Some sym else label b p ≠ Some sym) →
  scan_ok b sym dst neigh (<[Z.to_nat p := true]> visited)
          (if push then p :: stack else stack) visited' stack' →
  scan_ok b sym dst (p :: neigh) visited stack visited' stack'.
Proof.
  intros Hne Hf Hp0 Hl [S1 S2 S3 S4 S5 S6 S7 S8 S9].
  pose proof (count_false_mark visited _ Hf) as Hcount.
  assert (Hp : 0 <= p < Z.of_nat (length visited)).
  { apply lookup_lt_Some in Hf. lia. }
  rewrite length_insert in S2.
  split; try done.
  - intros [E|E]%elem_of_cons; [by subst | done].
  - intros x [->|E]%elem_of_cons; [|by apply S3].
    apply S4, seen_mark; [done | by left].
  - intros x Hx. apply S4, seen_mark; [done | by right].
  - intros x Hx. destruct (S5 x Hx) as [[->|?]%seen_mark|?]; try done.
    + right. by left.
    + by left.
    + right. by right.
  - intros x Hx. destruct (S6 x Hx) as [Hin|[? ?]].
    + destruct push; [|by left].
      apply elem_of_cons in Hin as [->|?]; [|by left].
      right. split; [by left | done].
    + right. split; [by right | done].
  - intros x Hx. apply S7. destruct push; [by right | done].
  - intros x Hx Hns Hlx.
    assert (Hxp : x = p → x ∈ stack').
    { intros ->. destruct push; [|done]. apply S7. by left. }
    apply elem_of_cons in Hx as [->|E]; [by apply Hxp|].
    destruct (decide (x = p)) as [->|Hd]; [by apply Hxp|].
    apply S8; [done| |done].
    rewrite seen_mark by done. by intros [?|?].
  - destruct push; simpl in *; lia.
Qed.

Lemma scan_neighbors_spec neigh visited stack :
  Forall (λ p, 0 <= p < nodes b) neigh →
  Z.of_nat (length visited) = nodes b →
  ∃ r, scan_neighbors sym dst neigh visited stack b = Ret (r, b) ∧
       scan_post b sym dst neigh visited stack r.
Proof.
  intros Hneigh. revert visited stack.
  induction Hneigh as [|p neigh Hp Hneigh IH]; intros visited stack Hlen.
  - exists (Some (visited, stack)). split; [done | apply scan_ok_nil].
  - simpl. destruct (Z.eqb_spec p dst) as [->|Hne].
    { exists None. split; [done|]. simpl. by left. }
    destruct (at_index_is_Some visited p ltac:(lia)) as [f Hf].
    rewrite bind_unfold. unfold must at 1. rewrite Hf. munfold.
    destruct f; simpl.
    + destruct (IH visited stack Hlen) as (r & Hr & Hpost).
      exists r. split; [done|].
      destruct r as [[visited' stack']|]; simpl in *; [|by right].
      by apply scan_ok_skip.
    + destruct (label_is_Some b p Hp) as [k Hk].
      rewrite (base_get_vertex_key b p k) by done.
      assert (Hlen' : Z.of_nat (length (<[Z.to_nat p := true]> visited))
                      = nodes b) by (by rewrite length_insert).
      assert (Hfalse : visited !! Z.to_nat p = Some false).
      { unfold at_index in Hf. by destruct (0 <=? p). }
      case_decide as Ek.
      * destruct (IH (<[Z.to_nat p := true]> visited) (p :: stack) Hlen')
          as (r & Hr & Hpost).
        exists r. split; [done|].
        destruct r as [[visited' stack']|]; simpl in *; [|by right].
        apply (scan_ok_mark true); try done; [lia | by subst].
      * destruct (IH (<[Z.to_nat p := true]> visited) stack Hlen')
          as (r & Hr & Hpost).
        exists r. split; [done|].
        destruct r as [[visited' stack']|]; simpl in *; [|by right].
        apply (scan_ok_mark false); try done; [lia|].
        rewrite Hk. by intros [= ->].
Qed.

Hypothesis Hsrc : 0 <= src < nodes b.

Lemma reach_valid u : reach b sym src u → 0 <= u < nodes b.
Proof. intros [|u' v _ _ Hl]; [done | by eapply label_Some_valid]. Qed.

(** When the stack is empty, the popped vertices are all that can be
    reached, and none of them is next to [dst]. *)
Lemma search_inv_done popped visited u :
  search_inv b sym src dst popped visited [] →
  reach b sym src u → dst ∉ neighbors b u.
Proof.
  intros Hinv Hu Hdst.
  assert (Hall : ∀ v, reach b sym src v → popped v).
  { intros v Hv. induction Hv as [|u' v Hu' IHu Hv Hl].
    - destruct (inv_src _ _ _ _ _ _ _ Hinv) as [?|?%elem_of_nil]; done.
    - destruct (inv_popped _ _ _ _ _ _ _ Hinv u' IHu) as [_ Hn].
      destruct (Hn v Hv) as [_ Hs].
      destruct (inv_seen _ _ _ _ _ _ _ Hinv v Hs Hl) as [?|?%elem_of_nil]; done. }
  destruct (inv_popped _ _ _ _ _ _ _ Hinv u (Hall u Hu)) as [_ Hn].
  by destruct (Hn dst Hdst).
Qed.

(** One iteration keeps the invariant, with the popped vertex added. *)
Lemma search_inv_step popped visited top stack visited' stack' :
  search_inv b sym src dst popped visited (top :: stack) →
  scan_ok b sym dst (neighbors b top) visited stack visited' stack' →
  search_inv b sym src dst (λ x, x = top ∨ popped x) visited' stack'.
Proof.
  intros Hinv Hscan.
  assert (Htop : reach b sym src top).
  { apply (inv_stack _ _ _ _ _ _ _ Hinv). by left. }
  split.
  - rewrite (sc_length _ _ _ _ _ _ _ _ Hscan). apply (inv_length _ _ _ _ _ _ _ Hinv).
  - intros u Hu. destruct (sc_pushed _ _ _ _ _ _ _ _ Hscan u Hu) as [?|[Hn Hl]].
    + apply (inv_stack _ _ _ _ _ _ _ Hinv). by right.
    + by eapply reach_step.
  - intros u [->|Hu].
    + split; [done|]. intros v Hv. split.
      * intros ->. by apply (sc_dst _ _ _ _ _ _ _ _ Hscan).
      * by apply (sc_marked _ _ _ _ _ _ _ _ Hscan).
    + destruct (inv_popped _ _ _ _ _ _ _ Hinv u Hu) as [Hru Hn].
      split; [done|]. intros v Hv. destruct (Hn v Hv).
      split; [done | by apply (sc_mono _ _ _ _ _ _ _ _ Hscan)].
  - intros v Hs Hl.
    destruct (decide (v = top)) as [->|Hvt]; [left; by left|].
    destruct (decide (at_index visited v = Some true)) as [Hsv|Hnsv].
    + destruct (inv_seen _ _ _ _ _ _ _ Hinv v Hsv Hl) as [?|[->|?]%elem_of_cons].
      * left. by right.
      * done.
      * right. by apply (sc_kept _ _ _ _ _ _ _ _ Hscan).
    + right. destruct (sc_new _ _ _ _ _ _ _ _ Hscan v Hs) as [?|Hin]; [done|].
      by apply (sc_push _ _ _ _ _ _ _ _ Hscan).
  - destruct (inv_src _ _ _ _ _ _ _ Hinv) as [?|[->|?]%elem_of_cons].
    + left. by right.
    + left. by left.
    + right. by apply (sc_kept _ _ _ _ _ _ _ _ Hscan).
Qed.

(** With enough fuel the loop returns, leaves the board as it is, and
    answers whether [dst] is next to a vertex reached from [src]. *)
Lemma search_spec fuel popped visited stack :
  search_inv b sym src dst popped visited stack →
  (length stack + count_false visited ≤ fuel)%nat →
  ∃ r, search fuel sym dst visited stack b = Ret (r, b) ∧
       (r = true ↔ ∃ u, reach b sym src u ∧ dst ∈ neighbors b u).
Proof.
  revert popped visited stack.
  induction fuel as [|fuel IH]; intros popped visited stack Hinv Hfuel;
    destruct stack as [|top stack]; try (simpl in Hfuel; lia).
  - exists false. split; [done|]. split; [done|].
    intros (u & Hu & Hdst). by destruct (search_inv_done _ _ u Hinv Hu).
  - exists false. split; [done|]. split; [done|].
    intros (u & Hu & Hdst). by destruct (search_inv_done _ _ u Hinv Hu).
  - assert (Htop : reach b sym src top).
    { apply (inv_stack _ _ _ _ _ _ _ Hinv). by left. }
    pose proof (reach_valid top Htop) as Hvalid.
    simpl. rewrite bind_unfold, base_get_neighbors by done.
    assert (Hneigh : Forall (λ p, 0 <= p < nodes b) (neighbors b top)).
    { apply Forall_forall. intros p Hp. by eapply Hedges. }
    destruct (scan_neighbors_spec (neighbors b top) visited stack Hneigh
                (inv_length _ _ _ _ _ _ _ Hinv)) as (r & Hr & Hpost).
    rewrite bind_unfold, Hr.
    destruct r as [[visited' stack']|]; simpl in Hpost.
    + apply (IH (λ x, x = top ∨ popped x)).
      * by eapply search_inv_step.
      * pose proof (sc_measure _ _ _ _ _ _ _ _ Hpost). simpl in Hfuel. lia.
    + exists true. split; [done|]. split; [|done].
      intros _. by exists top.
Qed.

End Search.

(** ** [is_victory] *)

Lemma check_board_wf b : check_board b = true → wf_board b.
Proof.
  unfold check_board. rewrite !andb_true_iff.
  intros [[[[[[H1 H2] H3] H4] H5] H6] H7].
  apply Z.ltb_lt in H1, H3. apply Z.eqb_eq in H2, H6.
  apply bool_decide_eq_true in H4, H5.
  split; [by split | done |].
  intros x y. unfold neighbors.
  destruct (at_index (vlist (graph b)) x) as [v|] eqn:Ev; simpl;
    [|by intros ?%elem_of_nil].
  unfold vertex_get_neighbors. intros (e & -> & He)%list_elem_of_fmap.
  rewrite forallb_forall in H7.
  assert (Hv : In v (vlist (graph b))).
  { apply list_elem_of_In. unfold at_index in Ev.
    destruct (0 <=? x); [|done]. by eapply list_elem_of_lookup_2. }
  specialize (H7 v Hv). rewrite forallb_forall in H7.
  apply list_elem_of_In in He. specialize (H7 e He).
  apply andb_true_iff in H7 as [Ha Hb].
  apply Z.leb_le in Ha. apply Z.ltb_lt in Hb. done.
Qed.

Lemma is_path_snoc b l x y :
  last l = Some x → is_path b l → y ∈ neighbors b x → is_path b (l ++ [y]).
Proof.
  induction l as [|a l IH]; [done|].
  destruct l as [|a' l].
  - simpl. intros [= ->] _ Hy. done.
  - intros Hlast [Ha Hp] Hy. split; [done|]. by apply IH.
Qed.

(** A reached vertex is the end of a path from [src] through vertices of
    the colour. *)
Lemma reach_path b sym src u :
  reach b sym src u →
  ∃ mid, Forall (λ v, label b v = Some sym) mid ∧
         is_path b (src :: mid) ∧ last (src :: mid) = Some u.
Proof.
  induction 1 as [|u v Hu (mid & Hmid & Hp & Hlast) Hv Hl].
  - by exists [].
  - exists (mid ++ [v]). split; [|split].
    + apply Forall_app. split; [done | by apply Forall_singleton].
    + rewrite app_comm_cons. by eapply is_path_snoc.
    + rewrite app_comm_cons. by rewrite last_snoc.
Qed.

Lemma path_reach b sym src dst mid u :
  reach b sym src u →
  Forall (λ v, label b v = Some sym) mid →
  is_path b (u :: mid ++ [dst]) →
  ∃ u', reach b sym src u' ∧ dst ∈ neighbors b u'.
Proof.
  revert u. induction mid as [|v mid IH]; intros u Hu Hmid Hp.
  - simpl in Hp. destruct Hp as [Hd _]. by exists u.
  - apply Forall_cons in Hmid as [Hv Hmid].
    destruct Hp as [Hn Hp]. apply (IH v); [|done..].
    by eapply reach_step.
Qed.

Lemma reach_iff_path b sym src dst :
  (∃ u, reach b sym src u ∧ dst ∈ neighbors b u)
  ↔ colored_path b sym src dst.
Proof.
  split.
  - intros (u & Hu & Hd).
    destruct (reach_path _ _ _ _ Hu) as (mid & Hmid & Hp & Hlast).
    exists mid. split; [done|]. rewrite app_comm_cons.
    by eapply is_path_snoc.
  - intros (mid & Hmid & Hp). eapply path_reach; [apply reach_src | done..].
Qed.

Lemma source_valid b sym : wf_board b → 0 <= source b sym < nodes b.
Proof.
  intros [[H1 H2 H3 H4 H5] Hn _]. rewrite Hn. unfold source, abs_index.
  destruct sym; nia.
Qed.

Lemma call_source b sym :
  wf_board b →
  (if decide (sym = BLUE) then call_abs_pos 1 0 else call_abs_pos 0 1) b
  = Ret (source b sym, b).
Proof.
  intros [Hd Hn _]. pose proof Hd as [H1 H2 H3 H4 H5].
  destruct sym; simpl; rewrite call_abs_pos_eq by (done || lia); done.
Qed.

Lemma call_destination b sym :
  wf_board b →
  (if decide (sym = BLUE)
   then call_abs_pos (u32 (abs_dim b - 2)) (u32 (abs_dim b - 1))
   else call_abs_pos (u32 (abs_dim b - 1)) (u32 (abs_dim b - 2))) b
  = Ret (destination b sym, b).
Proof.
  intros [Hd Hn _]. pose proof Hd as [H1 H2 H3 H4 H5].
  rewrite !u32_small by nia.
  destruct sym; simpl; rewrite call_abs_pos_eq by (done || lia); done.
Qed.

(** With at least one unit of fuel more than there are vertices, the search
    of [is_victory] ends, changes nothing, and finds exactly the paths of
    the colour between the two anchors. *)
Lemma is_victory_fuel_spec fuel b sym :
  wf_board b →
  (S (length (vlist (graph b))) ≤ fuel)%nat →
  ∃ won, is_victory_fuel fuel sym b = Ret (won, b) ∧
         (won = true ↔
          colored_path b sym (source b sym) (destination b sym)).
Proof.
  intros Hwf Hfuel. pose proof (wf_nodes_fit b Hwf) as Hfit.
  unfold is_victory_fuel. rewrite bind_get_state.
  rewrite (bind_Ret _ _ _ _ _ (call_source b sym Hwf)).
  rewrite (bind_Ret _ _ _ _ _ (call_destination b sym Hwf)).
  rewrite (bind_Ret _ _ _ _ _ (base_get_nodes b Hfit)).
  setoid_rewrite <- reach_iff_path.
  apply (search_spec b sym (source b sym) (destination b sym) Hfit
           (wf_edges b Hwf) (source_valid b sym Hwf) fuel (λ _, False)).
  - split.
    + rewrite length_replicate. unfold nodes. lia.
    + intros u ->%list_elem_of_singleton. apply reach_src.
    + done.
    + intros v Hs. unfold seen, at_index in Hs.
      destruct (0 <=? v); [|done].
      apply lookup_replicate in Hs as [? _]. done.
    + right. by left.
  - rewrite count_false_replicate. unfold nodes. simpl. lia.
Qed.

Lemma is_victory_spec b sym :
  wf_board b →
  ∃ won, is_victory sym b = Ret (won, b) ∧
         (won = true ↔
          colored_path b sym (source b sym) (destination b sym)).
Proof.
  intros Hwf. unfold is_victory. rewrite bind_get_state.
  by apply is_victory_fuel_spec.
Qed.

(** More fuel than [is_victory] takes does not change its answer. *)
Lemma is_victory_fuel_enough fuel b sym :
  wf_board b →
  (S (length (vlist (graph b))) ≤ fuel)%nat →
  is_victory_fuel fuel sym b = is_victory sym b.
Proof.
  intros Hwf Hfuel.
  destruct (is_victory_fuel_spec fuel b sym Hwf Hfuel) as (w1 & -> & H1).
  destruct (is_victory_spec b sym Hwf) as (w2 & -> & H2).
  rewrite <- H2 in H1. do 2 f_equal.
  destruct w1, w2; try done.
  - symmetry. by apply H1.
  - by apply H1.
Qed.

(** [is_victory] writes nothing, on any board. *)
Lemma read_only_base_get_vertex_key x : read_only (base (get_vertex_key x)).
Proof.
  apply read_only_lift; [apply set_graph_id|].
  unfold get_vertex_key, validate_vertex, get_nodes, vertex_at.
  repeat first [ apply read_only_bind; [|intros ?] | apply read_only_get_state
               | apply read_only_ret | apply read_only_assert
               | apply read_only_must ].
Qed.

Lemma read_only_base_get_neighbors x : read_only (base (get_neighbors x)).
Proof.
  apply read_only_lift; [apply set_graph_id|].
  unfold get_neighbors, vertex_at.
  repeat first [ apply read_only_bind; [|intros ?] | apply read_only_get_state
               | apply read_only_ret | apply read_only_must ].
Qed.

Lemma read_only_base_get_nodes : read_only (base get_nodes).
Proof.
  apply read_only_lift; [apply set_graph_id|].
  unfold get_nodes.
  apply read_only_bind; [apply read_only_get_state | intros ?; apply read_only_ret].
Qed.

Lemma read_only_call_abs_pos row col : read_only (call_abs_pos row col).
Proof.
  unfold call_abs_pos.
  apply read_only_bind; [apply read_only_get_state | intros ?; apply read_only_must].
Qed.

Lemma read_only_scan_neighbors sym dst neigh visited stack :
  read_only (scan_neighbors sym dst neigh visited stack).
Proof.
  revert visited stack. induction neigh as [|p neigh IH]; intros visited stack.
  - apply read_only_ret.
  - simpl. destruct (p =? dst); [apply read_only_ret|].
    apply read_only_bind; [apply read_only_must|]. intros seen.
    destruct seen; simpl; [apply IH|].
    apply read_only_bind; [apply read_only_base_get_vertex_key|]. intros k.
    case_decide; apply IH.
Qed.

Lemma read_only_search fuel sym dst visited stack :
  read_only (search fuel sym dst visited stack).
Proof.
  revert visited stack. induction fuel as [|fuel IH]; intros visited stack;
    destruct stack as [|top stack]; simpl;
    try apply read_only_ret; try apply read_only_out_of_fuel.
  apply read_only_bind; [apply read_only_base_get_neighbors|]. intros neigh.
  apply read_only_bind; [apply read_only_scan_neighbors|].
  intros [[visited' stack']|]; [apply IH | apply read_only_ret].
Qed.

Lemma read_only_is_victory sym : read_only (is_victory sym).
Proof.
  unfold is_victory, is_victory_fuel.
  apply read_only_bind; [apply read_only_get_state|]. intros b.
  apply read_only_bind; [apply read_only_get_state|]. intros b'.
  apply read_only_bind; [case_decide; apply read_only_call_abs_pos|]. intros src.
  apply read_only_bind; [case_decide; apply read_only_call_abs_pos|]. intros dst.
  apply read_only_bind; [apply read_only_base_get_nodes|]. intros n.
  apply read_only_search.
Qed.

(** ** [play] *)

Lemma wf_rel_dim_small b : wf_board b → 2 < rel_dim b < 2 ^ 16.
Proof. intros [[H1 H2 H3 H4 H5] _ _]. nia. Qed.

Lemma rel_index_valid b row col :
  wf_board b → 0 <= row < rel_dim b → 0 <= col < rel_dim b →
  0 <= rel_index b row col < nodes b.
Proof.
  intros [[H1 H2 H3 H4 H5] Hn _] Hr Hc. rewrite Hn. unfold rel_index. nia.
Qed.

(** The test of [play] on the coordinates, after the casts to [vertID]. *)
Lemma play_range_test b rowi coli :
  wf_board b → is_int rowi → is_int coli →
  (0 <=? u32 rowi) && (0 <=? u32 coli)
  && (u32 rowi <? rel_dim b) && (u32 coli <? rel_dim b)
  = bool_decide (0 <= rowi < rel_dim b ∧ 0 <= coli < rel_dim b).
Proof.
  intros Hwf Hr Hc. pose proof (wf_rel_dim_small b Hwf) as Hd.
  pose proof (u32_range rowi) as Hur. pose proof (u32_range coli) as Huc.
  assert (Hrow : (u32 rowi <? rel_dim b) = bool_decide (0 <= rowi < rel_dim b)).
  { destruct (decide (rowi < 0)) as [Hneg|Hpos].
    - pose proof (u32_negative rowi Hr Hneg).
      rewrite bool_decide_eq_false_2 by lia. apply Z.ltb_ge. lia.
    - rewrite u32_small by (unfold is_int in Hr; lia).
      destruct (Z.ltb_spec rowi (rel_dim b)).
      + by rewrite bool_decide_eq_true_2 by lia.
      + by rewrite bool_decide_eq_false_2 by lia. }
  assert (Hcol : (u32 coli <? rel_dim b) = bool_decide (0 <= coli < rel_dim b)).
  { destruct (decide (coli < 0)) as [Hneg|Hpos].
    - pose proof (u32_negative coli Hc Hneg).
      rewrite bool_decide_eq_false_2 by lia. apply Z.ltb_ge. lia.
    - rewrite u32_small by (unfold is_int in Hc; lia).
      destruct (Z.ltb_spec coli (rel_dim b)).
      + by rewrite bool_decide_eq_true_2 by lia.
      + by rewrite bool_decide_eq_false_2 by lia. }
  rewrite Hrow, Hcol.
  replace (0 <=? u32 rowi) with true by (symmetry; apply Z.leb_le; lia).
  replace (0 <=? u32 coli) with true by (symmetry; apply Z.leb_le; lia).
  simpl. repeat case_bool_decide; try done; lia.
Qed.

Lemma play_out_of_bounds b rowi coli :
  wf_board b → is_int rowi → is_int coli →
  ¬ (0 <= rowi < rel_dim b ∧ 0 <= coli < rel_dim b) →
  play rowi coli b = Ret (OOB_ERROR, b).
Proof.
  intros Hwf Hr Hc Hout. unfold play. rewrite bind_get_state.
  rewrite play_range_test by done.
  by rewrite bool_decide_eq_false_2.
Qed.

(** The three outcomes of [play] on a cell of the playable area. *)
Lemma play_in_bounds b row col k :
  wf_board b → 0 <= row < rel_dim b → 0 <= col < rel_dim b →
  label b (rel_index b row col) = Some k →
  let c := if p1_turn b then BLUE else RED in
  let b1 := paint (rel_index b row col) c b in
  ∃ won, is_victory c b1 = Ret (won, b1) ∧
    play row col b =
      if decide (k = WHITE) then
        if won then Ret (if p1_turn b then P1_WIN else P2_WIN, b1)
        else Ret (NO_WIN, with_turn (negb (p1_turn b)) b1)
      else Ret (OCC_ERROR, b).
Proof.
  intros Hwf Hr Hc Hk c b1.
  pose proof (wf_rel_dim_small b Hwf) as Hd.
  pose proof (wf_nodes_fit b Hwf) as Hfit.
  pose proof (rel_index_valid b row col Hwf Hr Hc) as Hi.
  assert (Hwf1 : wf_board b1) by by apply wf_board_paint.
  destruct (is_victory_spec b1 c Hwf1) as (won & Hwon & _).
  exists won. split; [done|].
  unfold play. rewrite bind_get_state.
  rewrite play_range_test by (done || unfold is_int; lia).
  rewrite bool_decide_eq_true_2 by done. simpl.
  rewrite !u32_small by lia.
  rewrite (bind_Ret _ _ _ _ _ (call_rel_pos_eq b row col (wf_dims b Hwf) Hr Hc)).
  rewrite (bind_Ret _ _ _ _ _ (base_get_vertex_key b _ k Hfit Hk)).
  case_decide as Ek.
  - subst k. simpl.
    rewrite (bind_Ret _ _ _ _ _ (call_rel_pos_eq b row col (wf_dims b Hwf) Hr Hc)).
    rewrite bind_get_state.
    rewrite (bind_Ret _ _ _ _ _ (base_set_vertex_key b _ _ Hfit Hi)).
    fold c. fold b1.
    assert (Hsym : get_current_player_symbol b1 = Ret (c, b1)) by done.
    rewrite (bind_Ret _ _ _ _ _ Hsym).
    rewrite (bind_Ret _ _ _ _ _ Hwon).
    rewrite bind_get_state.
    destruct won; done.
  - rewrite bool_decide_eq_false_2 by done. done.
Qed.

(** ** Edges of a graph *)

Section GraphEdges.
Context {vtype etype : Type}.
Implicit Types (g : Graph vtype etype) (v : Vertex vtype etype).
Implicit Types (l : list (Edge etype)).

Lemma find_from_ge i l n : i <= find_from i l n ∨ find_from i l n = -1.
Proof.
  revert i. induction l as [|e l IH]; intros i; simpl; [by right|].
  destruct (neigh e =? n); [left; lia|].
  destruct (IH (i + 1)) as [?|?]; [left; lia | by right].
Qed.

(** [find] answers with the place of the first edge to [n]. *)
Lemma find_from_found i l n :
  0 <= i → n ∈ neigh <$> l →
  ∃ k e, find_from i l n = i + Z.of_nat k ∧ l !! k = Some e ∧ neigh e = n ∧
         ∀ j e', (j < k)%nat → l !! j = Some e' → neigh e' ≠ n.
Proof.
  revert i. induction l as [|e l IH]; intros i Hi Hin; simpl in *.
  { by apply elem_of_nil in Hin. }
  destruct (Z.eqb_spec (neigh e) n) as [E|E].
  - exists 0%nat, e. split_and!; [lia | done | done | intros; lia].
  - apply elem_of_cons in Hin as [?|Hin]; [congruence|].
    destruct (IH (i + 1) ltac:(lia) Hin) as (k & e' & Hk & He' & Hn & Hfirst).
    exists (S k), e'. split_and!; [lia | done | done |].
    intros [|j] e'' Hj Hl; simpl in Hl.
    + by injection Hl as <-.
    + eapply Hfirst; [|done]. lia.
Qed.

Lemma find_from_missing i l n : n ∉ neigh <$> l → find_from i l n = -1.
Proof.
  revert i. induction l as [|e l IH]; intros i Hin; simpl in *; [done|].
  destruct (Z.eqb_spec (neigh e) n) as [E|E].
  - exfalso. apply Hin. rewrite E. by left.
  - apply IH. intros ?. apply Hin. by right.
Qed.

Lemma vertex_is_adjacent_spec v n :
  vertex_is_adjacent v n = bool_decide (n ∈ vertex_get_neighbors v).
Proof.
  unfold vertex_is_adjacent, find, vertex_get_neighbors.
  case_bool_decide as Hin.
  - destruct (find_from_found 0 (elist v) n ltac:(done) Hin)
      as (k & e & -> & _). apply Z.leb_le. lia.
  - by rewrite find_from_missing.
Qed.

Lemma gneighbors_valid g x y :
  y ∈ gneighbors g x → 0 <= x < Z.of_nat (length (vlist g)).
Proof.
  unfold gneighbors. destruct (at_index _ x) as [v|] eqn:E.
  - intros _. by apply at_index_Some in E.
  - simpl. by intros ?%elem_of_nil.
Qed.

Lemma at_index_alter {A} (f : A → A) (l : list A) x y :
  0 <= x →
  at_index (alter f (Z.to_nat x) l) y
  = if decide (y = x) then f <$> at_index l y else at_index l y.
Proof.
  intros Hx. unfold at_index. destruct (Z.leb_spec 0 y) as [Hy|Hy].
  - case_decide as E.
    + subst. apply list_lookup_alter_eq.
    + apply list_lookup_alter_ne. lia.
  - by case_decide.
Qed.

Lemma validate_vertex_eq g x :
  Z.of_nat (length (vlist g)) < 2 ^ 32 →
  x < Z.of_nat (length (vlist g)) →
  validate_vertex x g = Ret (tt, g).
Proof.
  intros Hn Hx. unfold validate_vertex, get_nodes, assert. munfold.
  rewrite u32_small by lia.
  by destruct (Z.ltb_spec x (Z.of_nat (length (vlist g)))); [|lia].
Qed.

Lemma validate_vertices_eq g x y :
  Z.of_nat (length (vlist g)) < 2 ^ 32 →
  x < Z.of_nat (length (vlist g)) → y < Z.of_nat (length (vlist g)) →
  validate_vertices x y g = Ret (tt, g).
Proof.
  intros Hn Hx Hy. unfold validate_vertices.
  rewrite (bind_Ret _ _ _ _ _ (validate_vertex_eq g x Hn Hx)).
  by apply validate_vertex_eq.
Qed.

Lemma vertex_at_eq g x v :
  at_index (vlist g) x = Some v → vertex_at x g = Ret (v, g).
Proof. intros Hv. unfold vertex_at. munfold. by rewrite Hv. Qed.

Lemma is_adjacent_eq g x y :
  Z.of_nat (length (vlist g)) < 2 ^ 32 →
  0 <= x < Z.of_nat (length (vlist g)) → y < Z.of_nat (length (vlist g)) →
  is_adjacent x y g = Ret (bool_decide (y ∈ gneighbors g x), g).
Proof.
  intros Hn Hx Hy. unfold is_adjacent.
  rewrite (bind_Ret _ _ _ _ _ (validate_vertices_eq g x y Hn (proj2 Hx) Hy)).
  destruct (at_index_is_Some (vlist g) x Hx) as [v Hv].
  rewrite (bind_Ret _ _ _ _ _ (vertex_at_eq g x v Hv)).
  unfold gneighbors. rewrite Hv. simpl.
  by rewrite vertex_is_adjacent_spec.
Qed.

Lemma insert_alter {A} (f : A → A) (l : list A) i a :
  l !! i = Some a → <[i := f a]> l = alter f i l.
Proof.
  intros Ha. apply list_eq. intros j. destruct (decide (j = i)) as [->|Hne].
  - rewrite list_lookup_insert_eq by (by eapply lookup_lt_Some).
    by rewrite list_lookup_alter_eq, Ha.
  - by rewrite list_lookup_insert_ne, list_lookup_alter_ne.
Qed.

Lemma put_vertex_alter g x v (f : Vertex vtype etype → Vertex vtype etype) :
  at_index (vlist g) x = Some v →
  put_vertex x (f v) g
  = Ret (tt, {| nedges := nedges g; vlist := alter f (Z.to_nat x) (vlist g) |}).
Proof.
  intros Hv. unfold put_vertex. munfold. do 3 f_equal.
  apply insert_alter. unfold at_index in Hv. by destruct (0 <=? x).
Qed.

(** [add_edge] of an edge that is not there. *)
Lemma add_edge_new g x y w :
  Z.of_nat (length (vlist g)) < 2 ^ 32 →
  0 <= x < Z.of_nat (length (vlist g)) →
  0 <= y < Z.of_nat (length (vlist g)) →
  y ∉ gneighbors g x →
  add_edge x y w g = Ret (tt, with_new_edge x y w g).
Proof.
  intros Hn Hx Hy Hnew. unfold add_edge.
  rewrite (bind_Ret _ _ _ _ _ (validate_vertices_eq g x y Hn (proj2 Hx) (proj2 Hy))).
  rewrite (bind_Ret _ _ _ _ _ (is_adjacent_eq g x y Hn Hx (proj2 Hy))).
  rewrite bool_decide_eq_false_2 by done. simpl.
  destruct (at_index_is_Some (vlist g) x Hx) as [vx Hvx].
  rewrite (bind_Ret _ _ _ _ _ (vertex_at_eq g x vx Hvx)).
  rewrite (bind_Ret _ _ _ _ _ (put_vertex_alter g x vx (add y w) Hvx)).
  set (g1 := {| nedges := nedges g;
                vlist := alter (add y w) (Z.to_nat x) (vlist g) |}).
  assert (Hy1 : 0 <= y < Z.of_nat (length (vlist g1))).
  { unfold g1. simpl. by rewrite length_alter. }
  destruct (at_index_is_Some (vlist g1) y Hy1) as [vy Hvy].
  rewrite (bind_Ret _ _ _ _ _ (vertex_at_eq g1 y vy Hvy)).
  rewrite (bind_Ret _ _ _ _ _ (put_vertex_alter g1 y vy (add x w) Hvy)).
  done.
Qed.

Lemma set_weight_reweigh v n w :
  n ∈ vertex_get_neighbors v → set_weight n w v = Some (reweigh n w v).
Proof.
  intros Hin. unfold set_weight, reweigh.
  pose proof (vertex_is_adjacent_spec v n) as Ha.
  rewrite bool_decide_eq_true_2 in Ha by done.
  unfold vertex_is_adjacent in Ha. by rewrite Ha.
Qed.

Lemma neighbors_reweigh v n w :
  vertex_get_neighbors (reweigh n w v) = vertex_get_neighbors v.
Proof.
  unfold vertex_get_neighbors, reweigh. simpl.
  apply list_eq. intros i. rewrite !list_lookup_fmap.
  destruct (decide (i = Z.to_nat (find v n))) as [->|Hne].
  - rewrite list_lookup_alter_eq. by destruct (elist v !! _).
  - by rewrite list_lookup_alter_ne.
Qed.

(** [add_edge] of an edge that both ends already have. *)
Lemma add_edge_old g x y w :
  Z.of_nat (length (vlist g)) < 2 ^ 32 →
  y ∈ gneighbors g x → x ∈ gneighbors g y →
  add_edge x y w g = Ret (tt, with_new_weight x y w g).
Proof.
  intros Hn Hyx Hxy.
  pose proof (gneighbors_valid _ _ _ Hyx) as Hx.
  pose proof (gneighbors_valid _ _ _ Hxy) as Hy.
  unfold add_edge.
  rewrite (bind_Ret _ _ _ _ _ (validate_vertices_eq g x y Hn (proj2 Hx) (proj2 Hy))).
  rewrite (bind_Ret _ _ _ _ _ (is_adjacent_eq g x y Hn Hx (proj2 Hy))).
  rewrite bool_decide_eq_true_2 by done. simpl.
  unfold set_edge_weight.
  rewrite (bind_Ret _ _ _ _ _ (validate_vertices_eq g x y Hn (proj2 Hx) (proj2 Hy))).
  destruct (at_index_is_Some (vlist g) x Hx) as [vx Hvx].
  rewrite (bind_Ret _ _ _ _ _ (vertex_at_eq g x vx Hvx)).
  assert (Hinx : y ∈ vertex_get_neighbors vx).
  { unfold gneighbors in Hyx. by rewrite Hvx in Hyx. }
  rewrite (set_weight_reweigh vx y w Hinx).
  assert (Hm : ∀ (a : Vertex vtype etype) (s : Graph vtype etype),
            must (Some a) s = Ret (a, s)) by done.
  rewrite (bind_Ret _ _ _ _ _ (Hm _ _)).
  rewrite (bind_Ret _ _ _ _ _ (put_vertex_alter g x vx (reweigh y w) Hvx)).
  set (g1 := {| nedges := nedges g;
                vlist := alter (reweigh y w) (Z.to_nat x) (vlist g) |}).
  assert (Hy1 : 0 <= y < Z.of_nat (length (vlist g1))).
  { unfold g1. simpl. by rewrite length_alter. }
  destruct (at_index_is_Some (vlist g1) y Hy1) as [vy Hvy].
  rewrite (bind_Ret _ _ _ _ _ (vertex_at_eq g1 y vy Hvy)).
  assert (Hiny : x ∈ vertex_get_neighbors vy).
  { unfold g1 in Hvy. simpl in Hvy. rewrite at_index_alter in Hvy by lia.
    unfold gneighbors in Hxy. case_decide as E.
    - subst y. rewrite Hvx in Hvy. injection Hvy as <-.
      by rewrite neighbors_reweigh.
    - by rewrite Hvy in Hxy. }
  rewrite (set_weight_reweigh vy x w Hiny).
  rewrite (bind_Ret _ _ _ _ _ (Hm _ _)).
  rewrite (put_vertex_alter g1 y vy (reweigh x w) Hvy).
  done.
Qed.

End GraphEdges.

(** ** Inserting an edge twice *)

Section AddEdgeTwice.
Context {vtype etype : Type}.
Implicit Types (g : Graph vtype etype) (v : Vertex vtype etype).
Implicit Types (l : list (Edge etype)).

Lemma leads_to_nil l (y : vertID) :
  filter (λ e, neigh e = y) l = [] ↔ y ∉ neigh <$> l.
Proof.
  induction l as [|e l IH]; simpl.
  - split; [|done]. by intros _ ?%elem_of_nil.
  - rewrite filter_cons. case_decide as E.
    + split; [done|]. intros Hn. exfalso. apply Hn. rewrite E. by left.
    + rewrite IH. split.
      * intros Hn [?|?]%elem_of_cons; [congruence | done].
      * intros Hn ?. apply Hn. by right.
Qed.

Lemma edges_to_nil_iff g x y : edges_to g x y = [] ↔ y ∉ gneighbors g x.
Proof.
  unfold edges_to, gneighbors, vertex_get_neighbors.
  destruct (at_index (vlist g) x) as [v|]; simpl.
  - apply leads_to_nil.
  - split; [|done]. by intros _ ?%elem_of_nil.
Qed.

Lemma edges_to_new_edge_l g x y w :
  x ≠ y → 0 <= x < Z.of_nat (length (vlist g)) → 0 <= y →
  edges_to (with_new_edge x y w g) x y = edges_to g x y ++ [mkEdge y w].
Proof.
  intros Hne Hx Hy. unfold edges_to, with_new_edge. simpl.
  rewrite !at_index_alter by lia.
  rewrite decide_False by done. rewrite decide_True by done.
  destruct (at_index_is_Some (vlist g) x Hx) as [v ->]. simpl.
  rewrite filter_app, filter_cons, decide_True by done. done.
Qed.

Lemma edges_to_new_edge_r g x y w :
  x ≠ y → 0 <= y < Z.of_nat (length (vlist g)) → 0 <= x →
  edges_to (with_new_edge x y w g) y x = edges_to g y x ++ [mkEdge x w].
Proof.
  intros Hne Hy Hx. unfold edges_to, with_new_edge. simpl.
  rewrite !at_index_alter by lia.
  rewrite decide_True by done. rewrite decide_False by done.
  destruct (at_index_is_Some (vlist g) y Hy) as [v ->]. simpl.
  rewrite filter_app, filter_cons, decide_True by done. done.
Qed.

(** Changing the weight of the only edge to [y], found by [find]. *)
Lemma leads_to_alter l (y : vertID) (w : etype) k e0 e :
  l !! k = Some e0 → neigh e0 = y →
  filter (λ e', neigh e' = y) l = [e] →
  filter (λ e', neigh e' = y) (alter (λ e', mkEdge (neigh e') w) k l)
  = [mkEdge y w].
Proof.
  revert k. induction l as [|a l IH]; intros [|k] Hk Hy Hone; simpl in *;
    try done.
  - injection Hk as ->. rewrite filter_cons, decide_True in Hone by done.
    injection Hone as -> Hnil.
    rewrite filter_cons, decide_True by done. by rewrite Hnil, Hy.
  - rewrite filter_cons in Hone. rewrite filter_cons. simpl.
    case_decide as Ea.
    + injection Hone as -> Hnil. exfalso.
      apply leads_to_nil in Hnil. apply Hnil.
      apply list_elem_of_fmap. exists e0. split; [done|].
      by eapply list_elem_of_lookup_2.
    + by apply IH.
Qed.

Lemma leads_to_reweigh v (y : vertID) (w : etype) e :
  filter (λ e', neigh e' = y) (elist v) = [e] →
  filter (λ e', neigh e' = y) (elist (reweigh y w v)) = [mkEdge y w].
Proof.
  intros Hone. unfold reweigh. simpl.
  assert (Hin : y ∈ neigh <$> elist v).
  { destruct (decide (y ∈ neigh <$> elist v)) as [?|Hn]; [done|].
    apply leads_to_nil in Hn. by rewrite Hn in Hone. }
  destruct (find_from_found 0 (elist v) y ltac:(done) Hin)
    as (k & e0 & Hk & He0 & Hy & _).
  unfold find. rewrite Hk. replace (Z.to_nat (0 + Z.of_nat k)) with k by lia.
  by eapply leads_to_alter.
Qed.

Lemma edges_to_new_weight_l g x y w e :
  x ≠ y → 0 <= x → 0 <= y →
  edges_to g x y = [e] →
  edges_to (with_new_weight x y w g) x y = [mkEdge y w].
Proof.
  intros Hne Hx Hy. unfold edges_to, with_new_weight. simpl.
  rewrite !at_index_alter by lia.
  rewrite decide_False by done. rewrite decide_True by done.
  destruct (at_index (vlist g) x) as [v|]; simpl; [|done].
  apply leads_to_reweigh.
Qed.

Lemma edges_to_new_weight_r g x y w e :
  x ≠ y → 0 <= x → 0 <= y →
  edges_to g y x = [e] →
  edges_to (with_new_weight x y w g) y x = [mkEdge x w].
Proof.
  intros Hne Hx Hy. unfold edges_to, with_new_weight. simpl.
  rewrite !at_index_alter by lia.
  rewrite decide_True by done. rewrite decide_False by done.
  destruct (at_index (vlist g) y) as [v|]; simpl; [|done].
  apply leads_to_reweigh.
Qed.

Lemma get_edge_weight_eq g x y w :
  Z.of_nat (length (vlist g)) < 2 ^ 32 →
  y < Z.of_nat (length (vlist g)) →
  edges_to g x y = [mkEdge y w] →
  get_edge_weight x y g = Ret (w, g).
Proof.
  intros Hn Hy Hone. unfold edges_to in Hone.
  destruct (at_index (vlist g) x) as [v|] eqn:Ev; simpl in Hone; [|done].
  pose proof (at_index_Some _ _ _ Ev) as Hx.
  unfold get_edge_weight.
  rewrite (bind_Ret _ _ _ _ _ (validate_vertices_eq g x y Hn (proj2 Hx) Hy)).
  rewrite (bind_Ret _ _ _ _ _ (vertex_at_eq g x v Ev)).
  assert (Hin : y ∈ neigh <$> elist v).
  { destruct (decide (y ∈ neigh <$> elist v)) as [?|Hn']; [done|].
    apply leads_to_nil in Hn'. by rewrite Hn' in Hone. }
  destruct (find_from_found 0 (elist v) y ltac:(done) Hin)
    as (k & e0 & Hk & He0 & Hy0 & _).
  unfold get_weight, find. rewrite Hk.
  replace (0 <=? 0 + Z.of_nat k) with true by (symmetry; apply Z.leb_le; lia).
  replace (Z.to_nat (0 + Z.of_nat k)) with k by lia.
  rewrite He0. simpl.
  assert (He : e0 ∈ filter (λ e', neigh e' = y) (elist v)).
  { apply list_elem_of_filter. split; [done|]. by eapply list_elem_of_lookup_2. }
  rewrite Hone in He. apply list_elem_of_singleton in He as ->. done.
Qed.

Lemma length_with_new_edge g x y w :
  length (vlist (with_new_edge x y w g)) = length (vlist g).
Proof. unfold with_new_edge. simpl. by rewrite !length_alter. Qed.

Lemma length_with_new_weight g x y w :
  length (vlist (with_new_weight x y w g)) = length (vlist g).
Proof. unfold with_new_weight. simpl. by rewrite !length_alter. Qed.

(** The second of two insertions of an edge that both ends hold once. *)
Lemma add_edge_again g x y w e e' :
  Z.of_nat (length (vlist g)) < 2 ^ 32 →
  0 <= x < Z.of_nat (length (vlist g)) →
  0 <= y < Z.of_nat (length (vlist g)) →
  x ≠ y →
  edges_to g x y = [e] → edges_to g y x = [e'] →
  ∃ g', add_edge x y w g = Ret (tt, g') ∧
        length (vlist g') = length (vlist g) ∧
        nedges g' = nedges g ∧
        edges_to g' x y = [mkEdge y w] ∧
        edges_to g' y x = [mkEdge x w].
Proof.
  intros Hn Hx Hy Hne Hl Hr.
  exists (with_new_weight x y w g). split_and!.
  - apply add_edge_old; [done| |].
    + destruct (decide (y ∈ gneighbors g x)) as [?|Hnot]; [done|].
      apply edges_to_nil_iff in Hnot. by rewrite Hnot in Hl.
    + destruct (decide (x ∈ gneighbors g y)) as [?|Hnot]; [done|].
      apply edges_to_nil_iff in Hnot. by rewrite Hnot in Hr.
  - apply length_with_new_weight.
  - done.
  - eapply edges_to_new_weight_l; [done | lia | lia | done].
  - eapply edges_to_new_weight_r; [done | lia | lia | done].
Qed.

End AddEdgeTwice.

(** ** The edges added by [reset_board] *)

Lemma neighbors_gneighbors b x : neighbors b x = gneighbors (graph b) x.
Proof. done. Qed.

Lemma abs_index_inj ad r c r' c' :
  0 <= c < ad → 0 <= c' < ad → r * ad + c = r' * ad + c' → r = r' ∧ c = c'.
Proof. intros Hc Hc' E. assert (r = r') by nia. subst. lia. Qed.

(** The neighbours after an edge is added between two distinct vertices. *)
Lemma base_add_edge b x y w :
  nodes b < 2 ^ 32 → 0 <= x < nodes b → 0 <= y < nodes b → x ≠ y →
  simple b →
  ∃ b', base (add_edge x y w) b = Ret (tt, b') ∧
        abs_dim b' = abs_dim b ∧ rel_dim b' = rel_dim b ∧
        abs_pos b' = abs_pos b ∧ rel_pos b' = rel_pos b ∧
        p1_turn b' = p1_turn b ∧ nodes b' = nodes b ∧
        (∀ z, label b' z = label b z) ∧
        (∀ z, neighbors b' z =
              if decide (y ∈ neighbors b x) then neighbors b z
              else if decide (z = x) then neighbors b x ++ [y]
              else if decide (z = y) then neighbors b y ++ [x]
              else neighbors b z).
Proof.
  intros Hn Hx Hy Hne [Hnd Hsym Hval]. unfold base, lift.
  destruct (decide (y ∈ neighbors b x)) as [Hin|Hnot].
  - rewrite (add_edge_old (graph b) x y w Hn Hin (Hsym _ _ Hin)).
    eexists. split; [done|]. split_and!; try done.
    + unfold nodes. simpl. by rewrite !length_alter.
    + intros z. unfold label. simpl. rewrite !at_index_alter by lia.
      repeat case_decide; destruct (at_index (vlist (graph b)) z); done.
    + intros z. unfold neighbors. simpl. rewrite !at_index_alter by lia.
      repeat case_decide; destruct (at_index (vlist (graph b)) z); simpl;
        by rewrite ?neighbors_reweigh.
  - rewrite (add_edge_new (graph b) x y w Hn Hx Hy Hnot).
    eexists. split; [done|]. split_and!; try done.
    + unfold nodes. simpl. by rewrite !length_alter.
    + intros z. unfold label. simpl. rewrite !at_index_alter by lia.
      repeat case_decide; destruct (at_index (vlist (graph b)) z); done.
    + intros z. unfold neighbors. simpl. rewrite !at_index_alter by lia.
      repeat case_decide; subst; try done.
      * destruct (at_index_is_Some (vlist (graph b)) y Hy) as [v ->]. simpl.
        unfold vertex_get_neighbors. simpl. by rewrite fmap_app.
      * destruct (at_index_is_Some (vlist (graph b)) x Hx) as [v ->]. simpl.
        unfold vertex_get_neighbors. simpl. by rewrite fmap_app.
Qed.

Lemma adds_link_abs ad r1 c1 r2 c2 :
  0 <= r1 < ad → 0 <= c1 < ad → 0 <= r2 < ad → 0 <= c2 < ad →
  (r1, c1) ≠ (r2, c2) →
  adds ad (link_abs r1 c1 r2 c2)
       (λ x y, x = r1 * ad + c1 ∧ y = r2 * ad + c2).
Proof.
  intros Hr1 Hc1 Hr2 Hc2 Hne b [Hd Had Hn Hs].
  pose proof Hd as [D1 D2 D3 D4 D5]. subst ad.
  assert (Hfit : nodes b < 2 ^ 32) by lia.
  set (x := r1 * abs_dim b + c1). set (y := r2 * abs_dim b + c2).
  assert (Hx : 0 <= x < nodes b) by (unfold x; nia).
  assert (Hy : 0 <= y < nodes b) by (unfold y; nia).
  assert (Hxy : x ≠ y).
  { intros E. apply abs_index_inj in E as [-> ->]; done. }
  destruct (base_add_edge b x y 1 Hfit Hx Hy Hxy Hs)
    as (b' & Hb' & E1 & E2 & E3 & E4 & E5 & E6 & Hlab & Hnb).
  exists tt, b'. split.
  { unfold link_abs.
    rewrite (bind_Ret _ _ _ _ _ (call_abs_pos_eq b r1 c1 Hd Hr1 Hc1)).
    rewrite (bind_Ret _ _ _ _ _ (call_abs_pos_eq b r2 c2 Hd Hr2 Hc2)).
    done. }
  destruct Hs as [Hnd Hsym Hval].
  assert (Hedges : ∀ u v, v ∈ neighbors b' u ↔
            v ∈ neighbors b u ∨ (u = x ∧ v = y) ∨ (v = x ∧ u = y)).
  { intros u v. rewrite Hnb. repeat case_decide; subst.
    - split; [by left|]. intros [?|[[-> ->]|[-> ->]]]; [done..|by apply Hsym].
    - rewrite elem_of_app, list_elem_of_singleton. naive_solver.
    - rewrite elem_of_app, list_elem_of_singleton. naive_solver.
    - naive_solver. }
  split.
  - split.
    + split; congruence.
    + done.
    + by rewrite E6.
    + split.
      * intros u. rewrite Hnb. repeat case_decide; subst; try apply Hnd.
        -- apply NoDup_app. split_and!; [apply Hnd| |apply NoDup_singleton].
           intros v Hv ->%list_elem_of_singleton. done.
        -- apply NoDup_app. split_and!; [apply Hnd| |apply NoDup_singleton].
           intros v Hv ->%list_elem_of_singleton.
           by apply Hsym in Hv.
      * intros u v. rewrite !Hedges. intros [?|[[-> ->]|[-> ->]]].
        -- left. by apply Hsym.
        -- right. by right.
        -- right. by left.
      * intros u v. rewrite E6, Hedges. intros [?|[[-> ->]|[-> ->]]];
          [by eapply Hval | done | done].
  - split; [done..|]. intros u v. rewrite Hedges. naive_solver.
Qed.

Lemma adds_mono ad m (L L' : vertID → vertID → Prop) :
  adds ad m L → (∀ x y, L x y ↔ L' x y) → adds ad m L'.
Proof.
  intros Hm HL b Hb. eapply wp_mono; [by apply Hm|].
  intros [] b' [Hb' [H1 H2 H3 H4]]. split; [done|]. split; [done..|].
  intros x y. rewrite H4, !HL. done.
Qed.

Lemma adds_skip ad : adds ad (mret tt) (λ _ _, False).
Proof.
  intros b Hb. apply wp_ret. split; [done|]. split; [done..|]. naive_solver.
Qed.

Lemma adds_seq ad m1 m2 (L1 L2 : vertID → vertID → Prop) :
  adds ad m1 L1 → adds ad m2 L2 →
  adds ad (m1;; m2) (λ x y, L1 x y ∨ L2 x y).
Proof.
  intros H1 H2 b Hb. apply wp_bind.
  eapply wp_mono; [by apply H1|]. intros [] b1 [Hb1 [A1 A2 A3 A4]].
  eapply wp_mono; [by apply H2|]. intros [] b2 [Hb2 [B1 B2 B3 B4]].
  split; [done|]. split; [intros; congruence..|].
  intros x y. rewrite B4, A4. naive_solver.
Qed.

Lemma adds_when ad (c : bool) m (L : vertID → vertID → Prop) :
  (c = true → adds ad m L) →
  adds ad (when c m) (λ x y, c = true ∧ L x y).
Proof.
  intros Hm. destruct c; simpl.
  - eapply adds_mono; [by apply Hm|]. naive_solver.
  - eapply adds_mono; [apply adds_skip|]. naive_solver.
Qed.

Lemma adds_for_range ad (body : Z → M HexBoard unit)
    (L : Z → vertID → vertID → Prop) n i :
  (∀ j, i <= j < i + Z.of_nat n → adds ad (body j) (L j)) →
  adds ad (for_range i n body)
       (λ x y, ∃ j, i <= j < i + Z.of_nat n ∧ L j x y).
Proof.
  revert i. induction n as [|n IH]; intros i Hbody.
  - eapply adds_mono; [apply adds_skip|].
    intros x y. split; [done|]. intros (j & ? & _). lia.
  - simpl for_range. eapply adds_mono.
    + apply adds_seq; [apply Hbody; lia|].
      apply IH. intros j Hj. apply Hbody. lia.
    + intros x y. split.
      * intros [?|(j & ? & ?)]; [exists i | exists j]; split; (lia || done).
      * intros (j & Hj & HL). destruct (decide (j = i)) as [->|?];
          [by left | right; exists j; split; (lia || done)].
Qed.

Lemma adds_for_upto ad (body : Z → M HexBoard unit)
    (L : Z → vertID → vertID → Prop) bound :
  0 <= bound →
  (∀ j, 0 <= j < bound → adds ad (body j) (L j)) →
  adds ad (for_upto bound body) (λ x y, ∃ j, 0 <= j < bound ∧ L j x y).
Proof.
  intros Hb Hbody. unfold for_upto. eapply adds_mono.
  - apply adds_for_range. intros j Hj. apply Hbody. lia.
  - intros x y. split; intros (j & Hj & HL); exists j; split; (lia || done).
Qed.

(** ** [reset_board] *)

(** *** The vertices *)

Lemma base_add_vertex b k :
  base (add_vertex k) b
  = Ret (tt, set_graph {| nedges := nedges (graph b);
                          vlist := vlist (graph b) ++ [mkVertex k []] |} b).
Proof. done. Qed.

Lemma add_vertices b n :
  vlist (graph b) = [] →
  wp (for_range 0 n (λ _, base (add_vertex WHITE))) b
     (λ _ b', vlist (graph b') = replicate n (mkVertex WHITE []) ∧
              abs_dim b' = abs_dim b ∧ rel_dim b' = rel_dim b ∧
              abs_pos b' = abs_pos b ∧ rel_pos b' = rel_pos b).
Proof.
  intros Hnil.
  apply (wp_for_range
    (λ k b', vlist (graph b') = replicate k (mkVertex WHITE []) ∧
             abs_dim b' = abs_dim b ∧ rel_dim b' = rel_dim b ∧
             abs_pos b' = abs_pos b ∧ rel_pos b' = rel_pos b)).
  - done.
  - intros k b' Hk (Hv & H1 & H2 & H3 & H4).
    unfold wp. eexists tt, _. split; [apply base_add_vertex|]. simpl.
    rewrite Hv. split_and!; try done.
    symmetry. apply (replicate_S_end k).
Qed.

Lemma painting_blank ad b :
  dims_ok b → abs_dim b = ad →
  vlist (graph b) = replicate (Z.to_nat (ad * ad)) (mkVertex WHITE []) →
  painting ad b ∧
  ∀ x, 0 <= x < ad * ad → label b x = Some WHITE.
Proof.
  intros Hd Had Hv. pose proof Hd as [D1 D2 D3 D4 D5].
  assert (Hn : nodes b = ad * ad).
  { unfold nodes. rewrite Hv, length_replicate. nia. }
  split; [split; try done|].
  - intros x. unfold neighbors, at_index. rewrite Hv.
    destruct (0 <=? x); [|done].
    destruct (replicate _ _ !! Z.to_nat x) as [v|] eqn:E; [|done].
    apply lookup_replicate in E as [-> _]. done.
  - intros x Hx. unfold label, at_index. rewrite Hv.
    destruct (Z.leb_spec 0 x); [|lia].
    rewrite lookup_replicate_2 by lia. done.
Qed.

(** *** The colours *)

Lemma painting_paint ad x k b : painting ad b → painting ad (paint x k b).
Proof.
  intros [Hd Ha Hn He]. split.
  - by apply dims_ok_paint.
  - done.
  - by rewrite nodes_paint.
  - intros y. by rewrite neighbors_paint.
Qed.

Lemma paint_abs_eq ad b row col k :
  painting ad b → 0 <= row < ad → 0 <= col < ad →
  paint_abs row col k b = Ret (tt, paint (row * ad + col) k b).
Proof.
  intros [Hd Ha Hn He] Hr Hc. subst ad. pose proof Hd as [D1 D2 D3 D4 D5].
  unfold paint_abs.
  rewrite (bind_Ret _ _ _ _ _ (call_abs_pos_eq b row col Hd Hr Hc)).
  apply base_set_vertex_key; [lia|]. unfold abs_index. rewrite Hn.
  assert (row * abs_dim b <= (abs_dim b - 1) * abs_dim b) by nia. nia.
Qed.

Lemma label_paint_abs ad b row col k r c :
  painting ad b → 0 <= row < ad → 0 <= col < ad → 0 <= c < ad →
  label (paint (row * ad + col) k b) (r * ad + c)
  = if decide (r = row ∧ c = col) then Some k else label b (r * ad + c).
Proof.
  intros [Hd Ha Hn He] Hr Hc Hc'.
  assert (0 <= row * ad + col < nodes b).
  { rewrite Hn. assert (row * ad <= (ad - 1) * ad) by nia. nia. }
  rewrite label_paint by done.
  case_decide as E1; case_decide as E2; try done.
  - exfalso. apply (abs_index_inj ad r c row col) in E1; [done | lia..].
  - exfalso. destruct E2 as [-> ->]. done.
Qed.

Lemma painted_0 ad row col :
  0 <= row → 0 <= col → painted ad 0 row col = WHITE.
Proof. intros Hr Hc. unfold painted. repeat case_decide; done || lia. Qed.

Lemma painted_all ad row col :
  0 <= row < ad → 0 <= col < ad →
  painted ad ad row col = initial_color ad row col.
Proof.
  intros Hr Hc. unfold painted, initial_color.
  repeat case_decide; done || lia.
Qed.

Lemma paint_step_spec ad k b :
  2 < ad → ad * ad < 2 ^ 32 → 0 <= k < ad →
  painting ad b →
  (∀ row col, 0 <= row < ad → 0 <= col < ad →
     label b (row * ad + col) = Some (painted ad k row col)) →
  wp (paint_step ad k) b (λ _ b',
    painting ad b' ∧ rel_dim b' = rel_dim b ∧
    ∀ row col, 0 <= row < ad → 0 <= col < ad →
      label b' (row * ad + col) = Some (painted ad (k + 1) row col)).
Proof.
  intros Had Hfit Hk Hb Hlab. unfold paint_step.
  rewrite !u32_small by nia.
  set (b1 := paint (0 * ad + k) RED b).
  set (b2 := paint ((ad - 1) * ad + k) RED b1).
  set (b3 := paint (k * ad + 0) BLUE b2).
  set (b4 := paint (k * ad + (ad - 1)) BLUE b3).
  set (b5 := paint (0 * ad + 0) GRAY b4).
  set (b6 := paint (0 * ad + (ad - 1)) GRAY b5).
  set (b7 := paint ((ad - 1) * ad + 0) GRAY b6).
  set (b8 := paint ((ad - 1) * ad + (ad - 1)) GRAY b7).
  assert (Hb1 : painting ad b1) by by apply painting_paint.
  assert (Hb2 : painting ad b2) by by apply painting_paint.
  assert (Hb3 : painting ad b3) by by apply painting_paint.
  assert (Hb4 : painting ad b4) by by apply painting_paint.
  assert (Hb5 : painting ad b5) by by apply painting_paint.
  assert (Hb6 : painting ad b6) by by apply painting_paint.
  assert (Hb7 : painting ad b7) by by apply painting_paint.
  assert (Hb8 : painting ad b8) by by apply painting_paint.
  exists tt, b8. split.
  { rewrite (bind_Ret _ _ _ _ _ (paint_abs_eq ad b 0 k RED Hb ltac:(lia) Hk)).
    rewrite (bind_Ret _ _ _ _ _ (paint_abs_eq ad b1 (ad - 1) k RED Hb1 ltac:(lia) Hk)).
    rewrite (bind_Ret _ _ _ _ _ (paint_abs_eq ad b2 k 0 BLUE Hb2 Hk ltac:(lia))).
    rewrite (bind_Ret _ _ _ _ _ (paint_abs_eq ad b3 k (ad - 1) BLUE Hb3 Hk ltac:(lia))).
    rewrite (bind_Ret _ _ _ _ _ (paint_abs_eq ad b4 0 0 GRAY Hb4 ltac:(lia) ltac:(lia))).
    rewrite (bind_Ret _ _ _ _ _ (paint_abs_eq ad b5 0 (ad - 1) GRAY Hb5 ltac:(lia) ltac:(lia))).
    rewrite (bind_Ret _ _ _ _ _ (paint_abs_eq ad b6 (ad - 1) 0 GRAY Hb6 ltac:(lia) ltac:(lia))).
    apply (paint_abs_eq ad b7 (ad - 1) (ad - 1) GRAY Hb7); lia. }
  split; [done|]. split; [done|].
  intros row col Hr Hc. unfold b8, b7, b6, b5, b4, b3, b2, b1.
  rewrite !(label_paint_abs ad) by
    (repeat apply painting_paint; done || lia).
  rewrite Hlab by done. unfold painted, is_corner.
  repeat case_decide; try done; exfalso; lia.
Qed.

(** *** The edges *)

Section Linking.
Variable ad : Z.
Hypothesis Had : 2 < ad.
Hypothesis Hfit : ad * ad < 2 ^ 32.

Lemma adds_link_cell row col :
  0 <= row < ad → 0 <= col < ad →
  adds ad (link_cell ad row col)
    (λ x y, x = row * ad + col ∧
            ((col < ad - 1 ∧ y = row * ad + (col + 1)) ∨
             (row < ad - 1 ∧ y = (row + 1) * ad + col) ∨
             (0 < col ∧ row < ad - 1 ∧ y = (row + 1) * ad + (col - 1)))).
Proof.
  intros Hr Hc. unfold link_cell. rewrite (u32_small (ad - 1)) by nia.
  eapply adds_mono.
  - apply adds_seq; [|apply adds_seq]; apply adds_when.
    + intros Hlt%Z.ltb_lt. rewrite u32_small by nia.
      apply adds_link_abs; [lia..|]. intros [=]. lia.
    + intros Hlt%Z.ltb_lt. rewrite u32_small by nia.
      apply adds_link_abs; [lia..|]. intros [=]. lia.
    + intros [H0%Z.ltb_lt Hlt%Z.ltb_lt]%andb_true_iff.
      rewrite !u32_small by nia.
      apply adds_link_abs; [lia..|]. intros [=]. lia.
  - intros x y. simpl. rewrite andb_true_iff, !Z.ltb_lt. tauto.
Qed.

Lemma adds_link_row row :
  0 <= row < ad →
  adds ad (link_row ad row)
    (λ x y, ∃ col, 0 <= col < ad ∧ x = row * ad + col ∧
            ((col < ad - 1 ∧ y = row * ad + (col + 1)) ∨
             (row < ad - 1 ∧ y = (row + 1) * ad + col) ∨
             (0 < col ∧ row < ad - 1 ∧ y = (row + 1) * ad + (col - 1)))).
Proof.
  intros Hr. unfold link_row. rewrite (u32_small (ad - 1)) by nia.
  eapply adds_mono.
  - apply adds_seq.
    + apply adds_for_upto; [lia|]. intros col Hc. by apply adds_link_cell.
    + apply adds_when. intros Hlt%Z.ltb_lt. rewrite u32_small by nia.
      apply adds_link_abs; [lia..|]. intros [=]. lia.
  - intros x y. simpl. rewrite Z.ltb_lt. split.
    + intros [(col & Hc & Hx & Hy)|(Hlt & Hx & Hy)].
      * by exists col.
      * exists (ad - 1). split; [lia|]. split; [done|]. right. left. done.
    + intros (col & Hc & Hx & Hy). left. by exists col.
Qed.

Lemma adds_link_rows :
  adds ad (for_upto ad (link_row ad)) (hex_link ad).
Proof.
  eapply adds_mono.
  - apply adds_for_upto; [lia|]. intros row Hr. by apply adds_link_row.
  - intros x y. simpl. unfold hex_link, hex_step. split.
    + intros (row & Hr & col & Hc & Hx & [(H1 & Hy)|[(H1 & Hy)|(H1 & H2 & Hy)]]).
      * exists row, col, row, (col + 1). split_and!; try done; lia.
      * exists row, col, (row + 1), col. split_and!; try done; lia.
      * exists row, col, (row + 1), (col - 1). split_and!; try done; lia.
    + intros (r & c & r' & c' & Hr & Hc & Hr' & Hc' & Hx & Hy & Hs).
      exists r. split; [done|]. exists c. split; [done|]. split; [done|].
      destruct Hs as [[-> ->]|[[-> ->]|[-> ->]]].
      * left. split; [lia | done].
      * right. left. split; [lia | done].
      * right. right. split_and!; [lia | lia | done].
Qed.

End Linking.

(** *** The whole of [reset_board] *)

Lemma painting_building ad b : painting ad b → building ad b.
Proof.
  intros [Hd Ha Hn He]. split; try done. split.
  - intros x. rewrite He. apply NoDup_nil_2.
  - intros x y. rewrite He. by intros ?%elem_of_nil.
  - intros x y. rewrite He. by intros ?%elem_of_nil.
Qed.

Lemma reset_board_spec b :
  dims_ok b →
  wp reset_board b (λ _ b',
    fresh_board (abs_dim b) b' ∧ rel_dim b' = rel_dim b).
Proof.
  intros Hd. pose proof Hd as [D1 D2 D3 D4 D5].
  set (ad := abs_dim b). assert (Had : 2 < ad) by (unfold ad; lia).
  unfold reset_board.
  (* clear *)
  apply wp_bind. unfold wp at 1. eexists tt, _. split; [done|].
  apply wp_bind, wp_get_state. cbn [abs_dim set_graph]. fold ad.
  rewrite (u32_small (ad * ad)) by nia.
  (* the vertices *)
  apply wp_bind. eapply wp_mono; [by apply add_vertices|].
  intros [] b1 (Hv & E1 & E2 & E3 & E4). simpl in E1, E2, E3, E4.
  assert (Hd1 : dims_ok b1) by (split; congruence).
  destruct (painting_blank ad b1 Hd1 E1 Hv) as [Hp1 Hlab1].
  (* the colours *)
  apply wp_bind. eapply wp_mono.
  { apply (wp_for_upto (λ k b',
      painting ad b' ∧ rel_dim b' = rel_dim b ∧
      ∀ row col, 0 <= row < ad → 0 <= col < ad →
        label b' (row * ad + col) = Some (painted ad k row col)));
      [lia | |].
    - split; [done|]. split; [done|]. intros row col Hr Hc.
      rewrite painted_0 by lia. apply Hlab1.
      assert (row * ad <= (ad - 1) * ad) by nia. nia.
    - intros k b' Hk (Hp & Hrel & Hlab).
      eapply wp_mono; [by apply paint_step_spec|].
      intros [] b'' (Hp' & Hrel' & Hlab'). split; [done|].
      split; [congruence | done]. }
  intros [] b2 (Hp2 & Hrel2 & Hlab2).
  (* the edges *)
  apply wp_bind. eapply wp_mono.
  { apply (adds_link_rows ad Had D3). by apply painting_building. }
  intros [] b3 ([Hd3 Ha3 Hn3 [Hnd Hsym Hval]] & [L1 L2 L3 L4]).
  (* the turn *)
  unfold wp. eexists tt, _. split; [done|].
  pose proof Hd3 as [F1 F2 F3 F4 F5].
  split; [split|].
  - apply (wf_board_with_turn true b3).
    split; [done | by rewrite Ha3 | exact Hval].
  - done.
  - done.
  - intros row col Hr Hc.
    change (label (with_turn true b3) (row * ad + col)
            = Some (initial_color ad row col)).
    unfold label. simpl. fold (label b3 (row * ad + col)).
    rewrite L1, Hlab2 by done. by rewrite painted_all.
  - exact Hnd.
  - intros x y. change (y ∈ neighbors b3 x ↔ hex_link ad x y ∨ hex_link ad y x).
    rewrite L4. destruct Hp2 as [_ _ _ He]. rewrite He.
    split; [intros [?%elem_of_nil|?]; done | by right].
  - simpl. congruence.
Qed.

(** ** New boards and the margins *)

Lemma new_HexBoard_spec d :
  2 < d → (d + 2) * (d + 2) < 2 ^ 32 →
  ∃ b, new_HexBoard d = Ret b ∧ fresh_board (d + 2) b ∧ rel_dim b = d.
Proof.
  intros Hd Hfit. unfold new_HexBoard.
  assert (Hu0 : u32 d = d) by (apply u32_small; nia). rewrite Hu0.
  set (b0 := {| graph := empty_graph; abs_dim := u32 (d + 2); rel_dim := d;
                abs_pos := mkTranspose 0 0 (u32 (d + 2));
                rel_pos := mkTranspose 1 1 (u32 (d + 2));
                p1_turn := true |}).
  assert (Hu : u32 (d + 2) = d + 2) by (apply u32_small; nia).
  assert (Hd0 : dims_ok b0).
  { unfold b0. split; simpl; rewrite ?Hu; done. }
  destruct (reset_board_spec b0 Hd0) as ([] & b & Hb & Hfresh & Hrel).
  exists b. split.
  - cbv zeta. fold b0. rewrite bind_unfold.
    replace (2 <? rel_dim b0) with true by (symmetry; by apply Z.ltb_lt).
    simpl. by rewrite Hb.
  - split; [|done]. by rewrite <- Hu.
Qed.

Lemma fresh_board_margins ad b : fresh_board ad b → margins_colored b.
Proof.
  intros [Hwf Ha Ht Hl Hn He]. pose proof Hwf as [[D1 D2 D3 D4 D5] _ _].
  split; intros row col; unfold abs_index; rewrite Ha.
  - intros Hc. rewrite Hl by (unfold is_corner in Hc; lia).
    unfold initial_color. by rewrite decide_True.
  - intros Hr Hc. rewrite Hl by lia. unfold initial_color, is_corner.
    repeat case_decide; done || lia.
  - intros Hc Hr. rewrite Hl by lia. unfold initial_color, is_corner.
    repeat case_decide; done || lia.
Qed.

(** A cell of the playable area is no cell of the margin. *)
Lemma margins_paint b row col k :
  wf_board b → 0 <= row < rel_dim b → 0 <= col < rel_dim b →
  margins_colored b → margins_colored (paint (rel_index b row col) k b).
Proof.
  intros Hwf Hr Hc [M1 M2 M3].
  pose proof Hwf as [[D1 D2 D3 D4 D5] _ _].
  assert (Hne : ∀ r c, 0 <= c < abs_dim b →
            (r = 0 ∨ r = abs_dim b - 1 ∨ c = 0 ∨ c = abs_dim b - 1) →
            abs_index b r c ≠ rel_index b row col).
  { intros r c Hc' Hm E. unfold abs_index, rel_index in E.
    apply abs_index_inj in E; lia. }
  assert (Hpos : 0 <= rel_index b row col) by (unfold rel_index; nia).
  split; intros r c; unfold abs_index; simpl; fold (abs_index b r c).
  - intros Hcor. rewrite label_paint_ne; [by apply M1| |done].
    apply Hne; unfold is_corner in Hcor; lia.
  - intros Hrow Hcol. rewrite label_paint_ne; [by apply M2| |done].
    apply Hne; lia.
  - intros Hcol Hrow. rewrite label_paint_ne; [by apply M3| |done].
    apply Hne; lia.
Qed.

Lemma margins_with_turn t b :
  margins_colored b → margins_colored (with_turn t b).
Proof. intros [M1 M2 M3]. by split. Qed.

(** One call of [play] returns, and keeps the invariant of the class and the
    colours of the margins. *)
Lemma play_preserves b rowi coli :
  wf_board b → is_int rowi → is_int coli → margins_colored b →
  wp (play rowi coli) b (λ _ b', wf_board b' ∧ margins_colored b').
Proof.
  intros Hwf Hr Hc Hm.
  destruct (decide (0 <= rowi < rel_dim b ∧ 0 <= coli < rel_dim b))
    as [[Hr' Hc']|Hout].
  - destruct (label_is_Some b _ (rel_index_valid b rowi coli Hwf Hr' Hc'))
      as [k Hk].
    destruct (play_in_bounds b rowi coli k Hwf Hr' Hc' Hk) as (won & _ & Hp).
    unfold wp. rewrite Hp.
    case_decide; [destruct won|]; eexists _, _; (split; [done|]).
    + split; [by apply wf_board_paint | by apply margins_paint].
    + split; [by apply wf_board_with_turn, wf_board_paint|].
      by apply margins_with_turn, margins_paint.
    + done.
  - unfold wp. rewrite play_out_of_bounds by done. by eexists _, _.
Qed.

Lemma plays_preserve moves b :
  Forall (λ m, is_int m.1 ∧ is_int m.2) moves →
  wf_board b → margins_colored b →
  wp (plays moves) b (λ _ b', wf_board b' ∧ margins_colored b').
Proof.
  intros Hmoves. revert b.
  induction Hmoves as [|[row col] moves [Hr Hc] _ IH]; intros b Hwf Hm.
  - by apply wp_ret.
  - simpl. apply wp_bind.
    eapply wp_mono; [by apply play_preserves|].
    intros o b' [Hwf' Hm']. apply wp_bind.
    eapply wp_mono; [by apply IH|].
    intros os b'' [Hwf'' Hm'']. by apply wp_ret.
Qed.

(** *** The neighbours of a cell of the playable area *)

Lemma fresh_board_around ad b row col :
  fresh_board ad b → 0 < row < ad - 1 → 0 < col < ad - 1 →
  neighbors b (abs_index b row col) ≡ₚ around b row col.
Proof.
  intros [Hwf Ha Ht Hl Hn He] Hr Hc.
  pose proof Hwf as [[D1 D2 D3 D4 D5] _ _].
  apply NoDup_Permutation; [apply Hn| |].
  - unfold around, abs_index. rewrite Ha.
    repeat (apply NoDup_cons; split;
            [rewrite ?elem_of_cons, elem_of_nil; intros E;
             repeat (destruct E as [E|E];
                     [apply abs_index_inj in E; lia|]); done|]).
    apply NoDup_nil_2.
  - intros y. rewrite He. unfold around, abs_index. rewrite Ha.
    rewrite !elem_of_cons, elem_of_nil. unfold hex_link, hex_step. split.
    + intros [(r & c & r' & c' & R & C & R' & C' & Ex & -> & Hs)
             |(r & c & r' & c' & R & C & R' & C' & -> & Ex & Hs)];
        apply abs_index_inj in Ex as [<- <-]; try lia;
        destruct Hs as [[-> ->]|[[-> ->]|[-> ->]]];
        repeat first [ left; lia | right ].
    + intros [->|[->|[->|[->|[->|[->|[]]]]]]].
      * right. exists row, (col - 1), row, col. split_and!; lia.
      * left. exists row, col, row, (col + 1). split_and!; lia.
      * right. exists (row - 1), col, row, col. split_and!; lia.
      * left. exists row, col, (row + 1), col. split_and!; lia.
      * left. exists row, col, (row + 1), (col - 1). split_and!; lia.
      * right. exists (row - 1), (col + 1), row, col. split_and!; lia.
Qed.

(** Every board of a game satisfies the invariant of the class, and has the
    colours of its margins. *)
Lemma game_board_wf b : game_board b → wf_board b ∧ margins_colored b.
Proof.
  induction 1 as [d b Hd Hfit Hnew|b row col o b' _ [Hwf Hm] Hr Hc Hplay
                  |b b' _ [Hwf Hm] Hreset].
  - destruct (new_HexBoard_spec d Hd Hfit) as (b0 & Hb0 & Hfresh & _).
    rewrite Hnew in Hb0. injection Hb0 as <-.
    split; [apply (fresh_wf _ _ Hfresh) | by eapply fresh_board_margins].
  - destruct (play_preserves b row col Hwf Hr Hc Hm)
      as (o' & b0 & Hb0 & Hwf' & Hm').
    rewrite Hplay in Hb0. by injection Hb0 as <- <-.
  - destruct (reset_board_spec b (wf_dims _ Hwf)) as ([] & b0 & Hb0 & Hfresh & _).
    rewrite Hreset in Hb0. injection Hb0 as <-.
    split; [apply (fresh_wf _ _ Hfresh) | by eapply fresh_board_margins].
Qed.

(** ** A diagonal of one colour *)

Lemma paint_cells_spec cells k b :
  wf_board b → margins_colored b →
  Forall (λ cell, 0 <= cell.1 < rel_dim b ∧ 0 <= cell.2 < rel_dim b) cells →
  let b' := paint_cells cells k b in
  wf_board b' ∧ margins_colored b' ∧ abs_dim b' = abs_dim b ∧
  (∀ x, neighbors b' x = neighbors b x) ∧
  (∀ cell, cell ∈ cells → label b' (rel_index b cell.1 cell.2) = Some k).
Proof.
  intros Hwf Hm Hcells.
  induction Hcells as [|[row col] cells [Hr Hc] _ IH]; simpl in *.
  - split_and!; try done. by intros cell ?%elem_of_nil.
  - destruct IH as (Hwf' & Hm' & Ha & Hn & Hl).
    set (b' := paint_cells cells k b) in *.
    assert (Hrel : rel_dim b' = rel_dim b).
    { pose proof Hwf as [[D1 D2 D3 D4 D5] _ _].
      pose proof Hwf' as [[E1 E2 E3 E4 E5] _ _]. lia. }
    assert (Hidx : rel_index b row col = rel_index b' row col).
    { unfold rel_index. by rewrite Ha. }
    pose proof (rel_index_valid b' row col Hwf' ltac:(lia) ltac:(lia)) as Hv.
    split_and!.
    + by apply wf_board_paint.
    + rewrite Hidx. apply margins_paint; (done || lia).
    + done.
    + intros x. by rewrite neighbors_paint.
    + intros cell [->|Hin]%elem_of_cons; simpl.
      * apply label_paint_eq. by rewrite Hidx.
      * rewrite label_paint by (by rewrite Hidx).
        case_decide; [done | by apply Hl].
Qed.

Section Diagonal.
Variable ad : Z.
Variable b0 : HexBoard.
Hypothesis Hfresh : fresh_board ad b0.

Lemma diagonal_facts :
  4 < ad ∧ rel_dim b0 = ad - 2 ∧
  wf_board (diagonal_board b0) ∧ abs_dim (diagonal_board b0) = ad ∧
  (∀ r, 0 < r < ad - 1 →
        label (diagonal_board b0) (r * ad + 0) = Some BLUE) ∧
  (∀ r, 0 < r < ad - 1 →
        label (diagonal_board b0) (r * ad + (ad - 1)) = Some BLUE) ∧
  (∀ i, 0 <= i < ad - 2 →
        label (diagonal_board b0) ((ad - 2 - i) * ad + (1 + i))
        = Some BLUE) ∧
  (∀ x y, hex_link ad x y → y ∈ neighbors (diagonal_board b0) x) ∧
  (∀ x y, hex_link ad x y → x ∈ neighbors (diagonal_board b0) y).
Proof.
  set (b1 := diagonal_board b0).
  pose proof Hfresh as [Hwf Ha Ht Hl Hn He].
  pose proof Hwf as [[D1 D2 D3 D4 D5] _ _].
  pose proof (fresh_board_margins ad b0 Hfresh) as Hm.
  assert (Hcells : Forall (λ cell, 0 <= cell.1 < rel_dim b0
                                   ∧ 0 <= cell.2 < rel_dim b0)
                          (hex_diagonal (rel_dim b0))).
  { apply Forall_forall. intros cell (i & -> & Hi)%list_elem_of_fmap.
    apply elem_of_seqZ in Hi. simpl. lia. }
  destruct (paint_cells_spec _ BLUE b0 Hwf Hm Hcells)
    as (Hwf1 & [M1 M2 M3] & Ha1 & Hn1 & Hl1).
  fold (diagonal_board b0) in Hwf1, M1, M2, M3, Ha1, Hn1, Hl1.
  fold b1 in Hwf1, M1, M2, M3, Ha1, Hn1, Hl1.
  split_and!; try done; try lia.
  - intros r Hr. specialize (M3 r 0). unfold abs_index in M3.
    rewrite Ha1, Ha in M3. apply M3; lia.
  - intros r Hr. specialize (M3 r (ad - 1)). unfold abs_index in M3.
    rewrite Ha1, Ha in M3. apply M3; lia.
  - intros i Hi.
    specialize (Hl1 (ad - 3 - i, i)). unfold rel_index in Hl1.
    simpl in Hl1. rewrite Ha in Hl1.
    replace ((ad - 2 - i) * ad + (1 + i))
      with ((ad - 3 - i + 1) * ad + (i + 1)) by lia.
    apply Hl1. apply list_elem_of_fmap. exists (ad - 3 - i). split.
    + f_equal. lia.
    + apply elem_of_seqZ. lia.
  - intros x y Hxy. rewrite Hn1, He. by left.
  - intros x y Hxy. rewrite Hn1, He. by right.
Qed.

Lemma diagonal_reach :
  ∃ u, reach (diagonal_board b0) BLUE (source (diagonal_board b0) BLUE) u ∧
       destination (diagonal_board b0) BLUE ∈ neighbors (diagonal_board b0) u.
Proof.
  destruct diagonal_facts as (Had & Hrel & Hwf1 & Ha1 & Hleft & Hright
                              & Hdiag & Hlink & Hback).
  set (b1 := diagonal_board b0) in *.
  unfold source, destination, abs_index. rewrite Ha1.
  set (src := 1 * ad + 0).
  (* down the left margin *)
  assert (R1 : ∀ k, (Z.of_nat k < ad - 2) →
            reach b1 BLUE src ((1 + Z.of_nat k) * ad + 0)).
  { induction k as [|k IH]; intros Hk.
    - apply reach_src.
    - eapply reach_step; [apply IH; lia| |apply Hleft; lia].
      apply Hlink. exists (1 + Z.of_nat k), 0, (1 + Z.of_nat (S k)), 0.
      unfold hex_step. split_and!; lia. }
  (* onto the diagonal, at the bottom *)
  assert (R2 : reach b1 BLUE src ((ad - 2) * ad + 1)).
  { eapply reach_step.
    - specialize (R1 (Z.to_nat (ad - 3)) ltac:(lia)).
      replace (1 + Z.of_nat (Z.to_nat (ad - 3))) with (ad - 2) in R1 by lia.
      exact R1.
    - apply Hlink. exists (ad - 2), 0, (ad - 2), 1.
      unfold hex_step. split_and!; lia.
    - specialize (Hdiag 0 ltac:(lia)).
      by replace ((ad - 2 - 0) * ad + (1 + 0)) with ((ad - 2) * ad + 1)
        in Hdiag by lia. }
  (* up the diagonal *)
  assert (R3 : ∀ k, (Z.of_nat k < ad - 2) →
            reach b1 BLUE src ((ad - 2 - Z.of_nat k) * ad + (1 + Z.of_nat k))).
  { induction k as [|k IH]; intros Hk.
    - by replace ((ad - 2 - Z.of_nat 0) * ad + (1 + Z.of_nat 0))
        with ((ad - 2) * ad + 1) by lia.
    - eapply reach_step; [apply IH; lia| |apply Hdiag; lia].
      apply Hback.
      exists (ad - 2 - Z.of_nat (S k)), (1 + Z.of_nat (S k)),
             (ad - 2 - Z.of_nat k), (1 + Z.of_nat k).
      unfold hex_step. split_and!; lia. }
  (* onto the right margin, at the top *)
  assert (R4 : reach b1 BLUE src (1 * ad + (ad - 1))).
  { eapply reach_step.
    - specialize (R3 (Z.to_nat (ad - 3)) ltac:(lia)).
      replace (ad - 2 - Z.of_nat (Z.to_nat (ad - 3))) with 1 in R3 by lia.
      replace (1 + Z.of_nat (Z.to_nat (ad - 3))) with (ad - 2) in R3 by lia.
      exact R3.
    - apply Hlink. exists 1, (ad - 2), 1, (ad - 1).
      unfold hex_step. split_and!; lia.
    - apply Hright. lia. }
  (* down the right margin *)
  assert (R5 : ∀ k, (Z.of_nat k < ad - 2) →
            reach b1 BLUE src ((1 + Z.of_nat k) * ad + (ad - 1))).
  { induction k as [|k IH]; intros Hk.
    - exact R4.
    - eapply reach_step; [apply IH; lia| |apply Hright; lia].
      apply Hlink.
      exists (1 + Z.of_nat k), (ad - 1), (1 + Z.of_nat (S k)), (ad - 1).
      unfold hex_step. split_and!; lia. }
  exists ((ad - 3) * ad + (ad - 1)). split.
  - specialize (R5 (Z.to_nat (ad - 4)) ltac:(lia)).
    by replace (1 + Z.of_nat (Z.to_nat (ad - 4))) with (ad - 3) in R5 by lia.
  - apply Hlink. exists (ad - 3), (ad - 1), (ad - 2), (ad - 1).
    unfold hex_step. split_and!; lia.
Qed.

Lemma diagonal_victory :
  is_victory BLUE (diagonal_board b0) = Ret (true, diagonal_board b0).
Proof.
  destruct diagonal_facts as (_ & _ & Hwf1 & _).
  destruct (is_victory_spec _ BLUE Hwf1) as (won & Hwon & Hiff).
  rewrite Hwon. do 2 f_equal. apply Hiff, reach_iff_path, diagonal_reach.
Qed.

End Diagonal.

Lemma diagonal_labels ad b0 :
  fresh_board ad b0 →
  let b1 := diagonal_board b0 in
  ∀ row col, 0 <= row < rel_dim b0 → 0 <= col < rel_dim b0 →
    label b1 (rel_index b1 row col)
    = Some (if decide (row + col = rel_dim b0 - 1) then BLUE else WHITE).
Proof.
  intros Hfresh b1 row col Hr Hc.
  pose proof Hfresh as [Hwf Ha Ht Hl Hn He].
  pose proof Hwf as [[D1 D2 D3 D4 D5] _ _].
  assert (Hgen : ∀ cells,
    Forall (λ cell, 0 <= cell.1 < rel_dim b0 ∧ 0 <= cell.2 < rel_dim b0)
           cells →
    abs_dim (paint_cells cells BLUE b0) = abs_dim b0 ∧
    nodes (paint_cells cells BLUE b0) = nodes b0 ∧
    label (paint_cells cells BLUE b0) (rel_index b0 row col)
    = if decide ((row, col) ∈ cells) then Some BLUE
      else label b0 (rel_index b0 row col)).
  { intros cells Hcells.
    induction Hcells as [|[r c] cells [Hr' Hc'] _ (IH1 & IH2 & IH3)];
      simpl in *.
    - split_and!; try done.
      all: rewrite decide_False; [done | by intros ?%elem_of_nil].
    - split_and!; [done | by rewrite nodes_paint |].
      pose proof (rel_index_valid b0 r c Hwf Hr' Hc') as Hv.
      rewrite label_paint by (by rewrite IH2).
      destruct (decide (rel_index b0 row col = rel_index b0 r c)) as [E|E].
      + unfold rel_index in E. apply abs_index_inj in E; [|lia..].
        assert (row = r ∧ col = c) as [-> ->] by lia.
        rewrite decide_True; [done | by left].
      + rewrite IH3. destruct (decide ((row, col) ∈ cells)) as [Hin|Hnin].
        * rewrite decide_True; [done | by right].
        * rewrite decide_False; [done|].
          intros [[= -> ->]|?]%elem_of_cons; done. }
  assert (Hcells : Forall (λ cell, 0 <= cell.1 < rel_dim b0
                                   ∧ 0 <= cell.2 < rel_dim b0)
                          (hex_diagonal (rel_dim b0))).
  { apply Forall_forall. intros cell (i & -> & Hi)%list_elem_of_fmap.
    apply elem_of_seqZ in Hi. simpl. lia. }
  destruct (Hgen _ Hcells) as (G1 & G2 & G3).
  fold (diagonal_board b0) in G1, G2, G3. fold b1 in G1, G2, G3.
  replace (rel_index b1 row col) with (rel_index b0 row col)
    by (unfold rel_index; by rewrite G1).
  rewrite G3.
  assert (Hwhite : label b0 (rel_index b0 row col) = Some WHITE).
  { unfold rel_index. rewrite Ha. rewrite Hl by lia.
    unfold initial_color, is_corner. repeat case_decide; done || lia. }
  destruct (decide (row + col = rel_dim b0 - 1)) as [E|E].
  - rewrite decide_True; [done|]. unfold hex_diagonal.
    apply list_elem_of_fmap. exists row. split; [f_equal; lia|].
    apply elem_of_seqZ. lia.
  - rewrite decide_False; [done|]. unfold hex_diagonal.
    intros (i & [= -> ->] & Hi)%list_elem_of_fmap. lia.
Qed.

(** ** The Monte Carlo player *)

Lemma same_shape_refl b : same_shape b b.
Proof. by split. Qed.

Lemma same_shape_trans b1 b2 b3 :
  same_shape b1 b2 → same_shape b2 b3 → same_shape b1 b3.
Proof. intros [] []. split; congruence. Qed.

Lemma same_shape_paint x k b : same_shape b (paint x k b).
Proof. split; try done. apply edges_paint. Qed.

Lemma same_shape_nodes b b' : same_shape b b' → nodes b' = nodes b.
Proof.
  intros [_ _ _ _ _ _ He]. unfold nodes.
  rewrite <- (length_fmap elist (vlist (graph b'))).
  rewrite <- (length_fmap elist (vlist (graph b))).
  unfold edges in He. by rewrite He.
Qed.

Lemma same_shape_wf b b' : same_shape b b' → wf_board b → wf_board b'.
Proof.
  intros Hs [[D1 D2 D3 D4 D5] Hn He].
  pose proof (same_shape_nodes _ _ Hs) as Hn'.
  destruct Hs as [S1 S2 S3 S4 S5 S6 S7]. split.
  - split; congruence.
  - congruence.
  - intros x y. rewrite (neighbors_edges b' b) by done. rewrite Hn'. apply He.
Qed.

(** [fill] and [unfill] write labels, on the vertices of the list only. *)
Lemma fill_spec j tmp op me b :
  nodes b < 2 ^ 32 → Forall (λ p, 0 <= p < nodes b) tmp →
  wp (fill j tmp op me) b (λ _ b',
    same_shape b b' ∧ ∀ x, x ∉ tmp → label b' x = label b x).
Proof.
  intros Hfit Htmp. revert j b Hfit Htmp.
  induction tmp as [|p tmp IH]; intros j b Hfit Htmp; simpl.
  - apply wp_ret. split; [apply same_shape_refl | done].
  - apply Forall_cons in Htmp as [Hp Htmp].
    apply wp_bind. unfold wp at 1. eexists tt, _.
    split; [by apply base_set_vertex_key|].
    eapply wp_mono.
    { apply IH; rewrite nodes_paint; done. }
    intros [] b' [Hs Hl]. split.
    + eapply same_shape_trans; [apply same_shape_paint | done].
    + intros x Hx. rewrite Hl by (intros ?; apply Hx; by right).
      apply label_paint_ne; [|lia]. intros ->. apply Hx. by left.
Qed.

Lemma unfill_spec tmp b :
  nodes b < 2 ^ 32 → Forall (λ p, 0 <= p < nodes b) tmp →
  wp (unfill tmp) b (λ _ b',
    same_shape b b' ∧ (∀ x, x ∉ tmp → label b' x = label b x) ∧
    ∀ x, x ∈ tmp → label b' x = Some WHITE).
Proof.
  intros Hfit Htmp. revert b Hfit Htmp.
  induction tmp as [|p tmp IH]; intros b Hfit Htmp; simpl.
  - apply wp_ret. split; [apply same_shape_refl|].
    split; [done | by intros x ?%elem_of_nil].
  - apply Forall_cons in Htmp as [Hp Htmp].
    apply wp_bind. unfold wp at 1. eexists tt, _.
    split; [by apply base_set_vertex_key|].
    eapply wp_mono.
    { apply IH; rewrite nodes_paint; done. }
    intros [] b' (Hs & Hl & Hw). split_and!.
    + eapply same_shape_trans; [apply same_shape_paint | done].
    + intros x Hx. rewrite Hl by (intros ?; apply Hx; by right).
      apply label_paint_ne; [|lia]. intros ->. apply Hx. by left.
    + intros x Hx. destruct (decide (x ∈ tmp)) as [Hin|Hnin]; [by apply Hw|].
      apply elem_of_cons in Hx as [->|?]; [|done].
      rewrite Hl by done. by apply label_paint_eq.
Qed.

Lemma ask_eq {St T A} (t : T) (m : M T A) (s : St) a t' :
  m t = Ret (a, t') → ask t m s = Ret (a, s).
Proof. intros H. unfold ask. by rewrite H. Qed.

Lemma clone_board_state_spec other b :
  nodes b < 2 ^ 32 → nodes other = nodes b →
  wp (clone_board_state other) b (λ _ b',
    same_shape b b' ∧ ∀ x, label b' x = label other x).
Proof.
  intros Hfit Hn. unfold clone_board_state.
  apply wp_bind. eapply wp_eq; [by apply base_get_nodes|].
  apply wp_bind. eapply wp_eq.
  { eapply ask_eq. apply base_get_nodes. by rewrite Hn. }
  rewrite Hn.
  apply wp_bind, wp_assert; [by apply Z.eqb_eq|].
  eapply wp_mono.
  { apply (wp_for_upto (λ k b',
      same_shape b b' ∧ ∀ x, 0 <= x < k → label b' x = label other x)).
    - apply nodes_nonneg.
    - split; [apply same_shape_refl | intros; lia].
    - intros k b' Hk [Hs Hl].
      pose proof (same_shape_nodes _ _ Hs) as Hn'.
      destruct (label_is_Some other k ltac:(lia)) as [c Hc].
      apply wp_bind. eapply wp_eq.
      { eapply ask_eq. apply base_get_vertex_key; [lia | done]. }
      eapply wp_eq; [apply base_set_vertex_key; lia|]. split.
      + eapply same_shape_trans; [done | apply same_shape_paint].
      + intros x Hx. rewrite label_paint by lia.
        case_decide; [by subst | apply Hl; lia]. }
  intros [] b' [Hs Hl]. split; [done|]. intros x.
  destruct (decide (0 <= x < nodes b)) as [Hx|Hx]; [by apply Hl|].
  pose proof (same_shape_nodes _ _ Hs) as Hn'.
  destruct (label b' x) as [c|] eqn:E1.
  { apply label_Some_valid in E1. lia. }
  destruct (label other x) as [c|] eqn:E2; [|done].
  apply label_Some_valid in E2. lia.
Qed.

Section MonteCarloProofs.
Variable RNG : Type.
Variable shuffle : RNG → list vertID → list vertID * RNG.
Hypothesis shuffle_perm : ∀ g l, (shuffle g l).1 ≡ₚ l.

Lemma wp_on_gcopy {A} (m : M HexBoard A) (st : AIMonteCarloPlayer RNG) (Q : A → AIMonteCarloPlayer RNG → Prop) :
  wp m (gcopy st) (λ a g', Q a (mkAI (board st) (gen st) g' (trials st))) →
  wp (on_gcopy RNG m) st Q.
Proof. intros H. by apply wp_lift. Qed.

Lemma wp_call_shuffle tmp (st : AIMonteCarloPlayer RNG) (Q : list vertID → AIMonteCarloPlayer RNG → Prop) :
  (∀ tmp' g', tmp' ≡ₚ tmp →
     Q tmp' (mkAI (board st) g' (gcopy st) (trials st))) →
  wp (call_shuffle RNG shuffle tmp) st Q.
Proof.
  intros HQ. unfold call_shuffle. apply wp_bind, wp_get_state.
  pose proof (shuffle_perm (gen st) tmp) as Hp.
  destruct (shuffle (gen st) tmp) as [tmp' g']. simpl in Hp.
  apply wp_bind, wp_put_state, wp_ret. by apply HQ.
Qed.

(** The loop over the trials counts at most one win for each trial, and
    leaves the pool empty as soon as one trial was run. *)
Lemma trial_loop_spec n me op tmp wins (st : AIMonteCarloPlayer RNG) :
  wf_board (gcopy st) →
  Forall (λ p, 0 <= p < nodes (gcopy st)) tmp →
  wp (trial_loop RNG shuffle n me op tmp wins) st (λ w st',
    wins <= w <= wins + Z.of_nat n ∧
    board st' = board st ∧ trials st' = trials st ∧
    same_shape (gcopy st) (gcopy st') ∧
    (∀ x, x ∉ tmp → label (gcopy st') x = label (gcopy st) x) ∧
    (∀ x, x ∈ tmp → label (gcopy st') x
                    = if decide (n = 0%nat) then label (gcopy st) x
                      else Some WHITE)).
Proof.
  revert tmp wins st.
  induction n as [|n IH]; intros tmp wins st Hwf Htmp.
  - apply wp_ret. split_and!; try done; try lia; apply same_shape_refl.
  - simpl trial_loop. apply wp_bind, wp_call_shuffle.
    intros tmp' g' Hperm.
    assert (Htmp' : Forall (λ p, 0 <= p < nodes (gcopy st)) tmp')
      by by rewrite Hperm.
    pose proof (wf_nodes_fit _ Hwf) as Hfit.
    apply wp_bind, wp_on_gcopy. simpl.
    eapply wp_mono; [by apply fill_spec|].
    intros [] g1 [Hs1 Hl1].
    pose proof (same_shape_wf _ _ Hs1 Hwf) as Hwf1.
    pose proof (same_shape_nodes _ _ Hs1) as Hn1.
    apply wp_bind, wp_on_gcopy. simpl.
    destruct (is_victory_spec g1 me Hwf1) as (won & Hwon & _).
    eapply wp_eq; [exact Hwon|].
    apply wp_bind, wp_on_gcopy. simpl.
    eapply wp_mono.
    { apply unfill_spec; [lia | by rewrite Hn1]. }
    intros [] g2 (Hs2 & Hl2 & Hw2).
    pose proof (same_shape_wf _ _ Hs2 Hwf1) as Hwf2.
    pose proof (same_shape_nodes _ _ Hs2) as Hn2.
    eapply wp_mono.
    { apply IH; simpl; [done|]. by rewrite Hn2, Hn1. }
    intros w st' (Hw & Hb & Ht & Hs & Hl & Hwh). simpl in *.
    split_and!; try done; try (destruct won; lia).
    + eapply same_shape_trans; [|done].
      by eapply same_shape_trans.
    + intros x Hx. assert (x ∉ tmp') by by rewrite Hperm.
      rewrite Hl, Hl2, Hl1 by done. done.
    + intros x Hx. assert (Hx' : x ∈ tmp') by by rewrite Hperm.
      rewrite Hwh by done. case_decide; [by apply Hw2 | done].
Qed.

(** [simulate] returns, with a count of wins between 0 and the number of
    trials, and with the candidate and the vertices of the list labelled
    [WHITE] on the scratch board. *)
Lemma simulate_spec curmove fvert (st : AIMonteCarloPlayer RNG) :
  wf_board (gcopy st) →
  nodes (board st) = nodes (gcopy st) →
  0 <= curmove < nodes (gcopy st) →
  Forall (λ p, 0 <= p < nodes (gcopy st)) fvert →
  Forall (λ p, label (board st) p = Some WHITE) fvert →
  wp (simulate RNG shuffle curmove fvert) st (λ wins st',
    0 <= wins <= Z.max 0 (trials st) ∧
    board st' = board st ∧ trials st' = trials st ∧
    same_shape (gcopy st) (gcopy st') ∧
    label (gcopy st') curmove = Some WHITE ∧
    ∀ p, p ∈ fvert → label (gcopy st') p = Some WHITE).
Proof.
  intros Hwf Hn Hcur Hvalid Hfree.
  pose proof (wf_nodes_fit _ Hwf) as Hfit.
  unfold simulate. apply wp_bind, wp_get_state.
  apply wp_bind, wp_on_gcopy.
  eapply wp_mono; [by apply clone_board_state_spec|].
  intros [] g1 [Hs1 Hl1].
  pose proof (same_shape_nodes _ _ Hs1) as Hn1.
  apply wp_bind. eapply wp_eq; [reflexivity|]. simpl.
  set (me := if p1_turn (board st) then BLUE else RED).
  apply wp_bind, wp_on_gcopy. simpl.
  eapply wp_eq; [apply base_set_vertex_key; lia|]. simpl.
  set (g2 := paint curmove me g1).
  assert (Hs2 : same_shape (gcopy st) g2).
  { eapply same_shape_trans; [done | apply same_shape_paint]. }
  pose proof (same_shape_wf _ _ Hs2 Hwf) as Hwf2.
  pose proof (same_shape_nodes _ _ Hs2) as Hn2.
  set (tmp := filter (λ p, p ≠ curmove) fvert).
  assert (Htmp : Forall (λ p, 0 <= p < nodes g2) tmp).
  { rewrite Hn2. apply Forall_forall. intros p [_ Hp]%list_elem_of_filter.
    by eapply Forall_forall in Hvalid. }
  apply wp_bind. eapply wp_mono.
  { apply (trial_loop_spec _ me _ tmp 0
             (mkAI (board st) (gen st) g2 (trials st))); done. }
  intros wins st' (Hw & Hb & Ht & Hs & Hl & Hwh). simpl in *.
  pose proof (same_shape_nodes _ _ Hs) as Hn3.
  apply wp_bind, wp_on_gcopy.
  eapply wp_eq; [apply base_set_vertex_key; lia|].
  apply wp_ret. simpl. rewrite Hb, Ht. split_and!; try done; try lia.
  - eapply same_shape_trans; [|apply same_shape_paint].
    by eapply same_shape_trans.
  - apply label_paint_eq. lia.
  - intros p Hp. rewrite label_paint by lia.
    destruct (decide (p = curmove)) as [->|E]; [done|].
    assert (Hin : p ∈ tmp) by (apply list_elem_of_filter; done).
    rewrite Hwh by done.
    destruct (decide (Z.to_nat (trials st) = 0%nat)) as [E0|E0]; [|done].
    unfold g2. rewrite label_paint_ne by (done || lia).
    rewrite Hl1. by eapply Forall_forall in Hfree.
Qed.

End MonteCarloProofs.

(** ** The Monte Carlo player in a lost position *)

Lemma board3_new : new_HexBoard 3 = Ret board3.
Proof. vm_compute. reflexivity. Qed.

Lemma lost_position_played :
  plays lost_moves board3
  = Ret ([NO_WIN; NO_WIN; NO_WIN; NO_WIN; NO_WIN; NO_WIN; NO_WIN],
         lost_position).
Proof. vm_compute. reflexivity. Qed.

Section LostPosition.
Variable RNG : Type.
Variable shuffle : RNG → list vertID → list vertID * RNG.
Hypothesis shuffle_perm : ∀ g l, (shuffle g l).1 ≡ₚ l.

Lemma on_gcopy_eq {A} (m : M HexBoard A) (st : AIMonteCarloPlayer RNG) a g' :
  m (gcopy st) = Ret (a, g') →
  on_gcopy RNG m st = Ret (a, mkAI (board st) (gen st) g' (trials st)).
Proof. intros H. unfold on_gcopy, lift. by rewrite H. Qed.

Lemma call_shuffle_one q (st : AIMonteCarloPlayer RNG) :
  ∃ g', call_shuffle RNG shuffle [q] st
        = Ret ([q], mkAI (board st) g' (gcopy st) (trials st)).
Proof.
  unfold call_shuffle. rewrite bind_get_state.
  pose proof (shuffle_perm (gen st) [q]) as Hp.
  destruct (shuffle (gen st) [q]) as [tmp' g']. simpl in Hp.
  apply Permutation_singleton_r in Hp as ->. by exists g'.
Qed.

(** When the one playout there is loses, no trial is won. *)
Lemma trial_loop_lost n me op q wins G G1 bd tr g :
  fill 0 [q] op me G = Ret (tt, G1) →
  is_victory me G1 = Ret (false, G1) →
  unfill [q] G1 = Ret (tt, G) →
  ∃ g', trial_loop RNG shuffle n me op [q] wins (mkAI bd g G tr)
        = Ret (wins, mkAI bd g' G tr).
Proof.
  intros Hfill Hlost Hunfill. revert g.
  induction n as [|n IH]; intros g; [by exists g|].
  simpl trial_loop.
  destruct (call_shuffle_one q (mkAI bd g G tr)) as [g1 Hsh]. simpl in Hsh.
  rewrite (bind_Ret _ _ _ _ _ Hsh).
  rewrite (bind_Ret _ _ _ _ _ (on_gcopy_eq _ (mkAI bd g1 G tr) _ _ Hfill)).
  simpl.
  rewrite (bind_Ret _ _ _ _ _ (on_gcopy_eq _ (mkAI bd g1 G1 tr) _ _ Hlost)).
  simpl.
  rewrite (bind_Ret _ _ _ _ _ (on_gcopy_eq _ (mkAI bd g1 G1 tr) _ _ Hunfill)).
  simpl. apply IH.
Qed.

Lemma simulate_lost c q gc C G G1 tr g :
  filter (λ p : vertID, p ≠ c) ([7; 12] : list vertID) = [q] →
  clone_board_state lost_position gc = Ret (tt, C) →
  base (set_vertex_key c RED) C = Ret (tt, G) →
  fill 0 [q] BLUE RED G = Ret (tt, G1) →
  is_victory RED G1 = Ret (false, G1) →
  unfill [q] G1 = Ret (tt, G) →
  base (set_vertex_key c WHITE) G = Ret (tt, lost_scratch) →
  ∃ g', simulate RNG shuffle c [7; 12] (mkAI lost_position g gc tr)
        = Ret (0, mkAI lost_position g' lost_scratch tr).
Proof.
  intros Hq Hclone Hset Hfill Hlost Hunfill Hreset.
  unfold simulate. rewrite Hq, bind_get_state.
  rewrite (bind_Ret _ _ _ _ _
             (on_gcopy_eq _ (mkAI lost_position g gc tr) _ _ Hclone)).
  simpl.
  assert (Hme : on_board RNG get_current_player_symbol
                  (mkAI lost_position g C tr)
                = Ret (RED, mkAI lost_position g C tr)) by done.
  rewrite (bind_Ret _ _ _ _ _ Hme). simpl.
  rewrite (bind_Ret _ _ _ _ _
             (on_gcopy_eq _ (mkAI lost_position g C tr) _ _ Hset)).
  simpl.
  destruct (trial_loop_lost (Z.to_nat tr) RED BLUE q 0 G G1 lost_position tr g
              Hfill Hlost Hunfill) as [g' Hloop].
  rewrite (bind_Ret _ _ _ _ _ Hloop).
  rewrite (bind_Ret _ _ _ _ _
             (on_gcopy_eq _ (mkAI lost_position g' G tr) _ _ Hreset)).
  by exists g'.
Qed.

(** Every candidate scores no win and the winner stays at 0. *)
Lemma best_move_lost g tr :
  ∃ g', best_move RNG shuffle [7; 12] [7; 12] 0 0
                  (mkAI lost_position g board3 tr)
        = Ret (0, mkAI lost_position g' lost_scratch tr).
Proof.
  destruct (simulate_lost 7 12 board3 lost_scratch
              (paint 7 RED lost_scratch)
              (paint 12 BLUE (paint 7 RED lost_scratch)) tr g
              ltac:(vm_compute; reflexivity) ltac:(vm_compute; reflexivity)
              ltac:(vm_compute; reflexivity) ltac:(vm_compute; reflexivity)
              ltac:(vm_compute; reflexivity) ltac:(vm_compute; reflexivity)
              ltac:(vm_compute; reflexivity))
    as [g1 H1].
  destruct (simulate_lost 12 7 lost_scratch lost_scratch
              (paint 12 RED lost_scratch)
              (paint 7 BLUE (paint 12 RED lost_scratch)) tr g1
              ltac:(vm_compute; reflexivity) ltac:(vm_compute; reflexivity)
              ltac:(vm_compute; reflexivity) ltac:(vm_compute; reflexivity)
              ltac:(vm_compute; reflexivity) ltac:(vm_compute; reflexivity)
              ltac:(vm_compute; reflexivity))
    as [g2 H2].
  exists g2. cbn [best_move].
  rewrite (bind_Ret _ _ _ _ _ H1). change (0 <? 0) with false. cbv iota.
  rewrite (bind_Ret _ _ _ _ _ H2). change (0 <? 0) with false. cbv iota.
  reflexivity.
Qed.

(** The assertion [winner != 0] of [play] fails. *)
Lemma ai_play_lost g tr :
  ai_play RNG shuffle (mkAI lost_position g board3 tr) = Abort.
Proof.
  unfold ai_play.
  assert (Hfree : on_board RNG get_free_vertices
                    (mkAI lost_position g board3 tr)
                  = Ret ([7; 12], mkAI lost_position g board3 tr))
    by (vm_compute; reflexivity).
  rewrite (bind_Ret _ _ _ _ _ Hfree).
  assert (Hsome : assert (negb (bool_decide ([7; 12] = @nil vertID)))
                    (mkAI lost_position g board3 tr)
                  = Ret (tt, mkAI lost_position g board3 tr))
    by reflexivity.
  rewrite (bind_Ret _ _ _ _ _ Hsome).
  destruct (best_move_lost g tr) as [g' Hbest].
  rewrite (bind_Ret _ _ _ _ _ Hbest).
  reflexivity.
Qed.

End LostPosition.

(** ** The choice of the Monte Carlo player *)

(** The loop of [play] runs [simulate] on the candidates in order, and keeps
    what [choose] keeps. *)
Lemma best_move_scores RNG (shuffle : RNG → list vertID → list vertID * RNG)
    ps fvert winner hiwins (st : AIMonteCarloPlayer RNG) :
  best_move RNG shuffle ps fvert winner hiwins st
  = (ws ← scores RNG shuffle ps fvert; mret (choose ps ws winner hiwins)) st.
Proof.
  revert winner hiwins st.
  induction ps as [|p ps IH]; intros winner hiwins st; [done|].
  simpl best_move. simpl scores. rewrite !bind_unfold.
  destruct (simulate RNG shuffle p fvert st) as [[wins st1]| |]; [|done..].
  rewrite bind_unfold. simpl choose.
  destruct (hiwins <? wins) eqn:E; rewrite IH, bind_unfold;
    destruct (scores RNG shuffle ps fvert st1) as [[ws st2]| |]; try done;
    unfold mret, M_ret; simpl; by rewrite E.
Qed.

(** [choose] keeps the first candidate whose count is the highest, when
    that count is above the initial [hiwins]; otherwise it keeps the initial
    [winner]. *)
Lemma choose_first_max ps ws winner hiwins :
  length ps = length ws →
  (Forall (λ w, w <= hiwins) ws ∧ choose ps ws winner hiwins = winner) ∨
  (∃ i p w, ps !! i = Some p ∧ ws !! i = Some w ∧
            choose ps ws winner hiwins = p ∧ hiwins < w ∧
            Forall (λ w', w' <= w) ws ∧
            ∀ j w', (j < i)%nat → ws !! j = Some w' → w' < w).
Proof.
  revert ws winner hiwins.
  induction ps as [|p ps IH]; intros [|w ws] winner hiwins Hlen;
    simpl in *; try done.
  { left. by split. }
  injection Hlen as Hlen.
  destruct (Z.ltb_spec hiwins w) as [Hlt|Hge].
  - destruct (IH ws p w Hlen) as [[Hall ->]|(i & p' & w' & Hp & Hw & -> & Hlt'
                                              & Hall & Hfirst)].
    + right. exists 0%nat, p, w. split_and!; try done.
      * apply Forall_cons. split; [lia | done].
      * intros j w' Hj. lia.
    + right. exists (S i), p', w'. split_and!; try done; try lia.
      * apply Forall_cons. split; [lia | done].
      * intros [|j] w'' Hj Hl; simpl in Hl.
        -- injection Hl as <-. lia.
        -- eapply Hfirst; [|done]. lia.
  - destruct (IH ws winner hiwins Hlen)
      as [[Hall ->]|(i & p' & w' & Hp & Hw & -> & Hlt' & Hall & Hfirst)].
    + left. split; [|done]. apply Forall_cons. split; [lia | done].
    + right. exists (S i), p', w'. split_and!; try done.
      * apply Forall_cons. split; [lia | done].
      * intros [|j] w'' Hj Hl; simpl in Hl.
        -- injection Hl as <-. lia.
        -- eapply Hfirst; [|done]. lia.
Qed.

(** ** [get_free_vertices] and [vertex_to_row_col] *)

Lemma free_in_row_spec b row n col fvert :
  wf_board b → 0 <= row < rel_dim b →
  0 <= col → col + Z.of_nat n <= rel_dim b →
  free_in_row row col n fvert b
  = Ret (fvert ++ filter (λ v, label b v = Some WHITE)
                         (rel_index b row <$> seqZ col (Z.of_nat n)), b).
Proof.
  intros Hwf Hr. revert col fvert.
  induction n as [|n IH]; intros col fvert Hc Hn.
  { simpl. by rewrite app_nil_r. }
  assert (Hcol : 0 <= col < rel_dim b) by lia.
  pose proof (rel_index_valid b row col Hwf Hr Hcol) as Hi.
  destruct (label_is_Some b _ Hi) as [k Hk].
  simpl free_in_row.
  rewrite (bind_Ret _ _ _ _ _ (call_rel_pos_eq b row col (wf_dims b Hwf) Hr Hcol)).
  rewrite (bind_Ret _ _ _ _ _ (base_get_vertex_key b _ k (wf_nodes_fit b Hwf) Hk)).
  rewrite seqZ_cons by lia. rewrite fmap_cons, filter_cons.
  replace (Z.pred (Z.of_nat (S n))) with (Z.of_nat n) by lia.
  replace (Z.succ col) with (col + 1) by lia.
  case_bool_decide as Hw; subst.
  - rewrite (bind_Ret _ _ _ _ _ (call_rel_pos_eq b row col (wf_dims b Hwf) Hr Hcol)).
    rewrite IH by lia. rewrite decide_True by done.
    by rewrite <- app_assoc.
  - rewrite IH by lia. rewrite decide_False by congruence. done.
Qed.

Lemma free_in_rows_spec b n row fvert :
  wf_board b → 0 <= row → row + Z.of_nat n <= rel_dim b →
  free_in_rows row n fvert b
  = Ret (fvert ++ filter (λ v, label b v = Some WHITE)
           (seqZ row (Z.of_nat n) ≫= λ r,
              rel_index b r <$> seqZ 0 (rel_dim b)), b).
Proof.
  intros Hwf. revert row fvert.
  induction n as [|n IH]; intros row fvert Hr Hn.
  { simpl. by rewrite app_nil_r. }
  pose proof (wf_rel_dim_small b Hwf) as Hd.
  simpl free_in_rows. rewrite bind_get_state.
  rewrite (bind_Ret _ _ _ _ _
             (free_in_row_spec b row (Z.to_nat (rel_dim b)) 0 fvert Hwf
                ltac:(lia) ltac:(lia) ltac:(lia))).
  rewrite IH by lia.
  rewrite (seqZ_cons row) by lia. rewrite bind_cons, filter_app.
  replace (Z.pred (Z.of_nat (S n))) with (Z.of_nat n) by lia.
  replace (Z.succ row) with (row + 1) by lia.
  rewrite Z2Nat.id by lia. by rewrite <- app_assoc.
Qed.

(** [get_free_vertices] returns the free cells of the playable area, row by
    row, and leaves the board as it is. *)
Lemma get_free_vertices_eq b :
  wf_board b → get_free_vertices b = Ret (free_cells b, b).
Proof.
  intros Hwf. pose proof (wf_rel_dim_small b Hwf) as Hd.
  unfold get_free_vertices. rewrite bind_get_state.
  rewrite free_in_rows_spec by (done || lia).
  by rewrite Z2Nat.id by lia.
Qed.

Lemma elem_of_playable b v :
  v ∈ playable b ↔
  ∃ row col, 0 <= row < rel_dim b ∧ 0 <= col < rel_dim b ∧
             v = rel_index b row col.
Proof.
  unfold playable. rewrite list_elem_of_bind. split.
  - intros (row & Hv & Hrow). apply list_elem_of_fmap in Hv as (col & -> & Hcol).
    apply elem_of_seqZ in Hrow, Hcol. exists row, col. split_and!; (lia || done).
  - intros (row & col & Hr & Hc & ->). exists row. split.
    + apply list_elem_of_fmap. exists col. split; [done|].
      apply elem_of_seqZ. lia.
    + apply elem_of_seqZ. lia.
Qed.

Lemma rel_index_inj b row col row' col' :
  wf_board b → 0 <= col < rel_dim b → 0 <= col' < rel_dim b →
  rel_index b row col = rel_index b row' col' → row = row' ∧ col = col'.
Proof.
  intros [[H1 H2 H3 H4 H5] _ _] Hc Hc' Heq. unfold rel_index in Heq.
  destruct (abs_index_inj (abs_dim b) (row + 1) (col + 1) (row' + 1) (col' + 1))
    as [? ?]; try lia.
Qed.

Lemma NoDup_playable b : wf_board b → NoDup (playable b).
Proof.
  intros Hwf. unfold playable.
  apply NoDup_bind.
  - intros r r' v Hr Hr' Hv Hv'.
    apply list_elem_of_fmap in Hv as (c & -> & Hc).
    apply list_elem_of_fmap in Hv' as (c' & Heq & Hc').
    apply elem_of_seqZ in Hc, Hc'.
    by destruct (rel_index_inj b r c r' c' Hwf ltac:(lia) ltac:(lia) Heq).
  - intros r Hr. apply NoDup_fmap_2_strong; [|apply NoDup_seqZ].
    intros c c' Hc Hc' Heq. apply elem_of_seqZ in Hc, Hc'.
    by destruct (rel_index_inj b r c r c' Hwf ltac:(lia) ltac:(lia) Heq).
  - apply NoDup_seqZ.
Qed.

(** [vertex_to_row_col] gives back the coordinates of a playable cell. *)
Lemma vertex_to_row_col_rel b row col :
  wf_board b → 0 <= row < rel_dim b → 0 <= col < rel_dim b →
  vertex_to_row_col (rel_index b row col) b = Ret ((row, col), b).
Proof.
  intros Hwf Hr Hc. pose proof (wf_rel_dim_small b Hwf) as Hd.
  destruct Hwf as [[H1 H2 H3 H4 H5] _ _].
  unfold vertex_to_row_col. rewrite bind_get_state.
  replace (abs_dim b =? 0) with false by (symmetry; apply Z.eqb_neq; lia).
  simpl. unfold rel_index.
  assert (Ediv : ((row + 1) * abs_dim b + (col + 1)) / abs_dim b = row + 1).
  { symmetry. apply (Z.div_unique _ _ _ (col + 1)); lia. }
  assert (Emod : ((row + 1) * abs_dim b + (col + 1)) `mod` abs_dim b = col + 1).
  { symmetry. apply (Z.mod_unique _ _ (row + 1)); lia. }
  rewrite Ediv, Emod. unfold to_int.
  replace (row + 1 <? 2 ^ 31) with true by (symmetry; apply Z.ltb_lt; lia).
  replace (col + 1 <? 2 ^ 31) with true by (symmetry; apply Z.ltb_lt; lia).
  munfold. do 3 f_equal; lia.
Qed.

(** ** What a move does to the free cells and to the stones *)

Lemma playable_paint x k b : playable (paint x k b) = playable b.
Proof. reflexivity. Qed.

Lemma playable_with_turn t b : playable (with_turn t b) = playable b.
Proof. reflexivity. Qed.

Lemma label_with_turn t b x : label (with_turn t b) x = label b x.
Proof. reflexivity. Qed.

Lemma playable_valid b v : wf_board b → v ∈ playable b → 0 <= v < nodes b.
Proof.
  intros Hwf (row & col & Hr & Hc & ->)%elem_of_playable.
  by apply rel_index_valid.
Qed.

(** Colouring a vertex takes it out of the free cells, and no other. *)
Lemma free_cells_paint b v c :
  0 <= v < nodes b → c ≠ WHITE →
  free_cells (paint v c b) = filter (λ u, u ≠ v) (free_cells b).
Proof.
  intros Hv Hc. unfold free_cells. rewrite playable_paint, list_filter_filter.
  apply list_filter_iff. intros u. rewrite label_paint by done.
  case_decide; naive_solver.
Qed.

Lemma filter_ext_in {A} (P Q : A → Prop) `{∀ x, Decision (P x)}
    `{∀ x, Decision (Q x)} (l : list A) :
  (∀ x, x ∈ l → (P x ↔ Q x)) → filter P l = filter Q l.
Proof.
  induction l as [|a l IH]; intros Hext; [done|].
  rewrite !filter_cons.
  rewrite IH by (intros x Hx; apply Hext; by right).
  destruct (decide (P a)) as [HP|HP]; destruct (decide (Q a)) as [HQ|HQ];
    try done; exfalso; apply (Hext a) in HP || apply (Hext a) in HQ;
    (done || by left).
Qed.

(** The count of a predicate that becomes true of one more element. *)
Lemma length_filter_gain {A} (P P' : A → Prop) `{∀ x, Decision (P x)}
    `{∀ x, Decision (P' x)} (l : list A) v :
  NoDup l → v ∈ l → (∀ u, u ≠ v → (P' u ↔ P u)) → ¬ P v → P' v →
  length (filter P' l) = S (length (filter P l)).
Proof.
  intros Hnd Hin Hother Hv Hv'.
  induction l as [|a l IH]; [by apply elem_of_nil in Hin|].
  apply NoDup_cons in Hnd as [Ha Hnd].
  rewrite !filter_cons.
  apply elem_of_cons in Hin as [->|Hin].
  - rewrite decide_True by done. rewrite (decide_False (P := P a)) by done.
    simpl. f_equal. f_equal. apply filter_ext_in.
    intros x Hx. apply Hother. intros ->. done.
  - assert (Hne : a ≠ v) by (intros ->; done).
    specialize (IH Hnd Hin).
    destruct (decide (P a)) as [HP|HP].
    + rewrite decide_True by by apply Hother. simpl. by rewrite IH.
    + rewrite decide_False by (intros HP'; by apply Hother in HP'). done.
Qed.

(** Colouring a free cell of the playable area adds one stone of that
    colour, and leaves the stones of the other colours as they are. *)
Lemma stones_paint b v c c' :
  wf_board b → v ∈ playable b → label b v = Some WHITE → c ≠ WHITE →
  c' ≠ WHITE →
  stones c' (paint v c b)
  = if decide (c' = c) then S (stones c' b) else stones c' b.
Proof.
  intros Hwf Hin Hfree Hc Hc'. unfold stones. rewrite playable_paint.
  pose proof (playable_valid b v Hwf Hin) as Hv.
  case_decide as E.
  - subst c'. apply (length_filter_gain _ _ _ v).
    + by apply NoDup_playable.
    + done.
    + intros u Hu. by rewrite label_paint_ne by (done || lia).
    + rewrite Hfree. congruence.
    + by apply label_paint_eq.
  - f_equal. apply list_filter_iff. intros u. rewrite label_paint by done.
    case_decide; [subst u|done]. rewrite Hfree. naive_solver.
Qed.

(** ** Games that nobody has won yet *)

Lemma filter_none {A} (P : A → Prop) `{∀ x, Decision (P x)} (l : list A) :
  (∀ x, x ∈ l → ¬ P x) → filter P l = [].
Proof.
  induction l as [|a l IH]; intros Hno; [done|].
  rewrite filter_cons, decide_False by (apply Hno; by left).
  apply IH. intros x Hx. apply Hno. by right.
Qed.

Lemma is_path_ext b b' l :
  (∀ x, neighbors b' x = neighbors b x) → is_path b' l ↔ is_path b l.
Proof.
  intros Hn. induction l as [|u [|v l] IH]; [done..|].
  change (v ∈ neighbors b' u ∧ is_path b' (v :: l)
          ↔ v ∈ neighbors b u ∧ is_path b (v :: l)).
  by rewrite Hn, IH.
Qed.

Lemma is_path_paint x k b l : is_path (paint x k b) l ↔ is_path b l.
Proof. apply is_path_ext. intros u. apply neighbors_paint. Qed.

Lemma colored_path_with_turn t b sym src dst :
  colored_path (with_turn t b) sym src dst ↔ colored_path b sym src dst.
Proof.
  unfold colored_path. split; intros (mid & Hmid & Hp); exists mid;
    (split; [done|]); by apply (is_path_ext b (with_turn t b)).
Qed.

(** Colouring a vertex that [sym] does not hold with another colour than
    [sym] changes nothing to the paths of [sym]. *)
Lemma colored_path_paint b v c sym src dst :
  0 <= v < nodes b → label b v ≠ Some sym → c ≠ sym →
  colored_path (paint v c b) sym src dst ↔ colored_path b sym src dst.
Proof.
  intros Hv Hold Hnew.
  assert (Hlab : ∀ u, label (paint v c b) u = Some sym ↔ label b u = Some sym).
  { intros u. rewrite label_paint by done. case_decide; [subst u|done].
    naive_solver. }
  unfold colored_path. split; intros (mid & Hmid & Hp); exists mid; split.
  - eapply Forall_impl; [done|]. intros u. apply Hlab.
  - by apply is_path_paint in Hp.
  - eapply Forall_impl; [done|]. intros u. apply Hlab.
  - by apply is_path_paint.
Qed.

Lemma fresh_neighbor_coords ad b x y :
  fresh_board ad b → y ∈ neighbors b x →
  ∃ r c r' c', 0 <= r < ad ∧ 0 <= c < ad ∧ 0 <= r' < ad ∧ 0 <= c' < ad ∧
    x = r * ad + c ∧ y = r' * ad + c' ∧
    (hex_step r c r' c' ∨ hex_step r' c' r c).
Proof.
  intros Hf Hin.
  apply (fresh_edges _ _ Hf) in Hin
    as [(r1 & c1 & r2 & c2 & ? & ? & ? & ? & E1 & E2 & Hs)
       |(r1 & c1 & r2 & c2 & ? & ? & ? & ? & E1 & E2 & Hs)].
  - exists r1, c1, r2, c2. split_and!; try (done || lia). by left.
  - exists r2, c2, r1, c1. split_and!; try (done || lia). by right.
Qed.

(** On a new board the search of BLUE stays in the left column, and the
    search of RED in the top row. *)
Lemma fresh_reach_blue ad b u :
  fresh_board ad b → 4 < ad →
  reach b BLUE (1 * ad + 0) u → ∃ r, 0 < r < ad - 1 ∧ u = r * ad + 0.
Proof.
  intros Hf Had. induction 1 as [|u v _ (r & Hr & ->) Hin Hlab].
  { exists 1. lia. }
  destruct (fresh_neighbor_coords _ _ _ _ Hf Hin)
    as (r1 & c1 & r2 & c2 & ? & ? & ? & ? & E1 & -> & Hs).
  apply abs_index_inj in E1 as [<- <-]; [|lia..].
  rewrite (fresh_label _ _ Hf) in Hlab by lia.
  unfold initial_color, is_corner in Hlab.
  repeat case_decide; try done; unfold hex_step in Hs;
    exists r2; split; try lia; f_equal; lia.
Qed.

Lemma fresh_reach_red ad b u :
  fresh_board ad b → 4 < ad →
  reach b RED (0 * ad + 1) u → ∃ c, 0 < c < ad - 1 ∧ u = 0 * ad + c.
Proof.
  intros Hf Had. induction 1 as [|u v _ (c & Hc & ->) Hin Hlab].
  { exists 1. lia. }
  destruct (fresh_neighbor_coords _ _ _ _ Hf Hin)
    as (r1 & c1 & r2 & c2 & ? & ? & ? & ? & E1 & -> & Hs).
  apply abs_index_inj in E1 as [<- <-]; [|lia..].
  rewrite (fresh_label _ _ Hf) in Hlab by lia.
  unfold initial_color, is_corner in Hlab.
  repeat case_decide; try done; unfold hex_step in Hs;
    exists c2; split; try lia; f_equal; lia.
Qed.

(** Nobody has won on a new board. *)
Lemma fresh_no_path ad b sym :
  fresh_board ad b → sym = BLUE ∨ sym = RED →
  ¬ colored_path b sym (source b sym) (destination b sym).
Proof.
  intros Hf Hsym Hpath.
  pose proof (fresh_wf _ _ Hf) as Hwf.
  pose proof (fresh_abs _ _ Hf) as Habs.
  assert (Had : 4 < ad) by (destruct Hwf as [[? ? ? ? ?] _ _]; lia).
  apply reach_iff_path in Hpath as (u & Hu & Hin).
  destruct Hsym as [-> | ->]; unfold source, destination, abs_index in *;
    rewrite Habs in *.
  - apply (fresh_reach_blue _ _ _ Hf Had) in Hu as (r & Hr & ->).
    destruct (fresh_neighbor_coords _ _ _ _ Hf Hin)
      as (r1 & c1 & r2 & c2 & ? & ? & ? & ? & E1 & E2 & Hs).
    apply abs_index_inj in E1 as [<- <-]; [|lia..].
    apply abs_index_inj in E2 as [<- <-]; [|lia..].
    unfold hex_step in Hs. lia.
  - apply (fresh_reach_red _ _ _ Hf Had) in Hu as (c & Hc & ->).
    destruct (fresh_neighbor_coords _ _ _ _ Hf Hin)
      as (r1 & c1 & r2 & c2 & ? & ? & ? & ? & E1 & E2 & Hs).
    apply abs_index_inj in E1 as [<- <-]; [|lia..].
    apply abs_index_inj in E2 as [<- <-]; [|lia..].
    unfold hex_step in Hs. lia.
Qed.

(** The cells of the playable area of a new board are free. *)
Lemma fresh_playable_free ad b v :
  fresh_board ad b → v ∈ playable b → label b v = Some WHITE.
Proof.
  intros Hf (row & col & Hr & Hc & ->)%elem_of_playable.
  pose proof (fresh_wf _ _ Hf) as [[H1 H2 H3 H4 H5] _ _].
  pose proof (fresh_abs _ _ Hf) as Habs.
  unfold rel_index. rewrite Habs.
  rewrite (fresh_label _ _ Hf) by lia.
  unfold initial_color, is_corner. repeat case_decide; (done || lia).
Qed.

Lemma fresh_stones ad b c : fresh_board ad b → c ≠ WHITE → stones c b = 0%nat.
Proof.
  intros Hf Hc. unfold stones. rewrite filter_none; [done|].
  intros v Hv. rewrite (fresh_playable_free _ _ _ Hf Hv). congruence.
Qed.

Lemma is_victory_false b sym :
  wf_board b →
  ¬ colored_path b sym (source b sym) (destination b sym) →
  is_victory sym b = Ret (false, b).
Proof.
  intros Hwf Hno. destruct (is_victory_spec b sym Hwf) as ([] & Hv & Hiff).
  - exfalso. by apply Hno, Hiff.
  - done.
Qed.

Lemma is_victory_true b sym :
  wf_board b →
  colored_path b sym (source b sym) (destination b sym) →
  is_victory sym b = Ret (true, b).
Proof.
  intros Hwf Hp. destruct (is_victory_spec b sym Hwf) as ([] & Hv & Hiff).
  - done.
  - by apply Hiff in Hp.
Qed.

Lemma is_victory_path b sym won b' :
  wf_board b → is_victory sym b = Ret (won, b') →
  won = true ↔ colored_path b sym (source b sym) (destination b sym).
Proof.
  intros Hwf Hv. destruct (is_victory_spec b sym Hwf) as (won' & Hv' & Hiff).
  rewrite Hv in Hv'. by injection Hv' as -> _.
Qed.

(** What a move does on a board where nobody has a winning path. *)
Lemma play_cases b row col o b' :
  wf_board b → is_int row → is_int col →
  play row col b = Ret (o, b') →
  (b' = b ∧ (o = OOB_ERROR ∨ o = OCC_ERROR)) ∨
  (0 <= row < rel_dim b ∧ 0 <= col < rel_dim b ∧
   label b (rel_index b row col) = Some WHITE ∧
   let c := if p1_turn b then BLUE else RED in
   let b1 := paint (rel_index b row col) c b in
   ((colored_path b1 c (source b1 c) (destination b1 c) ∧
     o = (if p1_turn b then P1_WIN else P2_WIN) ∧ b' = b1) ∨
    (¬ colored_path b1 c (source b1 c) (destination b1 c) ∧
     o = NO_WIN ∧ b' = with_turn (negb (p1_turn b)) b1))).
Proof.
  intros Hwf Hr Hc Hplay.
  destruct (decide (0 <= row < rel_dim b ∧ 0 <= col < rel_dim b))
    as [[Hr' Hc']|Hout].
  - destruct (label_is_Some b _ (rel_index_valid b row col Hwf Hr' Hc'))
      as [k Hk].
    destruct (play_in_bounds b row col k Hwf Hr' Hc' Hk) as (won & Hwon & Hp).
    rewrite Hplay in Hp.
    pose proof (is_victory_path _ _ _ _
                  (wf_board_paint _ _ _ Hwf) Hwon) as Hiff.
    case_decide as E; [subst k|].
    + right. split_and!; [lia..|done|]. simpl.
      destruct won; injection Hp as -> ->.
      * left. split_and!; try done. by apply Hiff.
      * right. split_and!; try done. intros Hpath. by apply Hiff in Hpath.
    + left. injection Hp as -> ->. split; [done | by right].
  - rewrite (play_out_of_bounds b row col Hwf Hr Hc Hout) in Hplay.
    injection Hplay as <- <-. left. split; [done | by left].
Qed.

(** The invariant of a game in progress: the board is well formed, neither
    colour has a winning path, and BLUE has as many stones as RED when it
    is to move, and one more when RED is to move. *)
Lemma in_play_invariant b :
  in_play b →
  wf_board b ∧
  ¬ colored_path b BLUE (source b BLUE) (destination b BLUE) ∧
  ¬ colored_path b RED (source b RED) (destination b RED) ∧
  stones BLUE b = (stones RED b + if p1_turn b then 0 else 1)%nat.
Proof.
  assert (Hfresh : ∀ ad b0, fresh_board ad b0 →
    wf_board b0 ∧
    ¬ colored_path b0 BLUE (source b0 BLUE) (destination b0 BLUE) ∧
    ¬ colored_path b0 RED (source b0 RED) (destination b0 RED) ∧
    stones BLUE b0 = (stones RED b0 + if p1_turn b0 then 0 else 1)%nat).
  { intros ad b0 Hf. split_and!.
    - apply (fresh_wf _ _ Hf).
    - apply (fresh_no_path ad); auto.
    - apply (fresh_no_path ad); auto.
    - rewrite (fresh_turn _ _ Hf).
      by rewrite !(fresh_stones ad) by done. }
  induction 1 as [d b Hd Hfit Hnew|b b' Hg Hreset
                  |b row col o b' _ (Hwf & Hblue & Hred & Hpar) Hr Hc Hplay
                     Ho1 Ho2].
  - destruct (new_HexBoard_spec d Hd Hfit) as (b0 & Hb0 & Hf & _).
    rewrite Hnew in Hb0. injection Hb0 as <-. by apply (Hfresh (d + 2)).
  - destruct (game_board_wf b Hg) as [Hwf _].
    destruct (reset_board_spec b (wf_dims _ Hwf)) as ([] & b0 & Hb0 & Hf & _).
    rewrite Hreset in Hb0. injection Hb0 as <-. by apply (Hfresh (abs_dim b)).
  - destruct (play_cases b row col o b' Hwf Hr Hc Hplay)
      as [[-> _]|(Hr' & Hc' & Hfree & Hcase)]; [done|].
    pose proof (rel_index_valid b row col Hwf Hr' Hc') as Hv.
    assert (Hin : rel_index b row col ∈ playable b).
    { apply elem_of_playable. by exists row, col. }
    simpl in Hcase. revert Hcase Hpar.
    destruct (p1_turn b) eqn:Et;
      (intros [(_ & -> & _)|(Hno & -> & ->)] Hpar; [done|]); simpl.
    + split_and!.
      * by apply wf_board_with_turn, wf_board_paint.
      * intros Hp. by apply colored_path_with_turn in Hp.
      * intros Hp. apply Hred. apply colored_path_with_turn in Hp.
        by apply (colored_path_paint b _ BLUE RED) in Hp;
          [|done|rewrite Hfree; congruence|done].
      * change (stones BLUE (paint (rel_index b row col) BLUE b)
                = (stones RED (paint (rel_index b row col) BLUE b) + 1)%nat).
        rewrite !stones_paint by done.
        repeat case_decide; try done; lia.
    + split_and!.
      * by apply wf_board_with_turn, wf_board_paint.
      * intros Hp. apply Hblue. apply colored_path_with_turn in Hp.
        by apply (colored_path_paint b _ RED BLUE) in Hp;
          [|done|rewrite Hfree; congruence|done].
      * intros Hp. by apply colored_path_with_turn in Hp.
      * change (stones BLUE (paint (rel_index b row col) RED b)
                = (stones RED (paint (rel_index b row col) RED b) + 0)%nat).
        rewrite !stones_paint by done.
        repeat case_decide; try done; lia.
Qed.

(** ** The move of the Monte Carlo player *)

Section AIPlay.
Variable RNG : Type.
Variable shuffle : RNG → list vertID → list vertID * RNG.
Hypothesis shuffle_perm : ∀ g l, (shuffle g l).1 ≡ₚ l.

Lemma on_board_read {A} (m : M HexBoard A) (st : AIMonteCarloPlayer RNG) a :
  m (board st) = Ret (a, board st) → on_board RNG m st = Ret (a, st).
Proof. intros H. unfold on_board, lift. rewrite H. by destruct st. Qed.

(** The counts of all the candidates: [simulate] returns for each of them,
    and the game board is left as it is. *)
Lemma scores_spec ps fvert (st : AIMonteCarloPlayer RNG) :
  wf_board (gcopy st) →
  nodes (board st) = nodes (gcopy st) →
  Forall (λ p, 0 <= p < nodes (gcopy st)) ps →
  Forall (λ p, 0 <= p < nodes (gcopy st)) fvert →
  Forall (λ p, label (board st) p = Some WHITE) fvert →
  wp (scores RNG shuffle ps fvert) st (λ ws st',
    length ws = length ps ∧
    Forall (λ w, 0 <= w <= Z.max 0 (trials st)) ws ∧
    board st' = board st ∧ trials st' = trials st ∧
    same_shape (gcopy st) (gcopy st')).
Proof.
  revert st. induction ps as [|p ps IH]; intros st Hwf Hn Hps Hvalid Hfree.
  { apply wp_ret. split_and!; try done; apply same_shape_refl. }
  apply Forall_cons in Hps as [Hp Hps].
  simpl scores. apply wp_bind.
  eapply wp_mono; [by apply simulate_spec|].
  intros wins st1 (Hw & Hb & Ht & Hs & _).
  pose proof (same_shape_nodes _ _ Hs) as Hn1.
  apply wp_bind. eapply wp_mono.
  { apply IH.
    - by eapply same_shape_wf.
    - rewrite Hb, Hn1. done.
    - by rewrite Hn1.
    - by rewrite Hn1.
    - by rewrite Hb. }
  intros ws st2 (Hlen & Hws & Hb2 & Ht2 & Hs2). apply wp_ret.
  split_and!.
  - simpl. by rewrite Hlen.
  - apply Forall_cons. split; [done|]. by rewrite <- Ht.
  - by rewrite Hb2.
  - by rewrite Ht2.
  - by eapply same_shape_trans.
Qed.

Lemma free_cells_spec b v :
  wf_board b → v ∈ free_cells b →
  ∃ row col, 0 <= row < rel_dim b ∧ 0 <= col < rel_dim b ∧
             v = rel_index b row col ∧ label b v = Some WHITE.
Proof.
  intros Hwf Hv. unfold free_cells in Hv.
  apply list_elem_of_filter in Hv as [Hl Hp].
  apply elem_of_playable in Hp as (row & col & Hr & Hc & ->).
  by exists row, col.
Qed.

(** [play] of the Monte Carlo player, in full. *)
Lemma ai_play_spec (st : AIMonteCarloPlayer RNG) :
  wf_board (board st) → wf_board (gcopy st) →
  nodes (board st) = nodes (gcopy st) →
  ∃ ws st1,
    scores RNG shuffle (free_cells (board st)) (free_cells (board st)) st
    = Ret (ws, st1) ∧
    board st1 = board st ∧
    length ws = length (free_cells (board st)) ∧
    Forall (λ w, 0 <= w <= Z.max 0 (trials st)) ws ∧
    ((Forall (λ w, w <= 0) ws ∧ ai_play RNG shuffle st = Abort) ∨
     (∃ i row col w,
        free_cells (board st) !! i = Some (rel_index (board st) row col) ∧
        0 <= row < rel_dim (board st) ∧ 0 <= col < rel_dim (board st) ∧
        label (board st) (rel_index (board st) row col) = Some WHITE ∧
        ws !! i = Some w ∧ 0 < w ∧ Forall (λ w', w' <= w) ws ∧
        (∀ j w', (j < i)%nat → ws !! j = Some w' → w' < w) ∧
        ai_play RNG shuffle st = Ret ((row, col), st1))).
Proof.
  intros Hwfb Hwfg Hn.
  set (fv := free_cells (board st)).
  assert (Hfv : ∀ v, v ∈ fv → ∃ row col,
            0 <= row < rel_dim (board st) ∧ 0 <= col < rel_dim (board st) ∧
            v = rel_index (board st) row col ∧
            label (board st) v = Some WHITE)
    by (intros v; by apply free_cells_spec).
  assert (Hvalid : Forall (λ p, 0 <= p < nodes (gcopy st)) fv).
  { apply Forall_forall. intros v (row & col & Hr & Hc & -> & _)%Hfv.
    rewrite <- Hn. by apply rel_index_valid. }
  assert (Hfree : Forall (λ p, label (board st) p = Some WHITE) fv).
  { apply Forall_forall. by intros v (row & col & Hr & Hc & -> & ?)%Hfv. }
  destruct (scores_spec fv fv st Hwfg Hn Hvalid Hvalid Hfree)
    as (ws & st1 & Hscores & Hlen & Hws & Hb & _).
  exists ws, st1. split_and!; try done.
  assert (Hplay : ai_play RNG shuffle st =
    (if bool_decide (fv = []) then Abort
     else (assert (negb (choose fv ws 0 0 =? 0));;
           on_board RNG (vertex_to_row_col (choose fv ws 0 0))) st1)).
  { unfold ai_play.
    rewrite (bind_Ret _ _ _ _ _
               (on_board_read _ st _ (get_free_vertices_eq _ Hwfb))).
    fold fv. case_bool_decide as Hnil; [done|]. simpl.
    rewrite (bind_Ret _ _ st tt st) by done.
    rewrite bind_unfold, best_move_scores, bind_unfold, Hscores.
    done. }
  destruct (choose_first_max fv ws 0 0 (eq_sym Hlen))
    as [[Hall Hch]|(i & p & w & Hp & Hw & Hch & Hpos & Hall & Hfirst)].
  - left. split; [done|]. rewrite Hplay, Hch.
    case_bool_decide; [done|]. done.
  - right.
    assert (Hin : p ∈ fv) by by eapply list_elem_of_lookup_2.
    destruct (Hfv p Hin) as (row & col & Hr & Hc & -> & Hl).
    exists i, row, col, w. split_and!; try (done || lia).
    rewrite Hplay, Hch. rewrite bool_decide_eq_false_2
      by (intros E; rewrite E in Hin; by apply elem_of_nil in Hin).
    pose proof (rel_index_valid _ row col Hwfb Hr Hc) as Hv.
    assert (Hne : rel_index (board st) row col ≠ 0).
    { unfold rel_index. destruct Hwfb as [[? ? ? ? ?] _ _]. nia. }
    replace (rel_index (board st) row col =? 0) with false
      by (symmetry; by apply Z.eqb_neq).
    simpl. rewrite (bind_Ret _ _ st1 tt st1) by done.
    apply on_board_read. rewrite Hb. by apply vertex_to_row_col_rel.
Qed.

End AIPlay.

(** ** The graph: bounds, vertices and keys *)

Section GraphBasics.
Context {vtype etype : Type}.
Implicit Types (g : Graph vtype etype) (v : Vertex vtype etype).
Implicit Types (l : list (Edge etype)).

Lemma get_nodes_eq g : order g < 2 ^ 32 → get_nodes g = Ret (order g, g).
Proof.
  intros Hn. unfold get_nodes, order in *. munfold.
  rewrite u32_small by lia. done.
Qed.

(** An index that is not below the number of vertices fails the
    validation. *)
Lemma validate_vertex_out g x :
  order g < 2 ^ 32 → order g <= x → validate_vertex x g = Abort.
Proof.
  intros Hn Hx. unfold validate_vertex.
  rewrite (bind_Ret _ _ _ _ _ (get_nodes_eq g Hn)). unfold assert.
  by destruct (Z.ltb_spec x (order g)); [lia|].
Qed.

Lemma validate_vertices_out g x y :
  order g < 2 ^ 32 → 0 <= x → 0 <= y →
  ¬ (x < order g ∧ y < order g) → validate_vertices x y g = Abort.
Proof.
  intros Hn Hx Hy Hout. unfold validate_vertices.
  destruct (decide (x < order g)) as [Hxl|Hxl].
  - rewrite (bind_Ret _ _ _ _ _ (validate_vertex_eq g x Hn Hxl)).
    apply validate_vertex_out; [done|lia].
  - rewrite bind_unfold, validate_vertex_out by (done || lia). done.
Qed.

Lemma gkey_Some g x k :
  order g < 2 ^ 32 → gkey g x = Some k → get_vertex_key x g = Ret (k, g).
Proof.
  intros Hn Hk. unfold gkey in Hk.
  destruct (at_index (vlist g) x) as [v|] eqn:Ev; [|done].
  injection Hk as <-. pose proof (at_index_Some _ _ _ Ev) as Hx.
  unfold get_vertex_key.
  rewrite (bind_Ret _ _ _ _ _ (validate_vertex_eq g x Hn (proj2 Hx))).
  by rewrite (bind_Ret _ _ _ _ _ (vertex_at_eq g x v Ev)).
Qed.

Lemma get_neighbors_gneighbors g x :
  0 <= x < order g → get_neighbors x g = Ret (gneighbors g x, g).
Proof.
  intros Hx. destruct (at_index_is_Some (vlist g) x Hx) as [v Hv].
  unfold get_neighbors, gneighbors.
  rewrite (bind_Ret _ _ _ _ _ (vertex_at_eq g x v Hv)). by rewrite Hv.
Qed.

Lemma set_vertex_key_alter g x k :
  order g < 2 ^ 32 → 0 <= x < order g →
  set_vertex_key x k g =
    Ret (tt, {| nedges := nedges g;
                vlist := alter (set_key k) (Z.to_nat x) (vlist g) |}).
Proof.
  intros Hn Hx. destruct (at_index_is_Some (vlist g) x Hx) as [v Hv].
  unfold set_vertex_key.
  rewrite (bind_Ret _ _ _ _ _ (validate_vertex_eq g x Hn (proj2 Hx))).
  rewrite (bind_Ret _ _ _ _ _ (vertex_at_eq g x v Hv)).
  by apply put_vertex_alter.
Qed.

Lemma at_index_app_l {A} (l1 l2 : list A) x :
  x < Z.of_nat (length l1) → at_index (l1 ++ l2) x = at_index l1 x.
Proof.
  intros Hx. unfold at_index. destruct (0 <=? x) eqn:E; [|done].
  apply lookup_app_l. apply Z.leb_le in E. lia.
Qed.

Lemma at_index_app_r {A} (l1 l2 : list A) x :
  Z.of_nat (length l1) <= x →
  at_index (l1 ++ l2) x = at_index l2 (x - Z.of_nat (length l1)).
Proof.
  intros Hx. unfold at_index.
  replace (0 <=? x) with true by (symmetry; apply Z.leb_le; lia).
  replace (0 <=? x - Z.of_nat (length l1)) with true
    by (symmetry; apply Z.leb_le; lia).
  rewrite lookup_app_r by lia. f_equal. lia.
Qed.

Lemma at_index_None {A} (l : list A) x :
  ¬ (0 <= x < Z.of_nat (length l)) → at_index l x = None.
Proof.
  intros Hx. destruct (at_index l x) eqn:E; [|done].
  apply at_index_Some in E. lia.
Qed.

Lemma at_index_snoc {A} (l : list A) a x :
  at_index (l ++ [a]) x
  = if decide (x = Z.of_nat (length l)) then Some a else at_index l x.
Proof.
  case_decide as E.
  - subst x. rewrite at_index_app_r by lia.
    by replace (Z.of_nat (length l) - Z.of_nat (length l)) with 0 by lia.
  - destruct (decide (x < Z.of_nat (length l))) as [Hlt|Hge].
    + by apply at_index_app_l.
    + rewrite (at_index_None l) by lia. apply at_index_None.
      rewrite length_app. simpl. lia.
Qed.

End GraphBasics.

(** ** The graph: what the mutators keep *)

Section GraphInvariants.
Context {vtype etype : Type}.
Implicit Types (g : Graph vtype etype) (l : list (Edge etype)).

Lemma filter_alter_other {A} (P : A → Prop) `{∀ x, Decision (P x)}
    (f : A → A) (l : list A) k e :
  l !! k = Some e → ¬ P e → ¬ P (f e) → filter P (alter f k l) = filter P l.
Proof.
  revert k. induction l as [|a l IH]; intros [|k] Hk He Hfe; try done.
  - simpl in Hk. injection Hk as ->.
    change (alter f 0%nat (e :: l)) with (f e :: l).
    by rewrite !filter_cons, !decide_False by done.
  - simpl in Hk. change (alter f (S k) (a :: l)) with (a :: alter f k l).
    rewrite !filter_cons. by rewrite (IH k).
Qed.

Lemma find_found (v : Vertex vtype etype) n :
  n ∈ vertex_get_neighbors v →
  ∃ e, elist v !! Z.to_nat (find v n) = Some e ∧ neigh e = n.
Proof.
  intros Hin.
  destruct (find_from_found 0 (elist v) n ltac:(lia) Hin)
    as (k & e & Hf & He & Hn & _).
  exists e. unfold find. rewrite Hf.
  by replace (Z.to_nat (0 + Z.of_nat k)) with k by lia.
Qed.

(** Giving a new weight to the edge to [n] leaves the edges to the other
    vertices as they are. *)
Lemma reweigh_filter_other (v : Vertex vtype etype) n m (w : etype) :
  n ∈ vertex_get_neighbors v → n ≠ m →
  filter (λ e, neigh e = m) (elist (reweigh n w v))
  = filter (λ e, neigh e = m) (elist v).
Proof.
  intros Hin Hne. destruct (find_found v n Hin) as (e & He & Hn).
  unfold reweigh. simpl.
  apply (filter_alter_other _ _ _ _ e); [done|..]; simpl; congruence.
Qed.

Lemma edges_to_neigh g x y e : e ∈ edges_to g x y → neigh e = y.
Proof.
  unfold edges_to. destruct (at_index (vlist g) x) as [v|]; simpl.
  - by intros [? _]%list_elem_of_filter.
  - by intros ?%elem_of_nil.
Qed.

Lemma edges_to_out g x y : ¬ (0 <= x < order g) → edges_to g x y = [].
Proof.
  intros Hx. unfold edges_to. by rewrite at_index_None.
Qed.

(** The edges between any two vertices after a new edge from [x] to
    [y]. *)
Lemma edges_to_with_new_edge g x y w u v :
  0 <= x < order g → 0 <= y < order g →
  edges_to (with_new_edge x y w g) u v
  = edges_to g u v
    ++ (if decide (u = x ∧ v = y) then [mkEdge y w] else [])
    ++ (if decide (u = y ∧ v = x) then [mkEdge x w] else []).
Proof.
  intros Hx Hy. unfold edges_to, with_new_edge. simpl.
  rewrite !at_index_alter by lia.
  destruct (at_index (vlist g) u) as [vu|] eqn:Eu.
  - repeat case_decide; simpl; rewrite ?filter_app, ?filter_cons, ?filter_nil;
      simpl; repeat case_decide; simpl; rewrite ?app_nil_r, <- ?app_assoc;
      try done; try (exfalso; naive_solver).
  - destruct (at_index_is_Some (vlist g) _ Hx) as [? Ex].
    destruct (at_index_is_Some (vlist g) _ Hy) as [? Ey].
    repeat case_decide; simpl; try done; destruct_and?; subst; congruence.
Qed.

(** Giving a new weight to the edge between [x] and [y] leaves the edges
    between the other pairs as they are. *)
Lemma edges_to_new_weight_other g x y w u v :
  y ∈ gneighbors g x → x ∈ gneighbors g y →
  ¬ (u = x ∧ v = y) → ¬ (u = y ∧ v = x) →
  edges_to (with_new_weight x y w g) u v = edges_to g u v.
Proof.
  intros Hyx Hxy H1 H2.
  pose proof (gneighbors_valid _ _ _ Hyx) as Hx.
  pose proof (gneighbors_valid _ _ _ Hxy) as Hy.
  unfold edges_to, with_new_weight. simpl.
  rewrite !at_index_alter by lia.
  unfold gneighbors in Hyx, Hxy.
  destruct (at_index (vlist g) u) as [vu|] eqn:Eu;
    [|by repeat case_decide].
  destruct (decide (u = y)) as [Ey|Ey]; destruct (decide (u = x)) as [Ex|Ex];
    rewrite ?(decide_True (P := u = y)), ?(decide_False (P := u = y)),
            ?(decide_True (P := u = x)), ?(decide_False (P := u = x)) by done;
    cbn [fmap option_fmap option_map from_option]; try done.
  - assert (x = y) by congruence. subst x u.
    rewrite Eu in Hyx. simpl in Hyx.
    assert (v ≠ y) by naive_solver.
    rewrite !reweigh_filter_other; try done.
    by rewrite neighbors_reweigh.
  - subst u. rewrite Eu in Hxy. simpl in Hxy.
    assert (v ≠ x) by naive_solver.
    by rewrite reweigh_filter_other.
  - subst u. rewrite Eu in Hyx. simpl in Hyx.
    assert (v ≠ y) by naive_solver.
    by rewrite reweigh_filter_other.
Qed.

Lemma undirected_sym g x y :
  undirected g → y ∈ gneighbors g x → x ∈ gneighbors g y.
Proof.
  intros Hu Hin. destruct (decide (x = y)) as [->|Hne]; [done|].
  destruct (Hu x y Hne) as [_ Hval].
  destruct (decide (x ∈ gneighbors g y)) as [|Hno]; [done|].
  apply edges_to_nil_iff in Hno. rewrite Hno in Hval.
  apply fmap_nil_inv in Hval. by apply edges_to_nil_iff in Hval.
Qed.

(** The one edge between two neighbours of an undirected graph. *)
Lemma undirected_single g x y :
  undirected g → x ≠ y → y ∈ gneighbors g x →
  ∃ w, edges_to g x y = [mkEdge y w] ∧ edges_to g y x = [mkEdge x w].
Proof.
  intros Hu Hne Hin. destruct (Hu x y Hne) as [Hlen Hval].
  destruct (edges_to g x y) as [|[n w] [|? ?]] eqn:Exy; simpl in Hlen;
    [|clear Hlen|lia].
  { by apply edges_to_nil_iff in Exy. }
  assert (n = y) as ->.
  { apply (edges_to_neigh g x y (mkEdge n w)). rewrite Exy. by left. }
  exists w. split; [done|].
  destruct (edges_to g y x) as [|[n' w'] [|? ?]] eqn:Eyx; try done.
  assert (n' = x) as ->.
  { apply (edges_to_neigh g y x (mkEdge n' w')). rewrite Eyx. by left. }
  simpl in Hval. by injection Hval as ->.
Qed.

Lemma undirected_new_edge g x y w :
  undirected g → 0 <= x < order g → 0 <= y < order g →
  y ∉ gneighbors g x → undirected (with_new_edge x y w g).
Proof.
  intros Hu Hx Hy Hnew u v Hne.
  rewrite !edges_to_with_new_edge by done.
  destruct (Hu u v Hne) as [Hlen Hval].
  assert (Hxy : x ≠ y → edges_to g x y = [] ∧ edges_to g y x = []).
  { intros Hxy. destruct (Hu x y Hxy) as [_ Hv].
    assert (E : edges_to g x y = []) by by apply edges_to_nil_iff.
    rewrite E in Hv. symmetry in Hv. by apply fmap_nil_inv in Hv. }
  destruct (decide (u = x ∧ v = y)) as [[-> ->]|H1].
  { destruct (Hxy Hne) as [-> ->].
    rewrite ?(decide_True (P := x = x ∧ y = y)) by done.
    rewrite ?(decide_False (P := x = y ∧ y = x)) by naive_solver.
    rewrite ?(decide_False (P := y = x ∧ x = y)) by naive_solver.
    rewrite ?(decide_True (P := y = y ∧ x = x)) by done.
    simpl. split; [lia|done]. }
  destruct (decide (u = y ∧ v = x)) as [[-> ->]|H2].
  { destruct (Hxy ltac:(done)) as [-> ->].
    rewrite ?(decide_False (P := y = x ∧ x = y)) by naive_solver.
    rewrite ?(decide_True (P := y = y ∧ x = x)) by done.
    rewrite ?(decide_True (P := x = x ∧ y = y)) by done.
    rewrite ?(decide_False (P := x = y ∧ y = x)) by naive_solver.
    simpl. split; [lia|done]. }
  rewrite ?(decide_False (P := u = x ∧ v = y)) by done.
  rewrite ?(decide_False (P := u = y ∧ v = x)) by done.
  rewrite ?(decide_False (P := v = x ∧ u = y)) by naive_solver.
  rewrite ?(decide_False (P := v = y ∧ u = x)) by naive_solver.
  by rewrite !app_nil_r.
Qed.

Lemma undirected_new_weight g x y w :
  undirected g → y ∈ gneighbors g x → undirected (with_new_weight x y w g).
Proof.
  intros Hu Hyx u v Hne.
  pose proof (undirected_sym g x y Hu Hyx) as Hxy.
  pose proof (gneighbors_valid _ _ _ Hyx) as Hx.
  pose proof (gneighbors_valid _ _ _ Hxy) as Hy.
  destruct (decide (u = x ∧ v = y)) as [[-> ->]|H1].
  { destruct (undirected_single g x y Hu Hne Hyx) as (w0 & E1 & E2).
    rewrite (edges_to_new_weight_l g x y w _ Hne) by (lia || done).
    rewrite (edges_to_new_weight_r g x y w _ Hne) by (lia || done).
    done. }
  destruct (decide (u = y ∧ v = x)) as [[-> ->]|H2].
  { destruct (undirected_single g x y Hu ltac:(done) Hyx) as (w0 & E1 & E2).
    rewrite (edges_to_new_weight_l g x y w _ ltac:(done)) by (lia || done).
    rewrite (edges_to_new_weight_r g x y w _ ltac:(done)) by (lia || done).
    done. }
  rewrite !edges_to_new_weight_other by naive_solver.
  apply Hu, Hne.
Qed.

Lemma sum_list_with_alter {A} (F : A → nat) (f : A → A) d (l : list A) k :
  (∀ a, F (f a) = (F a + d)%nat) → (k < length l)%nat →
  sum_list_with F (alter f k l) = (sum_list_with F l + d)%nat.
Proof.
  intros Hf. revert k. induction l as [|a l IH]; intros [|k] Hk;
    simpl in Hk; try lia.
  - change (alter f 0%nat (a :: l)) with (f a :: l). simpl.
    rewrite Hf. lia.
  - change (alter f (S k) (a :: l)) with (a :: alter f k l). simpl.
    rewrite IH by lia. lia.
Qed.

Lemma degree_sum_new_edge g x y w :
  0 <= x < order g → 0 <= y < order g →
  degree_sum (with_new_edge x y w g) = (degree_sum g + 2)%nat.
Proof.
  intros Hx Hy. unfold degree_sum, with_new_edge, order in *. simpl.
  rewrite (sum_list_with_alter _ _ 1).
  - rewrite (sum_list_with_alter _ _ 1); [lia| |lia].
    intros a. simpl. rewrite length_app. simpl. lia.
  - intros a. simpl. rewrite length_app. simpl. lia.
  - rewrite length_alter. lia.
Qed.

Lemma degree_sum_new_weight g x y w :
  0 <= x < order g → 0 <= y < order g →
  degree_sum (with_new_weight x y w g) = degree_sum g.
Proof.
  intros Hx Hy. unfold degree_sum, with_new_weight, order in *. simpl.
  rewrite (sum_list_with_alter _ _ 0).
  - rewrite (sum_list_with_alter _ _ 0); [lia| |lia].
    intros a. simpl. rewrite length_alter. lia.
  - intros a. simpl. rewrite length_alter. lia.
  - rewrite length_alter. lia.
Qed.

End GraphInvariants.

(** ** The graph: graphs built through the interface *)

Section GraphBuilt.
Context {vtype etype : Type}.
Implicit Types (g : Graph vtype etype) (l : list (Edge etype)).

Lemma add_vertex_eq g (k : vtype) :
  add_vertex k g
  = Ret (tt, {| nedges := nedges g; vlist := vlist g ++ [mkVertex k []] |}).
Proof. reflexivity. Qed.

Lemma edges_to_add_vertex g (k : vtype) x y :
  edges_to {| nedges := nedges g; vlist := vlist g ++ [mkVertex k []] |} x y
  = edges_to g x y.
Proof.
  unfold edges_to. simpl. rewrite at_index_snoc. case_decide; [|done].
  subst x. by rewrite at_index_None by lia.
Qed.

Lemma edges_to_set_key g x (k : vtype) u y :
  0 <= x →
  edges_to {| nedges := nedges g;
              vlist := alter (set_key k) (Z.to_nat x) (vlist g) |} u y
  = edges_to g u y.
Proof.
  intros Hx. unfold edges_to. simpl. rewrite at_index_alter by done.
  case_decide; [|done]. by destruct (at_index (vlist g) u).
Qed.

(** [set_edge_weight] on an edge that both ends have. *)
Lemma set_edge_weight_old g x y (w : etype) :
  order g < 2 ^ 32 →
  y ∈ gneighbors g x → x ∈ gneighbors g y →
  set_edge_weight x y w g = Ret (tt, with_new_weight x y w g).
Proof.
  intros Hn Hyx Hxy.
  pose proof (gneighbors_valid _ _ _ Hyx) as Hx.
  pose proof (gneighbors_valid _ _ _ Hxy) as Hy.
  pose proof (add_edge_old g x y w Hn Hyx Hxy) as Hadd.
  unfold add_edge in Hadd.
  rewrite (bind_Ret _ _ _ _ _
             (validate_vertices_eq g x y Hn (proj2 Hx) (proj2 Hy))) in Hadd.
  rewrite (bind_Ret _ _ _ _ _ (is_adjacent_eq g x y Hn Hx (proj2 Hy))) in Hadd.
  by rewrite bool_decide_eq_true_2 in Hadd by done.
Qed.

(** [set_edge_weight] on an edge that is not there fails: the edge must
    exist. *)
Lemma set_edge_weight_missing g x y (w : etype) :
  order g < 2 ^ 32 → 0 <= x < order g → y < order g →
  y ∉ gneighbors g x → set_edge_weight x y w g = Abort.
Proof.
  intros Hn Hx Hy Hno. unfold set_edge_weight.
  rewrite (bind_Ret _ _ _ _ _
             (validate_vertices_eq g x y Hn (proj2 Hx) Hy)).
  destruct (at_index_is_Some (vlist g) x Hx) as [vx Hvx].
  rewrite (bind_Ret _ _ _ _ _ (vertex_at_eq g x vx Hvx)).
  unfold gneighbors in Hno. rewrite Hvx in Hno. simpl in Hno.
  pose proof (vertex_is_adjacent_spec vx y) as Ha.
  rewrite bool_decide_eq_false_2 in Ha by done.
  unfold set_weight. unfold vertex_is_adjacent in Ha. by rewrite Ha.
Qed.

(** The two ways in which [add_edge] returns on an undirected graph. *)
Lemma add_edge_inv g x y (w : etype) g' :
  order g < 2 ^ 32 → undirected g → 0 <= x → 0 <= y →
  add_edge x y w g = Ret (tt, g') →
  0 <= x < order g ∧ 0 <= y < order g ∧
  (((y ∉ gneighbors g x) ∧ g' = with_new_edge x y w g) ∨
   (y ∈ gneighbors g x ∧ g' = with_new_weight x y w g)).
Proof.
  intros Hn Hu Hx Hy Hadd.
  destruct (decide (x < order g ∧ y < order g)) as [[Hxl Hyl]|Hout].
  - split_and!; try lia.
    destruct (decide (y ∈ gneighbors g x)) as [Hin|Hno].
    + right. split; [done|].
      rewrite (add_edge_old g x y w Hn Hin (undirected_sym g x y Hu Hin))
        in Hadd. by injection Hadd as <-.
    + left. split; [done|].
      rewrite (add_edge_new g x y w Hn (conj Hx Hxl) (conj Hy Hyl) Hno)
        in Hadd.
      by injection Hadd as <-.
  - unfold add_edge in Hadd.
    by rewrite bind_unfold, validate_vertices_out in Hadd.
Qed.

Lemma set_edge_weight_inv g x y (w : etype) g' :
  order g < 2 ^ 32 → undirected g → 0 <= x → 0 <= y →
  set_edge_weight x y w g = Ret (tt, g') →
  y ∈ gneighbors g x ∧ g' = with_new_weight x y w g.
Proof.
  intros Hn Hu Hx Hy Hset.
  destruct (decide (x < order g ∧ y < order g)) as [[Hxl Hyl]|Hout].
  - destruct (decide (y ∈ gneighbors g x)) as [Hin|Hno].
    + split; [done|].
      rewrite (set_edge_weight_old g x y w Hn Hin
                 (undirected_sym g x y Hu Hin)) in Hset.
      by injection Hset as <-.
    + by rewrite set_edge_weight_missing in Hset.
  - unfold set_edge_weight in Hset.
    by rewrite bind_unfold, validate_vertices_out in Hset.
Qed.

Lemma set_vertex_key_inv g x (k : vtype) g' :
  order g < 2 ^ 32 → 0 <= x →
  set_vertex_key x k g = Ret (tt, g') →
  0 <= x < order g ∧
  g' = {| nedges := nedges g;
          vlist := alter (set_key k) (Z.to_nat x) (vlist g) |}.
Proof.
  intros Hn Hx Hset.
  destruct (decide (x < order g)) as [Hxl|Hout].
  - rewrite set_vertex_key_alter in Hset by (done || lia).
    injection Hset as <-. split; [lia|done].
  - unfold set_vertex_key in Hset.
    by rewrite bind_unfold, validate_vertex_out in Hset by (done || lia).
Qed.

Lemma keeps_order_bind {A B} (m : M (Graph vtype etype) A)
    (f : A → M (Graph vtype etype) B) :
  keeps_order m → (∀ a, keeps_order (f a)) → keeps_order (m ≫= f).
Proof.
  intros Hm Hf g b g' Hb. apply bind_inv in Hb as (a & g1 & H1 & H2).
  rewrite (Hf a _ _ _ H2). by eapply Hm.
Qed.

Lemma keeps_order_read_only {A} (m : M (Graph vtype etype) A) :
  read_only m → keeps_order m.
Proof. intros Hm g a g' H. by rewrite (Hm _ _ _ H). Qed.

Lemma read_only_validate_vertex x :
  read_only (@validate_vertex vtype etype x).
Proof.
  unfold validate_vertex, get_nodes.
  apply read_only_bind.
  - apply read_only_bind; [apply read_only_get_state|intros ?].
    apply read_only_ret.
  - intros ?. apply read_only_assert.
Qed.

Lemma read_only_validate_vertices x y :
  read_only (@validate_vertices vtype etype x y).
Proof.
  unfold validate_vertices.
  apply read_only_bind; [apply read_only_validate_vertex|intros _].
  apply read_only_validate_vertex.
Qed.

Lemma read_only_vertex_at x : read_only (@vertex_at vtype etype x).
Proof.
  unfold vertex_at. apply read_only_bind; [apply read_only_get_state|].
  intros ?. apply read_only_must.
Qed.

Lemma keeps_order_put_vertex x v : keeps_order (@put_vertex vtype etype x v).
Proof.
  intros g [] g' H. unfold put_vertex in H. munfold. injection H as <-.
  unfold order. simpl. by rewrite length_insert.
Qed.

Lemma keeps_order_update x (f : Vertex vtype etype → option (Vertex vtype etype)) :
  keeps_order (v ← vertex_at x; v' ← must (f v); put_vertex x v').
Proof.
  apply keeps_order_bind;
    [apply keeps_order_read_only, read_only_vertex_at|intros v].
  apply keeps_order_bind;
    [apply keeps_order_read_only, read_only_must|intros v'].
  apply keeps_order_put_vertex.
Qed.

Lemma keeps_order_set_edge_weight x y (w : etype) :
  keeps_order (@set_edge_weight vtype etype x y w).
Proof.
  unfold set_edge_weight.
  apply keeps_order_bind;
    [apply keeps_order_read_only, read_only_validate_vertices|intros _].
  apply keeps_order_bind;
    [apply keeps_order_read_only, read_only_vertex_at|intros vx].
  apply keeps_order_bind;
    [apply keeps_order_read_only, read_only_must|intros vx'].
  apply keeps_order_bind; [apply keeps_order_put_vertex|intros _].
  apply (keeps_order_update y (set_weight x w)).
Qed.

Lemma keeps_order_add_edge x y (w : etype) :
  keeps_order (@add_edge vtype etype x y w).
Proof.
  unfold add_edge.
  apply keeps_order_bind;
    [apply keeps_order_read_only, read_only_validate_vertices|intros _].
  apply keeps_order_bind.
  { apply keeps_order_read_only. unfold is_adjacent.
    apply read_only_bind; [apply read_only_validate_vertices|intros _].
    apply read_only_bind; [apply read_only_vertex_at|intros ?].
    apply read_only_ret. }
  intros [|]; simpl; [apply keeps_order_set_edge_weight|].
  apply keeps_order_bind;
    [apply keeps_order_read_only, read_only_vertex_at|intros vx].
  apply keeps_order_bind; [apply keeps_order_put_vertex|intros _].
  apply keeps_order_bind;
    [apply keeps_order_read_only, read_only_vertex_at|intros vy].
  apply keeps_order_bind; [apply keeps_order_put_vertex|intros _].
  intros g [] g' H. unfold incr_nedges in H. munfold. by injection H as <-.
Qed.

Lemma keeps_order_set_vertex_key x (k : vtype) :
  keeps_order (@set_vertex_key vtype etype x k).
Proof.
  unfold set_vertex_key.
  apply keeps_order_bind;
    [apply keeps_order_read_only, read_only_validate_vertex|intros _].
  apply keeps_order_bind;
    [apply keeps_order_read_only, read_only_vertex_at|intros ?].
  apply keeps_order_put_vertex.
Qed.

Lemma u32_succ z : u32 (u32 z + 1) = u32 (z + 1).
Proof. unfold u32. by rewrite Zplus_mod_idemp_l. Qed.

Lemma undirected_empty : undirected (@empty_graph vtype etype).
Proof.
  intros x y _. unfold edges_to.
  rewrite !at_index_None by (simpl; lia). simpl. split; [lia|done].
Qed.

(** The invariant of the graphs built through the interface: they are
    undirected, and the sum of the lengths of the edge lists is twice the
    number of edges that the graph counts (handshake), up to the width of
    the counter. *)
Lemma built_invariant g :
  built g → order g < 2 ^ 32 →
  undirected g ∧
  ∃ m, degree_sum g = (2 * m)%nat ∧ nedges g = u32 (Z.of_nat m).
Proof.
  induction 1 as [|g k g' _ IH Hadd|g x y w g' _ IH Hx Hy Hadd
                  |g x k g' _ IH Hx Hset|g x y w g' _ IH Hx Hy Hset];
    intros Hn.
  - split; [apply undirected_empty|]. by exists 0%nat.
  - rewrite add_vertex_eq in Hadd. injection Hadd as <-.
    unfold order in Hn. simpl in Hn. rewrite length_app in Hn. simpl in Hn.
    destruct IH as [Hu (m & Hd & Hm)]; [unfold order; lia|].
    split.
    + intros u v Hne. rewrite !edges_to_add_vertex. by apply Hu.
    + exists m. split; [|done]. unfold degree_sum in *. simpl.
      rewrite sum_list_with_app. simpl. lia.
  - rewrite (keeps_order_add_edge _ _ _ _ _ _ Hadd) in Hn.
    destruct (IH Hn) as [Hu (m & Hd & Hm)].
    destruct (add_edge_inv g x y w g' Hn Hu (proj1 Hx) (proj1 Hy) Hadd)
      as (Hxv & Hyv & [[Hno ->]|[Hin ->]]).
    + split; [by apply undirected_new_edge|].
      exists (S m). split.
      * rewrite degree_sum_new_edge by done. lia.
      * simpl nedges. rewrite Hm, u32_succ. f_equal. lia.
    + split; [by apply undirected_new_weight|].
      exists m. split; [|done]. by rewrite degree_sum_new_weight.
  - rewrite (keeps_order_set_vertex_key _ _ _ _ _ Hset) in Hn.
    destruct (IH Hn) as [Hu (m & Hd & Hm)].
    destruct (set_vertex_key_inv g x k g' Hn (proj1 Hx) Hset) as [Hxv ->].
    split.
    + intros u v Hne. rewrite !edges_to_set_key by lia. by apply Hu.
    + exists m. split; [|done]. unfold degree_sum in *. simpl.
      unfold order in Hxv.
      rewrite (sum_list_with_alter _ _ 0); [lia|done|lia].
  - rewrite (keeps_order_set_edge_weight _ _ _ _ _ _ Hset) in Hn.
    destruct (IH Hn) as [Hu (m & Hd & Hm)].
    destruct (set_edge_weight_inv g x y w g' Hn Hu (proj1 Hx) (proj1 Hy) Hset)
      as [Hin ->].
    pose proof (gneighbors_valid _ _ _ Hin) as Hxv.
    pose proof (gneighbors_valid _ _ _ (undirected_sym g x y Hu Hin)) as Hyv.
    split; [by apply undirected_new_weight|].
    exists m. split; [|done]. by rewrite degree_sum_new_weight.
Qed.

End GraphBuilt.

(** ** The graph: what the accessors return *)

Section GraphAccess.
Context {vtype etype : Type}.
Implicit Types (g : Graph vtype etype) (l : list (Edge etype)).

Lemma find_from_head i l (n : vertID) :
  (if 0 <=? find_from i l n then l !! Z.to_nat (find_from i l n - i) else None)
  = head (filter (λ e, neigh e = n) l) ∨ i < 0.
Proof.
  destruct (decide (i < 0)) as [|Hi]; [by right|left].
  revert i Hi. induction l as [|e l IH]; intros i Hi; [done|].
  simpl find_from. rewrite filter_cons.
  destruct (Z.eqb_spec (neigh e) n) as [E|E].
  - rewrite decide_True by done.
    replace (0 <=? i) with true by (symmetry; apply Z.leb_le; lia).
    by replace (Z.to_nat (i - i)) with 0%nat by lia.
  - rewrite decide_False by done.
    rewrite <- (IH (i + 1)) by lia.
    destruct (find_from_ge (i + 1) l n) as [Hge| ->]; [|done].
    replace (0 <=? find_from (i + 1) l n) with true
      by (symmetry; apply Z.leb_le; lia).
    replace (Z.to_nat (find_from (i + 1) l n - i))
      with (S (Z.to_nat (find_from (i + 1) l n - (i + 1)))) by lia.
    done.
Qed.

(** [Vertex::get_weight] returns the weight of the first edge to [n]. *)
Lemma get_weight_head (v : Vertex vtype etype) n :
  get_weight v n = val <$> head (filter (λ e, neigh e = n) (elist v)).
Proof.
  unfold get_weight, find.
  destruct (find_from_head 0 (elist v) n) as [H|]; [|lia].
  rewrite <- H. rewrite Z.sub_0_r. by destruct (0 <=? _).
Qed.

Lemma get_edge_weight_head g x y :
  order g < 2 ^ 32 → 0 <= x < order g → y < order g →
  get_edge_weight x y g
  = match head (edges_to g x y) with
    | Some e => Ret (val e, g)
    | None => Abort
    end.
Proof.
  intros Hn Hx Hy. unfold get_edge_weight.
  rewrite (bind_Ret _ _ _ _ _ (validate_vertices_eq g x y Hn (proj2 Hx) Hy)).
  destruct (at_index_is_Some (vlist g) x Hx) as [vx Hvx].
  rewrite (bind_Ret _ _ _ _ _ (vertex_at_eq g x vx Hvx)).
  unfold edges_to. rewrite Hvx. simpl. rewrite get_weight_head.
  by destruct (head _).
Qed.

Lemma is_vertex_eq g x :
  order g < 2 ^ 32 → is_vertex x g = Ret (bool_decide (x < order g), g).
Proof.
  intros Hn. unfold is_vertex.
  rewrite (bind_Ret _ _ _ _ _ (get_nodes_eq g Hn)). munfold.
  do 2 f_equal. destruct (Z.ltb_spec x (order g)).
  - by rewrite bool_decide_eq_true_2.
  - by rewrite bool_decide_eq_false_2 by lia.
Qed.

(** *** [Vertex::del] *)

Lemma find_from_split i l (n : vertID) :
  0 <= i → n ∈ neigh <$> l →
  ∃ l1 e l2, l = l1 ++ e :: l2 ∧ neigh e = n ∧ (n ∉ neigh <$> l1) ∧
             find_from i l n = i + Z.of_nat (length l1).
Proof.
  intros Hi Hin.
  destruct (find_from_found i l n Hi Hin) as (k & e & Hf & He & Hn & Hfirst).
  exists (take k l), e, (drop (S k) l). split_and!.
  - by rewrite take_drop_middle.
  - done.
  - intros (e' & He' & Hin')%list_elem_of_fmap.
    apply list_elem_of_lookup in Hin' as [j Hj].
    pose proof (lookup_lt_Some _ _ _ Hj) as Hlt.
    rewrite length_take in Hlt.
    rewrite lookup_take_lt in Hj by lia.
    apply (Hfirst j e'); [lia|done|done].
  - rewrite length_take. apply lookup_lt_Some in He. rewrite Hf. lia.
Qed.

(** [del] removes the first edge to [n], and only that one; without such an
    edge it changes nothing. *)
Lemma del_spec (v : Vertex vtype etype) n :
  ((n ∉ vertex_get_neighbors v) ∧ del n v = (false, v)) ∨
  (∃ l1 e l2, elist v = l1 ++ e :: l2 ∧ neigh e = n ∧ (n ∉ neigh <$> l1) ∧
              del n v = (true, {| key := key v; elist := l1 ++ l2 |})).
Proof.
  destruct (decide (n ∈ vertex_get_neighbors v)) as [Hin|Hno].
  - right.
    destruct (find_from_split 0 (elist v) n ltac:(lia) Hin)
      as (l1 & e & l2 & Hl & He & Hl1 & Hf).
    exists l1, e, l2. split_and!; try done.
    unfold del, find. rewrite Hf.
    replace (0 <=? 0 + Z.of_nat (length l1)) with true
      by (symmetry; apply Z.leb_le; lia).
    do 2 f_equal. rewrite Hl.
    replace (Z.to_nat (0 + Z.of_nat (length l1))) with (length l1) by lia.
    by rewrite delete_middle.
  - left. split; [done|]. unfold del, find.
    by rewrite find_from_missing.
Qed.

Lemma find_from_app_missing i l l' (n : vertID) :
  n ∉ neigh <$> l →
  find_from i (l ++ l') n = find_from (i + Z.of_nat (length l)) l' n.
Proof.
  revert i. induction l as [|e l IH]; intros i Hno; simpl.
  { f_equal. lia. }
  rewrite fmap_cons in Hno. apply not_elem_of_cons in Hno as [Hne Hno].
  destruct (Z.eqb_spec (neigh e) n) as [E|E]; [done|].
  rewrite IH by done. f_equal. lia.
Qed.

(** [del] undoes [add], when the edge was not there before. *)
Lemma del_add (v : Vertex vtype etype) n (w : etype) :
  n ∉ vertex_get_neighbors v → del n (add n w v) = (true, v).
Proof.
  intros Hno. unfold del, find, add. simpl.
  rewrite find_from_app_missing by done. simpl.
  rewrite Z.eqb_refl.
  replace (0 <=? 0 + Z.of_nat (length (elist v))) with true
    by (symmetry; apply Z.leb_le; lia).
  replace (Z.to_nat (0 + Z.of_nat (length (elist v))))
    with (length (elist v)) by lia.
  rewrite delete_middle, app_nil_r. by destruct v.
Qed.

End GraphAccess.

(** ** The graph: [clone] *)

Section GraphClone.
Context {vtype etype : Type}.
Implicit Types (g s : Graph vtype etype).

Lemma gkey_with_new_edge g x y (w : etype) u :
  0 <= x → 0 <= y → gkey (with_new_edge x y w g) u = gkey g u.
Proof.
  intros Hx Hy. unfold gkey, with_new_edge. simpl.
  rewrite !at_index_alter by lia.
  destruct (at_index (vlist g) u); repeat case_decide; done.
Qed.

(** The first loop of [clone]: the vertices of [g], with their keys and
    without edges. *)
Lemma clone_vertices g s :
  order g < 2 ^ 32 → built s → vlist s = [] →
  wp (for_upto (order g) (λ i, k ← ask g (get_vertex_key i); add_vertex k)) s
     (λ _ s', vlist s' = (λ v, mkVertex (key v) []) <$> vlist g ∧
              nedges s' = nedges s ∧ built s').
Proof.
  intros Hn Hb Hnil.
  eapply wp_mono.
  { apply (wp_for_upto (λ k s',
      vlist s' = (λ v, mkVertex (key v) []) <$> take (Z.to_nat k) (vlist g) ∧
      nedges s' = nedges s ∧ built s')).
    - unfold order. lia.
    - by rewrite Hnil.
    - intros k s' Hk (Hv & He & Hb').
      assert (Hk' : 0 <= k < Z.of_nat (length (vlist g))) by done.
      destruct (at_index_is_Some (vlist g) k Hk') as [v Hvk].
      apply wp_bind. eapply wp_eq.
      { eapply ask_eq. apply gkey_Some; [done|]. unfold gkey. by rewrite Hvk. }
      eapply wp_eq; [apply add_vertex_eq|]. simpl. split_and!.
      + rewrite Hv. replace (Z.to_nat (k + 1)) with (S (Z.to_nat k)) by lia.
        unfold at_index in Hvk.
        replace (0 <=? k) with true in Hvk by (symmetry; apply Z.leb_le; lia).
        rewrite (take_S_r _ _ _ Hvk), fmap_app. done.
      + done.
      + eapply built_add_vertex; [exact Hb'|apply add_vertex_eq]. }
  intros [] s' (Hv & He & Hb'). split_and!; try done.
  rewrite Hv. unfold order. by rewrite Nat2Z.id, firstn_all.
Qed.

(** The edges copied once the second loop is at the row [i] and the
    column [j]. *)
Lemma clone_edges g s :
  order g < 2 ^ 32 → undirected g → built s →
  vlist s = (λ v, mkVertex (key v) []) <$> vlist g →
  wp (for_upto (order g) (λ i,
        for_upto i (λ j,
          a ← ask g (is_adjacent i j);
          if (a : bool)
          then w ← ask g (get_edge_weight i j); add_edge i j w
          else mret tt))) s
     (λ _ s', order s' = order g ∧ (∀ x, gkey s' x = gkey g x) ∧
              (∀ x y, x ≠ y → edges_to s' x y = edges_to g x y) ∧
              (∀ x, edges_to s' x x = []) ∧ built s').
Proof.
  intros Hn Hu Hb Hv.
  set (P := λ (i j : Z) (s' : Graph vtype etype),
    order s' = order g ∧ (∀ x, gkey s' x = gkey g x) ∧
    (∀ x y, 0 <= x → 0 <= y → x ≠ y →
       edges_to s' x y
       = if decide (Z.max x y < i ∨ (Z.max x y = i ∧ Z.min x y < j))
         then edges_to g x y else []) ∧
    (∀ x, edges_to s' x x = []) ∧ built s').
  assert (Hnone : ∀ x y, edges_to s x y = []).
  { intros x y. unfold edges_to, at_index. rewrite Hv.
    destruct (0 <=? x); [|done]. rewrite list_lookup_fmap.
    by destruct (vlist g !! Z.to_nat x). }
  assert (Hstart : P 0 0 s).
  { unfold P. split_and!; try done.
    - unfold order. by rewrite Hv, length_fmap.
    - intros x. unfold gkey, at_index. rewrite Hv.
      destruct (0 <=? x); [|done]. rewrite list_lookup_fmap.
      by destruct (vlist g !! Z.to_nat x).
    - intros x y Hx Hy Hne. rewrite Hnone, decide_False; [done|lia]. }
  eapply wp_mono.
  { apply (wp_for_upto (λ i s', P i 0 s')); [unfold order; lia|done|].
    intros i s1 Hi HP.
    eapply wp_mono.
    { apply (wp_for_upto (λ j s', P i j s')); [lia|done|].
      clear s1 HP. intros j s1 Hj (Ho & Hk & He & Hl & Hb1).
      assert (Hij : i ≠ j) by lia.
      assert (Hnot : edges_to s1 i j = []).
      { rewrite He by lia. rewrite decide_False; [done|lia]. }
      assert (Hstep : ∀ x y, 0 <= x → 0 <= y → x ≠ y →
                ¬ (x = i ∧ y = j) → ¬ (x = j ∧ y = i) →
                (Z.max x y < i ∨ (Z.max x y = i ∧ Z.min x y < j + 1))
                ↔ (Z.max x y < i ∨ (Z.max x y = i ∧ Z.min x y < j))) by lia.
      apply wp_bind. eapply wp_eq.
      { eapply ask_eq. apply is_adjacent_eq; [done|unfold order in *; lia..]. }
      case_bool_decide as Hadj.
      - destruct (undirected_single g i j Hu Hij Hadj) as (w & E1 & E2).
        apply wp_bind. eapply wp_eq.
        { eapply ask_eq. apply get_edge_weight_eq; [done| |exact E1].
          unfold order in *. lia. }
        eapply wp_eq.
        { apply add_edge_new.
          - unfold order in *. lia.
          - unfold order in *. lia.
          - unfold order in *. lia.
          - by apply edges_to_nil_iff. }
        unfold P. split_and!.
        + unfold order. by rewrite length_with_new_edge.
        + intros x. rewrite gkey_with_new_edge by lia. apply Hk.
        + intros x y Hx Hy Hne.
          rewrite edges_to_with_new_edge by lia.
          destruct (decide (x = i ∧ y = j)) as [[-> ->]|H1].
          { rewrite Hnot, E1. rewrite (decide_False (P := i = j ∧ j = i)) by lia.
            rewrite !decide_True by lia. done. }
          destruct (decide (x = j ∧ y = i)) as [[-> ->]|H2].
          { rewrite (He j i) by lia.
            rewrite (decide_False (P := _ ∨ _)) by lia.
            rewrite (decide_False (P := j = i ∧ i = j)) by lia.
            rewrite E2, !decide_True by lia. done. }
          rewrite ?(decide_False (P := x = i ∧ y = j)) by done.
          rewrite ?(decide_False (P := x = j ∧ y = i)) by done.
          rewrite He, !app_nil_r by done.
          by rewrite (decide_ext _ _ _ _ (Hstep x y Hx Hy Hne H1 H2)).
        + intros x. rewrite edges_to_with_new_edge by lia.
          rewrite Hl. by rewrite !decide_False by lia.
        + apply (built_add_edge s1 i j w); [exact Hb1| | |].
          * unfold is_vertID. lia.
          * unfold is_vertID. lia.
          * apply add_edge_new; [unfold order in *; lia..|].
            by apply edges_to_nil_iff.
      - apply wp_ret. unfold P. split_and!; try done.
        intros x y Hx Hy Hne.
        assert (E1 : edges_to g i j = []) by by apply edges_to_nil_iff.
        assert (E2 : edges_to g j i = []).
        { destruct (Hu i j Hij) as [_ Hval]. rewrite E1 in Hval.
          symmetry in Hval. by apply fmap_nil_inv in Hval. }
        destruct (decide (x = i ∧ y = j)) as [[-> ->]|H1].
        { rewrite Hnot, E1. by case_decide. }
        destruct (decide (x = j ∧ y = i)) as [[-> ->]|H2].
        { rewrite (He j i) by lia. rewrite decide_False by lia.
          rewrite E2. by case_decide. }
        rewrite He by done.
        by rewrite (decide_ext _ _ _ _ (Hstep x y Hx Hy Hne H1 H2)). }
    intros [] s2 (Ho & Hk & He & Hl & Hb2). unfold P. split_and!; try done.
    intros x y Hx Hy Hne. rewrite He by done.
    apply decide_ext. lia. }
  intros [] s' (Ho & Hk & He & Hl & Hb'). split_and!; try done.
  intros x y Hne.
  destruct (decide (0 <= x < order g ∧ 0 <= y < order g)) as [[Hx Hy]|Hout].
  - rewrite He by lia. rewrite decide_True; [done|lia].
  - destruct (decide (0 <= x < order g)) as [Hx|Hx].
    + assert (E : edges_to g y x = [])
        by (apply edges_to_out; lia).
      destruct (Hu x y Hne) as [_ Hval]. rewrite E in Hval.
      apply fmap_nil_inv in Hval. rewrite Hval.
      destruct (decide (0 <= y)) as [Hy|Hy].
      * rewrite He by lia. rewrite decide_False; [done|lia].
      * assert (E' : edges_to s' y x = [])
          by (apply edges_to_out; lia).
        destruct (built_invariant s' Hb' ltac:(lia)) as [Hu' _].
        destruct (Hu' x y Hne) as [_ Hval']. rewrite E' in Hval'.
        by apply fmap_nil_inv in Hval'.
    + rewrite (edges_to_out g) by done. apply edges_to_out. lia.
Qed.

(** [clone] into an empty graph copies the vertices with their keys and the
    edges between distinct vertices with their weights. *)
Lemma clone_spec g :
  order g < 2 ^ 32 → undirected g →
  wp (clone g) empty_graph
     (λ _ g', order g' = order g ∧ (∀ x, gkey g' x = gkey g x) ∧
              (∀ x y, x ≠ y → edges_to g' x y = edges_to g x y) ∧
              (∀ x, edges_to g' x x = []) ∧ built g').
Proof.
  intros Hn Hu. unfold clone.
  apply wp_bind. eapply wp_eq; [eapply ask_eq, get_nodes_eq; done|].
  apply wp_bind. eapply wp_mono.
  { apply clone_vertices; [done|apply built_empty|done]. }
  intros [] s (Hv & _ & Hb).
  by apply clone_edges.
Qed.

End GraphClone.

(** ** New games, copies and the construction of the players *)

Lemma length_bind_const {A B} (f : A → list B) (l : list A) n :
  (∀ a, a ∈ l → length (f a) = n) → length (l ≫= f) = (length l * n)%nat.
Proof.
  induction l as [|a l IH]; intros Hf; [done|].
  rewrite bind_cons, length_app, IH, Hf; [simpl; lia|by left|].
  intros a' Ha'. apply Hf. by right.
Qed.

Lemma length_playable b :
  0 <= rel_dim b → Z.of_nat (length (playable b)) = rel_dim b * rel_dim b.
Proof.
  intros Hd. unfold playable.
  rewrite (length_bind_const _ _ (Z.to_nat (rel_dim b))).
  - rewrite length_seqZ. lia.
  - intros a _. by rewrite length_fmap, length_seqZ.
Qed.

(** A board whose playable cells are all free. *)
Lemma free_cells_all b :
  (∀ v, v ∈ playable b → label b v = Some WHITE) → free_cells b = playable b.
Proof.
  intros Hall. unfold free_cells.
  induction (playable b) as [|v l IH]; [done|].
  rewrite filter_cons, decide_True by (apply Hall; by left).
  f_equal. apply IH. intros u Hu. apply Hall. by right.
Qed.

(** The constructor refuses the dimensions up to 2. *)
Lemma new_HexBoard_small d : 0 <= d <= 2 → new_HexBoard d = Abort.
Proof.
  intros Hd. assert (H32 : 2 ^ 32 = 4294967296) by reflexivity.
  unfold new_HexBoard. rewrite (u32_small d) by lia. simpl.
  rewrite bind_unfold. unfold assert.
  by replace (2 <? d) with false by (symmetry; apply Z.ltb_ge; lia).
Qed.

(** [clone_board_state] refuses a board of another size. *)
Lemma clone_board_state_mismatch other b :
  nodes b < 2 ^ 32 → nodes other < 2 ^ 32 → nodes other ≠ nodes b →
  clone_board_state other b = Abort.
Proof.
  intros Hb Ho Hne. unfold clone_board_state.
  rewrite (bind_Ret _ _ _ _ _ (base_get_nodes b Hb)).
  rewrite (bind_Ret _ _ _ _ _ (ask_eq _ _ b _ _ (base_get_nodes other Ho))).
  rewrite bind_unfold. unfold assert.
  by replace (nodes b =? nodes other) with false
    by (symmetry; apply Z.eqb_neq; lia).
Qed.

(** The scratch board of a new Monte Carlo player is a new board of the
    dimension of the game board. *)
Lemma new_AIMonteCarloPlayer_eq {RNG} (seed : RNG) b :
  wf_board b →
  ∃ gc, new_AIMonteCarloPlayer seed b = Ret (mkAI b seed gc 1000) ∧
        fresh_board (abs_dim b) gc ∧ rel_dim gc = rel_dim b.
Proof.
  intros Hwf. pose proof (wf_rel_dim_small b Hwf) as Hd.
  pose proof (wf_dims _ Hwf) as [H1 H2 H3 H4 H5].
  destruct (new_HexBoard_spec (rel_dim b) ltac:(lia) ltac:(rewrite <- H2; lia))
    as (gc & Hgc & Hf & Hrel).
  exists gc. split_and!; try done.
  - unfold new_AIMonteCarloPlayer, get_playable_dim. rewrite bind_get_state.
    unfold to_int.
    replace (rel_dim b <? 2 ^ 31) with true
      by (symmetry; apply Z.ltb_lt; lia).
    simpl. by rewrite Hgc.
  - by rewrite H2.
Qed.

Lemma fresh_nodes ad b : fresh_board ad b → nodes b = ad * ad.
Proof.
  intros Hf. rewrite (wf_nodes _ (fresh_wf _ _ Hf)).
  by rewrite (fresh_abs _ _ Hf).
Qed.

(** ** The player who moves a cursor with the arrows *)

Section ArrowPlayer.
Variables ICANON ECHO EOF : Z.
Variable to_char : Z → Z.

Lemma get_playable_dim_eq b :
  wf_board b → get_playable_dim b = Ret (rel_dim b, b).
Proof.
  intros Hwf. pose proof (wf_rel_dim_small b Hwf) as Hd.
  unfold get_playable_dim. rewrite bind_get_state. unfold to_int.
  by replace (rel_dim b <? 2 ^ 31) with true by (symmetry; apply Z.ltb_lt; lia).
Qed.

(** [commit_if_valid] moves the cursor to a cell of the playable area, and
    leaves it where it is otherwise. *)
Lemma commit_if_valid_eq row col (s : ArrowHumanPlayer.t) :
  wf_board (ArrowHumanPlayer.board s) →
  ArrowHumanPlayer.commit_if_valid row col s
  = Ret (tt, if (0 <=? row) && (row <? rel_dim (ArrowHumanPlayer.board s))
                && (0 <=? col) && (col <? rel_dim (ArrowHumanPlayer.board s))
             then ArrowHumanPlayer.mk (ArrowHumanPlayer.board s)
                    (ArrowHumanPlayer.terminal s) row col
             else s).
Proof.
  intros Hwf. unfold ArrowHumanPlayer.commit_if_valid.
  rewrite bind_get_state.
  destruct (0 <=? row); [|done].
  rewrite bind_unfold, bind_unfold. unfold ask at 1.
  rewrite (get_playable_dim_eq _ Hwf).
  unfold mret, M_ret. cbv beta iota.
  destruct (row <? rel_dim (ArrowHumanPlayer.board s)); [|done].
  destruct (0 <=? col); [|done].
  rewrite bind_unfold, bind_unfold. unfold ask at 1.
  rewrite (get_playable_dim_eq _ Hwf).
  unfold mret, M_ret. cbv beta iota.
  by destruct (col <? rel_dim (ArrowHumanPlayer.board s)).
Qed.

Lemma on_terminal_eq {A} (m : M Terminal A) (s : ArrowHumanPlayer.t) a tm :
  m (ArrowHumanPlayer.terminal s) = Ret (a, tm) →
  ArrowHumanPlayer.on_terminal m s
  = Ret (a, ArrowHumanPlayer.mk (ArrowHumanPlayer.board s) tm
              (ArrowHumanPlayer.y s) (ArrowHumanPlayer.x s)).
Proof. intros H. unfold ArrowHumanPlayer.on_terminal, lift. by rewrite H. Qed.

(** [read] always returns a key. *)
Lemma read_total tm :
  ∃ code tm', Cursor.read ICANON ECHO EOF to_char tm = Ret (code, tm').
Proof.
  unfold Cursor.read, Cursor.set_terminal_state, Cursor.getchar. munfold.
  destruct (stdin tm) as [|c [|c' [|c'' rest]]]; simpl;
    repeat (match goal with
            | |- context [if ?c =? ?d then _ else _] =>
                destruct (c =? d); simpl
            end); eauto.
Qed.

(** A character that is not [ESC] is the key. *)
Lemma read_plain tm c rest :
  stdin tm = c :: rest → to_char c ≠ ESC →
  ∃ fl, Cursor.read ICANON ECHO EOF to_char tm
        = Ret (to_char c, mkTerminal rest fl).
Proof.
  intros Hin Hc.
  unfold Cursor.read, Cursor.set_terminal_state, Cursor.getchar. munfold.
  rewrite Hin. simpl.
  replace (to_char c =? ESC) with false by (symmetry; by apply Z.eqb_neq).
  simpl. eauto.
Qed.

(** After [ESC] and [[], the third character is the key. *)
Lemma read_escape tm c rest :
  stdin tm = ESC :: 91 :: c :: rest → to_char ESC = ESC → to_char 91 = 91 →
  ∃ fl, Cursor.read ICANON ECHO EOF to_char tm
        = Ret (to_char c, mkTerminal rest fl).
Proof.
  intros Hin H1 H2.
  unfold Cursor.read, Cursor.set_terminal_state, Cursor.getchar. munfold.
  rewrite Hin. simpl. rewrite H1. simpl. rewrite H2. simpl. eauto.
Qed.

Lemma int_result_eq {St} z (s : St) :
  is_int z → int_result z s = Ret (z, s).
Proof.
  intros [H1 H2]. unfold int_result.
  replace (- 2 ^ 31 <=? z) with true by (symmetry; by apply Z.leb_le).
  by replace (z <? 2 ^ 31) with true by (symmetry; by apply Z.ltb_lt).
Qed.

(** One iteration of the loop of [play] on a key that is not [SPACE]: the
    cursor goes where [arrow_step] says. *)
Lemma arrow_move code (s : ArrowHumanPlayer.t) :
  cursor_ok s →
  let d := rel_dim (ArrowHumanPlayer.board s) in
  let pos := arrow_step d (ArrowHumanPlayer.y s, ArrowHumanPlayer.x s) code in
  let s' := ArrowHumanPlayer.mk (ArrowHumanPlayer.board s)
              (ArrowHumanPlayer.terminal s) pos.1 pos.2 in
  cursor_ok s' ∧
  ∀ A (k : M ArrowHumanPlayer.t A),
    (if code =? UP then
       r ← int_result (ArrowHumanPlayer.y s - 1);
       ArrowHumanPlayer.commit_if_valid r (ArrowHumanPlayer.x s);; k
     else if code =? DOWN then
       r ← int_result (ArrowHumanPlayer.y s + 1);
       ArrowHumanPlayer.commit_if_valid r (ArrowHumanPlayer.x s);; k
     else if code =? LEFT then
       c ← int_result (ArrowHumanPlayer.x s - 1);
       ArrowHumanPlayer.commit_if_valid (ArrowHumanPlayer.y s) c;; k
     else if code =? RIGHT then
       c ← int_result (ArrowHumanPlayer.x s + 1);
       ArrowHumanPlayer.commit_if_valid (ArrowHumanPlayer.y s) c;; k
     else k) s = k s'.
Proof.
  intros (Hwf & Hy & Hx) d pos s'.
  pose proof (wf_rel_dim_small _ Hwf) as Hd.
  assert (Hint : ∀ z, -1 <= z <= rel_dim (ArrowHumanPlayer.board s) →
                      is_int z) by (unfold is_int; lia).
  assert (Hsame : s = ArrowHumanPlayer.mk (ArrowHumanPlayer.board s)
                        (ArrowHumanPlayer.terminal s)
                        (ArrowHumanPlayer.y s) (ArrowHumanPlayer.x s))
    by by destruct s.
  assert (Hstep : ∀ row col A (k : M ArrowHumanPlayer.t A),
    is_int row → is_int col →
    (r ← int_result row; ArrowHumanPlayer.commit_if_valid r col;; k) s
    = k (if (0 <=? row) && (row <? d) && (0 <=? col) && (col <? d)
         then ArrowHumanPlayer.mk (ArrowHumanPlayer.board s)
                (ArrowHumanPlayer.terminal s) row col
         else s) ∧
    (c ← int_result col; ArrowHumanPlayer.commit_if_valid row c;; k) s
    = k (if (0 <=? row) && (row <? d) && (0 <=? col) && (col <? d)
         then ArrowHumanPlayer.mk (ArrowHumanPlayer.board s)
                (ArrowHumanPlayer.terminal s) row col
         else s)).
  { intros row col A k Hr Hc. split.
    - rewrite (bind_Ret _ _ _ _ _ (int_result_eq row s Hr)).
      by rewrite (bind_Ret _ _ _ _ _ (commit_if_valid_eq row col s Hwf)).
    - rewrite (bind_Ret _ _ _ _ _ (int_result_eq col s Hc)).
      by rewrite (bind_Ret _ _ _ _ _ (commit_if_valid_eq row col s Hwf)). }
  assert (Hok : ∀ row col,
    cursor_ok (if (0 <=? row) && (row <? d) && (0 <=? col) && (col <? d)
               then ArrowHumanPlayer.mk (ArrowHumanPlayer.board s)
                      (ArrowHumanPlayer.terminal s) row col
               else s)).
  { intros row col.
    destruct ((0 <=? row) && (row <? d) && (0 <=? col) && (col <? d)) eqn:E;
      [|done].
    rewrite !andb_true_iff, !Z.leb_le, !Z.ltb_lt in E.
    unfold cursor_ok. simpl. fold d. split_and!; try done; lia. }
  assert (Hs' : ∀ row col,
    (if (0 <=? row) && (row <? d) && (0 <=? col) && (col <? d)
     then (row, col) else (ArrowHumanPlayer.y s, ArrowHumanPlayer.x s))
    = pos →
    (if (0 <=? row) && (row <? d) && (0 <=? col) && (col <? d)
     then ArrowHumanPlayer.mk (ArrowHumanPlayer.board s)
            (ArrowHumanPlayer.terminal s) row col
     else s) = s').
  { intros row col E. unfold s'. rewrite <- E.
    destruct ((0 <=? row) && (row <? d) && (0 <=? col) && (col <? d));
      [done|by destruct s]. }
  assert (Hyi : is_int (ArrowHumanPlayer.y s)) by (apply Hint; lia).
  assert (Hxi : is_int (ArrowHumanPlayer.x s)) by (apply Hint; lia).
  assert (Hy1 : is_int (ArrowHumanPlayer.y s - 1)) by (apply Hint; lia).
  assert (Hy2 : is_int (ArrowHumanPlayer.y s + 1)) by (apply Hint; lia).
  assert (Hx1 : is_int (ArrowHumanPlayer.x s - 1)) by (apply Hint; lia).
  assert (Hx2 : is_int (ArrowHumanPlayer.x s + 1)) by (apply Hint; lia).
  unfold pos, arrow_step in Hs'. simpl in Hs'.
  destruct (code =? UP).
  { rewrite <- (Hs' _ _ eq_refl). split; [apply Hok|]. intros A k.
    by apply (Hstep (ArrowHumanPlayer.y s - 1) (ArrowHumanPlayer.x s)). }
  destruct (code =? DOWN).
  { rewrite <- (Hs' _ _ eq_refl). split; [apply Hok|]. intros A k.
    by apply (Hstep (ArrowHumanPlayer.y s + 1) (ArrowHumanPlayer.x s)). }
  destruct (code =? LEFT).
  { rewrite <- (Hs' _ _ eq_refl). split; [apply Hok|]. intros A k.
    by apply (Hstep (ArrowHumanPlayer.y s) (ArrowHumanPlayer.x s - 1)). }
  destruct (code =? RIGHT).
  { rewrite <- (Hs' _ _ eq_refl). split; [apply Hok|]. intros A k.
    by apply (Hstep (ArrowHumanPlayer.y s) (ArrowHumanPlayer.x s + 1)). }
  rewrite <- (Hs' _ _ eq_refl). split; [apply Hok|]. intros A k. simpl.
  destruct ((0 <=? ArrowHumanPlayer.y s) && (ArrowHumanPlayer.y s <? d)
            && (0 <=? ArrowHumanPlayer.x s) && (ArrowHumanPlayer.x s <? d));
    [by rewrite <- Hsame | done].
Qed.

(** One iteration of the loop of [play]. *)
Lemma arrow_play_step fuel (s : ArrowHumanPlayer.t) code tm :
  cursor_ok s →
  Cursor.read ICANON ECHO EOF to_char (ArrowHumanPlayer.terminal s)
  = Ret (code, tm) →
  let d := rel_dim (ArrowHumanPlayer.board s) in
  let pos := arrow_step d (ArrowHumanPlayer.y s, ArrowHumanPlayer.x s) code in
  let s' := ArrowHumanPlayer.mk (ArrowHumanPlayer.board s) tm pos.1 pos.2 in
  cursor_ok s' ∧
  ArrowHumanPlayer.play ICANON ECHO EOF to_char (S fuel) s
  = if code =? SPACE
    then Ret ((ArrowHumanPlayer.y s, ArrowHumanPlayer.x s),
              ArrowHumanPlayer.mk (ArrowHumanPlayer.board s) tm
                (ArrowHumanPlayer.y s) (ArrowHumanPlayer.x s))
    else ArrowHumanPlayer.play ICANON ECHO EOF to_char fuel s'.
Proof.
  intros Hok Hread d pos s'.
  set (s1 := ArrowHumanPlayer.mk (ArrowHumanPlayer.board s) tm
               (ArrowHumanPlayer.y s) (ArrowHumanPlayer.x s)).
  assert (Hok1 : cursor_ok s1) by done.
  destruct (arrow_move code s1 Hok1) as [Hok' Hmove].
  split; [exact Hok'|].
  simpl ArrowHumanPlayer.play.
  rewrite (bind_Ret _ _ _ _ _ (on_terminal_eq _ s _ _ Hread)).
  fold s1. rewrite bind_get_state.
  destruct (Z.eqb_spec code SPACE) as [->|Hne]; [done|].
  apply (Hmove _ (ArrowHumanPlayer.play ICANON ECHO EOF to_char fuel)).
Qed.

(** Whatever is typed, [play] does not fail, and the move that it returns
    is the cursor, on the playable area. *)
Lemma arrow_play_safe fuel (s : ArrowHumanPlayer.t) :
  cursor_ok s →
  ArrowHumanPlayer.play ICANON ECHO EOF to_char fuel s = OutOfFuel ∨
  ∃ s', ArrowHumanPlayer.play ICANON ECHO EOF to_char fuel s
        = Ret ((ArrowHumanPlayer.y s', ArrowHumanPlayer.x s'), s') ∧
        ArrowHumanPlayer.board s' = ArrowHumanPlayer.board s ∧
        cursor_ok s'.
Proof.
  revert s. induction fuel as [|fuel IH]; intros s Hok; [by left|].
  destruct (read_total (ArrowHumanPlayer.terminal s)) as (code & tm & Hread).
  destruct (arrow_play_step fuel s code tm Hok Hread) as [Hok' ->].
  destruct (code =? SPACE).
  - right.
    exists (ArrowHumanPlayer.mk (ArrowHumanPlayer.board s) tm
              (ArrowHumanPlayer.y s) (ArrowHumanPlayer.x s)).
    by split_and!.
  - destruct (IH _ Hok') as [->|(s' & -> & Hb & Hok'')]; [by left|].
    right. exists s'. by split_and!.
Qed.

Section Typing.
Hypothesis to_char_ascii : ∀ z, 0 <= z <= 127 → to_char z = z.

(** The keys typed before [SPACE] take the cursor where [arrow_step] says,
    one after the other, and [SPACE] returns it. *)
Lemma arrow_play_keys (keys : list (bool * Z)) rest (s : ArrowHumanPlayer.t) :
  cursor_ok s →
  Forall (λ k, 0 <= k.2 <= 127 ∧ k.2 ≠ SPACE ∧ (k.1 = false → k.2 ≠ ESC))
         keys →
  stdin (ArrowHumanPlayer.terminal s)
  = (keys ≫= key_chars) ++ SPACE :: rest →
  let pos := foldl (arrow_step (rel_dim (ArrowHumanPlayer.board s)))
                   (ArrowHumanPlayer.y s, ArrowHumanPlayer.x s)
                   (snd <$> keys) in
  ∃ fl, ArrowHumanPlayer.play ICANON ECHO EOF to_char (S (length keys)) s
        = Ret (pos, ArrowHumanPlayer.mk (ArrowHumanPlayer.board s)
                      (mkTerminal rest fl) pos.1 pos.2).
Proof.
  revert s. induction keys as [|[esc c] keys IH]; intros s Hok Hkeys Hin pos.
  - simpl in Hin.
    destruct (read_plain (ArrowHumanPlayer.terminal s) SPACE rest Hin)
      as [fl Hread].
    { rewrite to_char_ascii by (unfold SPACE; lia). done. }
    rewrite to_char_ascii in Hread by (unfold SPACE; lia).
    simpl length.
    destruct (arrow_play_step 0 s SPACE _ Hok Hread) as [_ ->].
    exists fl. done.
  - apply Forall_cons in Hkeys as [(Hc & Hsp & Hesc) Hkeys].
    simpl in Hc, Hsp, Hesc. rewrite bind_cons in Hin.
    unfold key_chars at 1 in Hin. simpl in Hin.
    assert (Hread : ∃ fl,
      Cursor.read ICANON ECHO EOF to_char (ArrowHumanPlayer.terminal s)
      = Ret (c, mkTerminal ((keys ≫= key_chars) ++ SPACE :: rest) fl)).
    { destruct esc; simpl in Hin.
      - destruct (read_escape _ _ _ Hin) as [fl Hr].
        + apply to_char_ascii. unfold ESC. lia.
        + apply to_char_ascii. lia.
        + exists fl. by rewrite to_char_ascii in Hr.
      - destruct (read_plain _ _ _ Hin) as [fl Hr].
        + rewrite to_char_ascii by done. by apply Hesc.
        + exists fl. by rewrite to_char_ascii in Hr. }
    destruct Hread as [fl Hread]. simpl length.
    destruct (arrow_play_step (S (length keys)) s c _ Hok Hread) as [Hok' ->].
    replace (c =? SPACE) with false by (symmetry; by apply Z.eqb_neq).
    destruct (IH _ Hok' Hkeys eq_refl) as [fl' ->]. simpl.
    exists fl'. unfold pos. simpl.
    by destruct (arrow_step _ _ c).
Qed.

End Typing.

End ArrowPlayer.

(** A new player has its cursor at the centre of the board. *)
Lemma arrow_new_eq b tm :
  wf_board b →
  ArrowHumanPlayer.new b tm
  = Ret (ArrowHumanPlayer.mk b tm (rel_dim b `quot` 2) (rel_dim b `quot` 2)) ∧
  cursor_ok (ArrowHumanPlayer.mk b tm (rel_dim b `quot` 2)
                                 (rel_dim b `quot` 2)).
Proof.
  intros Hwf. pose proof (wf_rel_dim_small b Hwf) as Hd. split.
  - unfold ArrowHumanPlayer.new, ArrowHumanPlayer.reset.
    rewrite bind_get_state. unfold ask. munfold. unfold to_int.
    by replace (rel_dim b <? 2 ^ 31) with true
      by (symmetry; apply Z.ltb_lt; lia).
  - unfold cursor_ok. simpl. split; [done|].
    pose proof (Z.quot_pos (rel_dim b) 2 ltac:(lia) ltac:(lia)).
    pose proof (Z.quot_lt (rel_dim b) 2 ltac:(lia) ltac:(lia)). lia.
Qed.

(** ** Further lemmas on moves and graphs *)

Lemma filter_ne_id {A} `{EqDecision A} (l : list A) v :
  v ∉ l → filter (λ u, u ≠ v) l = l.
Proof.
  induction l as [|a l IH]; intros Hv; [done|].
  apply not_elem_of_cons in Hv as [Hne Hv].
  by rewrite filter_cons, decide_True, IH by done.
Qed.

Lemma length_filter_remove {A} `{EqDecision A} (l : list A) v :
  NoDup l → v ∈ l →
  (length (filter (λ u, u ≠ v) l) + 1)%nat = length l.
Proof.
  intros Hnd Hin. induction l as [|a l IH]; [by apply elem_of_nil in Hin|].
  apply NoDup_cons in Hnd as [Ha Hnd]. rewrite filter_cons.
  apply elem_of_cons in Hin as [->|Hin].
  - rewrite decide_False by naive_solver. rewrite filter_ne_id by done.
    simpl. lia.
  - rewrite decide_True by (intros ->; done). simpl. by rewrite IH.
Qed.

Lemma free_cells_with_turn t b : free_cells (with_turn t b) = free_cells b.
Proof. reflexivity. Qed.

Lemma in_play_wf b : in_play b → wf_board b.
Proof. intros H. by destruct (in_play_invariant b H). Qed.

Lemma in_play_board3 : in_play board3.
Proof.
  apply (in_play_new 3); [lia | by vm_compute | exact board3_new].
Qed.

Lemma small_is_int z : -8 <= z <= 8 → is_int z.
Proof. unfold is_int. lia. Qed.

Lemma in_play_near_win : in_play near_win.
Proof.
  assert (H1 : in_play (state_after (play 1 0) board3)).
  { apply (in_play_move board3 1 0 NO_WIN);
      [apply in_play_board3 | apply small_is_int; lia | apply small_is_int; lia
      | vm_compute; reflexivity | discriminate | discriminate]. }
  assert (H2 : in_play (state_after (play 0 0)
                          (state_after (play 1 0) board3))).
  { apply (in_play_move _ 0 0 NO_WIN _ H1);
      [apply small_is_int; lia | apply small_is_int; lia
      | vm_compute; reflexivity | discriminate | discriminate]. }
  assert (H3 : in_play (state_after (play 1 1) (state_after (play 0 0)
                          (state_after (play 1 0) board3)))).
  { apply (in_play_move _ 1 1 NO_WIN _ H2);
      [apply small_is_int; lia | apply small_is_int; lia
      | vm_compute; reflexivity | discriminate | discriminate]. }
  apply (in_play_move _ 0 1 NO_WIN _ H3);
    [apply small_is_int; lia | apply small_is_int; lia
    | vm_compute; reflexivity | discriminate | discriminate].
Qed.

Lemma built_two_linked : built two_linked.
Proof.
  apply (built_add_edge
           {| nedges := 0; vlist := [mkVertex BLUE []; mkVertex RED []] |}
           0 1 5);
    [|unfold is_vertID; lia|unfold is_vertID; lia|vm_compute; reflexivity].
  apply (built_add_vertex {| nedges := 0; vlist := [mkVertex BLUE []] |} RED);
    [|reflexivity].
  apply (built_add_vertex empty_graph BLUE); [apply built_empty|reflexivity].
Qed.

Section GraphMore.
Context {vtype etype : Type}.
Implicit Types (g : Graph vtype etype).

Lemma gneighbors_new_weight g x y (w : etype) z :
  0 <= x → 0 <= y →
  gneighbors (with_new_weight x y w g) z = gneighbors g z.
Proof.
  intros Hx Hy. unfold gneighbors, with_new_weight. simpl.
  rewrite !at_index_alter by lia.
  destruct (at_index (vlist g) z) as [v|]; repeat case_decide; simpl;
    by rewrite ?neighbors_reweigh.
Qed.

Lemma gneighbors_edges_to g x y :
  y ∈ gneighbors g x ↔ edges_to g x y ≠ [].
Proof.
  split.
  - intros Hin E. by apply edges_to_nil_iff in E.
  - intros Hne. destruct (decide (y ∈ gneighbors g x)) as [|Hno]; [done|].
    by apply edges_to_nil_iff in Hno.
Qed.

Lemma is_adjacent_inv g x y a :
  order g < 2 ^ 32 → 0 <= x < order g → y < order g →
  is_adjacent x y g = Ret (a, g) → a = bool_decide (y ∈ gneighbors g x).
Proof.
  intros Hn Hx Hy Ha. rewrite is_adjacent_eq in Ha by done.
  by injection Ha as <-.
Qed.

End GraphMore.

(** ** Counting the cells, and the modes of the terminal *)

Lemma length_filter_colors (lab : vertID → option Color) (l : list vertID) :
  (∀ v, v ∈ l → lab v = Some WHITE ∨ lab v = Some BLUE ∨ lab v = Some RED) →
  length l
  = (length (filter (λ v, lab v = Some WHITE) l)
     + length (filter (λ v, lab v = Some BLUE) l)
     + length (filter (λ v, lab v = Some RED) l))%nat.
Proof.
  induction l as [|a l IH]; intros Hall; [done|].
  rewrite !filter_cons. simpl.
  rewrite IH by (intros v Hv; apply Hall; by right).
  destruct (Hall a ltac:(by left)) as [E|[E|E]]; rewrite E;
    repeat case_decide; try done; simpl; lia.
Qed.

(** In a game in progress every cell of the playable area is free or holds
    a stone of one of the players. *)
Lemma in_play_colors b v :
  in_play b → v ∈ playable b →
  label b v = Some WHITE ∨ label b v = Some BLUE ∨ label b v = Some RED.
Proof.
  intros Hin. revert v.
  induction Hin as [d b Hd Hfit Hnew|b b' Hg Hreset
                    |b row col o b' Hin IH Hr Hc Hplay Ho1 Ho2]; intros v Hv.
  - destruct (new_HexBoard_spec d Hd Hfit) as (b0 & Hb0 & Hf & _).
    rewrite Hnew in Hb0. injection Hb0 as <-.
    left. by apply (fresh_playable_free (d + 2)).
  - destruct (game_board_wf b Hg) as [Hwf _].
    destruct (reset_board_spec b (wf_dims _ Hwf)) as ([] & b0 & Hb0 & Hf & _).
    rewrite Hreset in Hb0. injection Hb0 as <-.
    left. by apply (fresh_playable_free (abs_dim b)).
  - pose proof (in_play_wf b Hin) as Hwf.
    destruct (play_cases b row col o b' Hwf Hr Hc Hplay)
      as [[-> _]|(Hr' & Hc' & Hfree & Hcase)]; [by apply IH|].
    pose proof (rel_index_valid b row col Hwf Hr' Hc') as Hi.
    simpl in Hcase.
    assert (Hlab : ∀ t, label (with_turn t
                     (paint (rel_index b row col)
                            (if p1_turn b then BLUE else RED) b)) v
                   = if decide (v = rel_index b row col)
                     then Some (if p1_turn b then BLUE else RED)
                     else label b v).
    { intros t. rewrite label_with_turn. by apply label_paint. }
    destruct Hcase as [(_ & -> & ->)|(_ & -> & ->)].
    + by destruct (p1_turn b).
    + rewrite Hlab. case_decide; [by destruct (p1_turn b); auto|].
      by apply IH.
Qed.

Lemma lor_bound a b :
  0 <= a < 2 ^ 32 → 0 <= b < 2 ^ 32 → 0 <= Z.lor a b < 2 ^ 32.
Proof.
  intros Ha Hb. assert (H32 : 2 ^ 32 = 4294967296) by reflexivity.
  assert (H0 : 0 <= Z.lor a b) by (apply Z.lor_nonneg; lia).
  split; [done|].
  destruct (decide (Z.lor a b = 0)) as [->|Hne]; [lia|].
  apply Z.log2_lt_pow2; [lia|]. rewrite Z.log2_lor by lia.
  apply Z.max_lub_lt.
  - destruct (decide (a = 0)) as [->|?]; [simpl; lia|].
    apply Z.log2_lt_pow2; lia.
  - destruct (decide (b = 0)) as [->|?]; [simpl; lia|].
    apply Z.log2_lt_pow2; lia.
Qed.

(** Clearing the bits of [m] and then setting them sets them, and leaves
    the other bits as they are. *)
Lemma clear_then_set f m :
  0 <= f < 2 ^ 32 → 0 <= m < 2 ^ 32 →
  u32 (Z.lor (u32 (Z.land f (Z.lnot m))) m) = Z.lor f m.
Proof.
  intros Hf Hm.
  pose proof (lor_bound f m Hf Hm) as Hb.
  assert (Hl : 0 <= Z.land f (Z.lnot m) < 2 ^ 32).
  { split; [apply Z.land_nonneg; lia|].
    rewrite <- Z.sub_lor_l_same_r. lia. }
  rewrite (u32_small (Z.land f (Z.lnot m))) by done.
  rewrite Z.lor_land_distr_l.
  rewrite (Z.lor_comm (Z.lnot m) m), Z.lor_lnot_diag, Z.land_m1_r.
  by apply u32_small.
Qed.

(** [read] takes one to three characters (none when the input is used up),
    and leaves the two modes of the terminal set. *)
Lemma read_terminal ICANON ECHO EOF (to_char : Z → Z) tm :
  0 <= ICANON < 2 ^ 32 → 0 <= ECHO < 2 ^ 32 → 0 <= c_lflag tm < 2 ^ 32 →
  ∃ code n,
    Cursor.read ICANON ECHO EOF to_char tm
    = Ret (code, mkTerminal (drop n (stdin tm))
                   (Z.lor (c_lflag tm) (Z.lor ICANON ECHO))) ∧
    (n ≤ 3)%nat ∧ (stdin tm ≠ [] → (1 ≤ n)%nat).
Proof.
  intros Hi He Hf.
  pose proof (lor_bound ICANON ECHO Hi He) as Hm.
  pose proof (clear_then_set (c_lflag tm) _ Hf Hm) as Hset.
  unfold Cursor.read, Cursor.set_terminal_state, Cursor.getchar. munfold.
  destruct (stdin tm) as [|c [|c' [|c'' rest]]]; simpl;
    repeat (match goal with
            | |- context [if ?c =? ?d then _ else _] =>
                destruct (c =? d); simpl
            end); rewrite Hset; eexists;
    first [ exists 0%nat; split_and!; [reflexivity|lia|intros H; lia || done]
          | exists 1%nat; split_and!; [reflexivity|lia|intros H; lia || done]
          | exists 2%nat; split_and!; [reflexivity|lia|intros H; lia || done]
          | exists 3%nat; split_and!; [reflexivity|lia|intros H; lia || done] ].
Qed.

(** ** [simulate] puts the scratch board back *)

Section SimulateRestores.
Variable RNG : Type.
Variable shuffle : RNG → list vertID → list vertID * RNG.
Hypothesis shuffle_perm : ∀ g l, (shuffle g l).1 ≡ₚ l.

(** After [simulate] on a free cell, the scratch board carries the labels
    of the game board again, and its edges are as before. *)
Lemma simulate_labels curmove fvert (st : AIMonteCarloPlayer RNG) :
  wf_board (gcopy st) →
  nodes (board st) = nodes (gcopy st) →
  0 <= curmove < nodes (gcopy st) →
  label (board st) curmove = Some WHITE →
  Forall (λ p, 0 <= p < nodes (gcopy st)) fvert →
  Forall (λ p, label (board st) p = Some WHITE) fvert →
  wp (simulate RNG shuffle curmove fvert) st (λ wins st',
    board st' = board st ∧ trials st' = trials st ∧
    same_shape (gcopy st) (gcopy st') ∧
    ∀ x, label (gcopy st') x = label (board st) x).
Proof.
  intros Hwf Hn Hcur Hcfree Hvalid Hfree.
  pose proof (wf_nodes_fit _ Hwf) as Hfit.
  unfold simulate. apply wp_bind, wp_get_state.
  apply wp_bind, wp_on_gcopy.
  eapply wp_mono; [by apply clone_board_state_spec|].
  intros [] g1 [Hs1 Hl1].
  pose proof (same_shape_nodes _ _ Hs1) as Hn1.
  apply wp_bind. eapply wp_eq; [reflexivity|]. simpl.
  set (me := if p1_turn (board st) then BLUE else RED).
  apply wp_bind, wp_on_gcopy. simpl.
  eapply wp_eq; [apply base_set_vertex_key; lia|]. simpl.
  set (g2 := paint curmove me g1).
  assert (Hs2 : same_shape (gcopy st) g2).
  { eapply same_shape_trans; [done | apply same_shape_paint]. }
  pose proof (same_shape_wf _ _ Hs2 Hwf) as Hwf2.
  pose proof (same_shape_nodes _ _ Hs2) as Hn2.
  set (tmp := filter (λ p, p ≠ curmove) fvert).
  assert (Htmp : Forall (λ p, 0 <= p < nodes g2) tmp).
  { rewrite Hn2. apply Forall_forall. intros p [_ Hp]%list_elem_of_filter.
    by eapply Forall_forall in Hvalid. }
  apply wp_bind. eapply wp_mono.
  { apply (trial_loop_spec RNG shuffle shuffle_perm _ me _ tmp 0
             (mkAI (board st) (gen st) g2 (trials st))); done. }
  intros wins st' (Hw & Hb & Ht & Hs & Hl & Hwh). simpl in *.
  pose proof (same_shape_nodes _ _ Hs) as Hn3.
  apply wp_bind, wp_on_gcopy.
  eapply wp_eq; [apply base_set_vertex_key; lia|].
  apply wp_ret. simpl. rewrite Hb, Ht. split_and!; try done.
  - eapply same_shape_trans; [|apply same_shape_paint].
    by eapply same_shape_trans.
  - intros x. rewrite label_paint by lia.
    destruct (decide (x = curmove)) as [->|E]; [done|].
    destruct (decide (x ∈ tmp)) as [Hin|Hout].
    + assert (Hx : label (board st) x = Some WHITE).
      { apply list_elem_of_filter in Hin as [_ Hin].
        by eapply Forall_forall in Hfree. }
      rewrite Hwh by done. rewrite Hx.
      case_decide; [|done].
      unfold g2. rewrite label_paint_ne by (done || lia). by rewrite Hl1.
    + rewrite Hl by done.
      unfold g2. rewrite label_paint_ne by (done || lia). by rewrite Hl1.
Qed.

End SimulateRestores.

(** ** The player who moves at random *)

Lemma int_rem_eq {St} a b (s : St) :
  0 <= a → 0 < b → int_rem a b s = Ret (Z.rem a b, s).
Proof.
  intros Ha Hb. unfold int_rem.
  replace (b =? 0) with false by (symmetry; apply Z.eqb_neq; lia).
  replace (b =? -1) with false by (symmetry; apply Z.eqb_neq; lia).
  by rewrite andb_false_r.
Qed.

Lemma random_play_eq RandState (rand : RandState → Z * RandState)
    (s : AIRandomPlayer.t RandState) :
  (∀ g, 0 <= (rand g).1) →
  wf_board (AIRandomPlayer.board s) →
  let d := rel_dim (AIRandomPlayer.board s) in
  let g1 := (rand (AIRandomPlayer.seed s)).2 in
  AIRandomPlayer.play RandState rand s
  = Ret ((Z.rem (rand (AIRandomPlayer.seed s)).1 d, Z.rem (rand g1).1 d),
         AIRandomPlayer.mk (AIRandomPlayer.board s) (rand g1).2).
Proof.
  intros Hrand Hwf d g1. pose proof (wf_rel_dim_small _ Hwf) as Hd.
  pose proof (Hrand (AIRandomPlayer.seed s)) as H1.
  pose proof (Hrand g1) as H2. unfold g1 in *.
  assert (Hrand1 : ∀ s0 : AIRandomPlayer.t RandState,
    AIRandomPlayer.call_rand RandState rand s0
    = Ret ((rand (AIRandomPlayer.seed s0)).1,
           AIRandomPlayer.mk (AIRandomPlayer.board s0)
                             (rand (AIRandomPlayer.seed s0)).2)).
  { intros s0. unfold AIRandomPlayer.call_rand. rewrite bind_get_state.
    by destruct (rand (AIRandomPlayer.seed s0)). }
  assert (Hdim : ∀ s0 : AIRandomPlayer.t RandState,
    AIRandomPlayer.board s0 = AIRandomPlayer.board s →
    ask (St := AIRandomPlayer.t RandState) (AIRandomPlayer.board s0)
        get_playable_dim s0 = Ret (d, s0)).
  { intros s0 E. unfold ask. rewrite E.
    by rewrite (get_playable_dim_eq _ Hwf). }
  set (s1 := AIRandomPlayer.mk (AIRandomPlayer.board s)
                               (rand (AIRandomPlayer.seed s)).2).
  set (s2 := AIRandomPlayer.mk (AIRandomPlayer.board s)
               (rand (rand (AIRandomPlayer.seed s)).2).2).
  assert (Hd0 : 0 < d) by (unfold d; lia).
  unfold AIRandomPlayer.play.
  rewrite (bind_Ret _ _ _ _ _ (Hrand1 s)), bind_get_state. fold s1.
  rewrite (bind_Ret _ _ _ _ _ (Hdim s1 eq_refl)).
  rewrite (bind_Ret _ _ _ _ _ (int_rem_eq _ d s1 H1 Hd0)).
  rewrite (bind_Ret _ _ _ _ _ (Hrand1 s1)), bind_get_state.
  change (AIRandomPlayer.mk (AIRandomPlayer.board s1)
            (rand (AIRandomPlayer.seed s1)).2) with s2.
  rewrite (bind_Ret _ _ _ _ _ (Hdim s2 eq_refl)).
  by rewrite (bind_Ret _ _ _ _ _ (int_rem_eq _ d s2 H2 Hd0)).
Qed.

(** * The properties of the design document *)

Lemma board3_wf : wf_board board3.
Proof. apply check_board_wf. vm_compute. reflexivity. Qed.

Lemma lost_position_wf : wf_board lost_position.
Proof. apply check_board_wf. vm_compute. reflexivity. Qed.

(** C1.  On a well-formed board, [play] on a cell of the playable area whose
    vertex is [WHITE] gives that vertex, and no other, the colour of the
    player to move; when [is_victory] holds for that colour on the new
    board, [play] returns the win of that player and leaves the turn as it
    is, and otherwise it returns [NO_WIN] and gives the turn to the other
    player. *)
Theorem play_legal b row col :
  wf_board b → 0 <= row < rel_dim b → 0 <= col < rel_dim b →
  label b (rel_index b row col) = Some WHITE →
  let c := if p1_turn b then BLUE else RED in
  let b1 := paint (rel_index b row col) c b in
  label b1 (rel_index b row col) = Some c ∧
  (∀ x, x ≠ rel_index b row col → label b1 x = label b x) ∧
  edges b1 = edges b ∧ p1_turn b1 = p1_turn b ∧
  ∃ won, is_victory c b1 = Ret (won, b1) ∧
    play row col b =
      Ret (if won then (if p1_turn b then P1_WIN else P2_WIN, b1)
           else (NO_WIN, with_turn (negb (p1_turn b)) b1)).
Proof.
  intros Hwf Hr Hc Hk c b1.
  pose proof (rel_index_valid b row col Hwf Hr Hc) as Hi.
  split_and!.
  - by apply label_paint_eq.
  - intros x Hx. apply label_paint_ne; [done | lia].
  - apply edges_paint.
  - done.
  - destruct (play_in_bounds b row col WHITE Hwf Hr Hc Hk)
      as (won & Hwon & Hplay).
    exists won. split; [done|]. rewrite Hplay. by destruct won.
Qed.

Lemma play_legal_witness :
  ∃ won, is_victory BLUE (paint 12 BLUE board3)
         = Ret (won, paint 12 BLUE board3) ∧
    play 1 1 board3 =
      Ret (if won then (P1_WIN, paint 12 BLUE board3)
           else (NO_WIN, with_turn false (paint 12 BLUE board3))).
Proof.
  apply (play_legal board3 1 1).
  - apply board3_wf.
  - vm_compute. split; [discriminate | reflexivity].
  - vm_compute. split; [discriminate | reflexivity].
  - reflexivity.
Defined.

(** C2.  On a well-formed board and for any two values of type [int], [play]
    returns [OOB_ERROR] when the pair is outside the playable area, negative
    values included, and [OCC_ERROR] when it is inside and the vertex is not
    [WHITE]; in both cases the board it leaves is the board it was given:
    labels, edges and turn. *)
Theorem play_illegal b rowi coli :
  wf_board b → is_int rowi → is_int coli →
  (¬ (0 <= rowi < rel_dim b ∧ 0 <= coli < rel_dim b) →
   play rowi coli b = Ret (OOB_ERROR, b)) ∧
  (0 <= rowi < rel_dim b → 0 <= coli < rel_dim b →
   label b (rel_index b rowi coli) ≠ Some WHITE →
   play rowi coli b = Ret (OCC_ERROR, b)).
Proof.
  intros Hwf Hr Hc. split.
  - by apply play_out_of_bounds.
  - intros Hr' Hc' Hocc.
    destruct (label_is_Some b _ (rel_index_valid b rowi coli Hwf Hr' Hc'))
      as [k Hk].
    destruct (play_in_bounds b rowi coli k Hwf Hr' Hc' Hk) as (won & _ & Hp).
    rewrite Hp. rewrite decide_False; [done|]. intros ->. done.
Qed.

Lemma play_illegal_witness :
  play (-1) 1 lost_position = Ret (OOB_ERROR, lost_position) ∧
  play 1 0 lost_position = Ret (OCC_ERROR, lost_position).
Proof.
  assert (Hint : ∀ z, -3 <= z <= 3 → is_int z) by (unfold is_int; lia).
  split.
  - apply (play_illegal lost_position (-1) 1);
      [apply lost_position_wf | apply Hint; lia | apply Hint; lia|].
    vm_compute. intros [[H _] _]. apply H. reflexivity.
  - apply (play_illegal lost_position 1 0);
      [apply lost_position_wf | apply Hint; lia | apply Hint; lia | | |].
    + vm_compute. split; [discriminate | reflexivity].
    + vm_compute. split; [discriminate | reflexivity].
    + vm_compute. discriminate.
Defined.

(** C3.  On a well-formed board [is_victory] returns, and it returns true
    exactly when the graph has a path from the source margin vertex of the
    colour to its destination margin vertex whose vertices strictly between
    the two are all of the colour; the label of the destination itself is
    not looked at. *)
Theorem is_victory_iff_path b sym :
  wf_board b →
  ∃ won, is_victory sym b = Ret (won, b) ∧
         (won = true ↔
          colored_path b sym (source b sym) (destination b sym)).
Proof. apply is_victory_spec. Qed.

Lemma is_victory_iff_path_witness :
  ∃ won, is_victory RED lost_position = Ret (won, lost_position) ∧
         (won = true ↔
          colored_path lost_position RED (source lost_position RED)
                       (destination lost_position RED)).
Proof. apply (is_victory_iff_path lost_position RED), lost_position_wf. Defined.

(** C10.  [is_victory] writes nothing: whenever it returns, the board is the
    board it was given, with the same labels, edges, weights, number of
    edges and turn; and on a well-formed board it does return. *)
Theorem is_victory_frame b sym :
  (∀ won b', is_victory sym b = Ret (won, b') → b' = b) ∧
  (wf_board b → ∃ won, is_victory sym b = Ret (won, b)).
Proof.
  split.
  - intros won b' H. by apply read_only_is_victory in H.
  - intros Hwf. destruct (is_victory_spec b sym Hwf) as (won & H & _).
    by exists won.
Qed.

Lemma is_victory_frame_witness :
  ∃ won, is_victory BLUE lost_position = Ret (won, lost_position).
Proof.
  apply (proj2 (is_victory_frame lost_position BLUE)), lost_position_wf.
Defined.

(** C4, amended.  On a board of good dimensions, which are [rel_dim > 2]
    with a padded grid whose number of cells [(rel_dim + 2) * (rel_dim + 2)]
    is below [2 ^ 32] and so fits [vertID], [reset_board] returns a board
    whose four corners are [GRAY], whose top and bottom rows are [RED]
    between the corners and whose left and right columns are [BLUE] between
    the corners; and every sequence of calls of [play] from there returns and
    leaves these labels as they are. *)
Theorem margins_invariant b moves :
  dims_ok b → Forall (λ m, is_int m.1 ∧ is_int m.2) moves →
  ∃ b0, reset_board b = Ret (tt, b0) ∧ margins_colored b0 ∧
    ∃ outcomes b', plays moves b0 = Ret (outcomes, b') ∧ margins_colored b'.
Proof.
  intros Hd Hmoves.
  destruct (reset_board_spec b Hd) as ([] & b0 & Hb0 & Hfresh & _).
  pose proof (fresh_board_margins _ _ Hfresh) as Hm.
  exists b0. split_and!; [done..|].
  destruct (plays_preserve moves b0 Hmoves (fresh_wf _ _ Hfresh) Hm)
    as (outcomes & b' & Hb' & _ & Hm').
  by exists outcomes, b'.
Qed.

Lemma margins_invariant_witness :
  ∃ b0, reset_board lost_position = Ret (tt, b0) ∧ margins_colored b0 ∧
    ∃ outcomes b',
      plays [(1, 1); (1, 1); (-1, 7); (0, 2)] b0 = Ret (outcomes, b') ∧
      margins_colored b'.
Proof.
  apply (margins_invariant lost_position).
  - apply wf_dims, lost_position_wf.
  - repeat constructor; unfold is_int; simpl; lia.
Defined.

(** C4 as first stated asks nothing of the dimension but [rel_dim > 2].
    The dimension 65534 is such a one, and the fields of [wide_board] agree
    with each other as the constructor sets them; but the loop that adds
    the vertices runs [65536 * 65536] times in [vertID], that is not at
    all, and the first call of [abs_pos] in the loop that paints the
    margins fails its assertion [i < dim * dim].  So [reset_board] and the
    constructor do not return, and no corner is ever labelled. *)
Lemma margins_invariant_wide :
  (2 < rel_dim wide_board ∧
   abs_dim wide_board = rel_dim wide_board + 2 ∧
   abs_pos wide_board = mkTranspose 0 0 (abs_dim wide_board) ∧
   rel_pos wide_board = mkTranspose 1 1 (abs_dim wide_board)) ∧
  new_HexBoard 65534 = Abort ∧
  reset_board wide_board = Abort ∧
  ¬ (∃ b0, reset_board wide_board = Ret (tt, b0) ∧ margins_colored b0).
Proof.
  assert (Hr : reset_board wide_board = Abort) by (vm_compute; reflexivity).
  split_and!; try (vm_compute; reflexivity).
  intros (b0 & Hb0 & _). rewrite Hr in Hb0. discriminate Hb0.
Qed.

(** C8, amended.  On a board of good dimensions, which are [rel_dim > 2]
    with a padded grid whose number of cells [(rel_dim + 2) * (rel_dim + 2)]
    is below [2 ^ 32] and so fits [vertID], [reset_board] returns a board in
    which every vertex of the playable area has exactly six neighbours, all
    distinct: the cells to its left and right, above and below, below to the
    left and above to the right. *)
Theorem interior_neighbors b :
  dims_ok b →
  ∃ b0, reset_board b = Ret (tt, b0) ∧
    ∀ row col, 0 < row < abs_dim b0 - 1 → 0 < col < abs_dim b0 - 1 →
      neighbors b0 (abs_index b0 row col) ≡ₚ around b0 row col ∧
      NoDup (neighbors b0 (abs_index b0 row col)) ∧
      length (neighbors b0 (abs_index b0 row col)) = 6%nat.
Proof.
  intros Hd.
  destruct (reset_board_spec b Hd) as ([] & b0 & Hb0 & Hfresh & _).
  exists b0. split; [done|]. intros row col Hr Hc.
  rewrite (fresh_abs _ _ Hfresh) in Hr, Hc.
  pose proof (fresh_board_around _ _ row col Hfresh Hr Hc) as Hp.
  split_and!.
  - done.
  - apply (fresh_nodup _ _ Hfresh).
  - by rewrite Hp.
Qed.

Lemma interior_neighbors_witness :
  ∃ b0, reset_board lost_position = Ret (tt, b0) ∧
    ∀ row col, 0 < row < abs_dim b0 - 1 → 0 < col < abs_dim b0 - 1 →
      neighbors b0 (abs_index b0 row col) ≡ₚ around b0 row col ∧
      NoDup (neighbors b0 (abs_index b0 row col)) ∧
      length (neighbors b0 (abs_index b0 row col)) = 6%nat.
Proof. apply (interior_neighbors lost_position), wf_dims, lost_position_wf. Defined.

(** C8 as first stated covers every dimension above 2, and so the
    dimension 65534 of [wide_board], where [reset_board] stops at the
    first assertion of [abs_pos], since the number of vertices
    [abs_dim * abs_dim] is 0 in [vertID]: there is no board after it
    whose cells have six neighbours. *)
Lemma interior_neighbors_wide :
  (2 < rel_dim wide_board ∧
   abs_dim wide_board = rel_dim wide_board + 2 ∧
   abs_pos wide_board = mkTranspose 0 0 (abs_dim wide_board) ∧
   rel_pos wide_board = mkTranspose 1 1 (abs_dim wide_board)) ∧
  u32 (abs_dim wide_board * abs_dim wide_board) = 0 ∧
  ¬ (∃ b0, reset_board wide_board = Ret (tt, b0) ∧
       ∀ row col, 0 < row < abs_dim b0 - 1 → 0 < col < abs_dim b0 - 1 →
         neighbors b0 (abs_index b0 row col) ≡ₚ around b0 row col ∧
         NoDup (neighbors b0 (abs_index b0 row col)) ∧
         length (neighbors b0 (abs_index b0 row col)) = 6%nat).
Proof.
  split_and!; try (vm_compute; reflexivity).
  intros (b0 & Hb0 & _).
  assert (Hr : reset_board wide_board = Abort) by (vm_compute; reflexivity).
  rewrite Hr in Hb0. discriminate Hb0.
Qed.

(** C9.  On the board that [reset_board] returns, with [BLUE] given to every
    cell of the diagonal of the playable area that runs along the diagonal
    edges from the top row to the bottom row, and every other cell of the
    playable area left [WHITE], [is_victory] for [BLUE] returns true. *)
Theorem diagonal_wins b :
  dims_ok b →
  ∃ b0, reset_board b = Ret (tt, b0) ∧
    let b1 := diagonal_board b0 in
    (∀ row col, 0 <= row < rel_dim b0 → 0 <= col < rel_dim b0 →
       label b1 (rel_index b1 row col)
       = Some (if decide (row + col = rel_dim b0 - 1) then BLUE else WHITE)) ∧
    is_victory BLUE b1 = Ret (true, b1).
Proof.
  intros Hd.
  destruct (reset_board_spec b Hd) as ([] & b0 & Hb0 & Hfresh & _).
  exists b0. split; [done|]. split.
  - by apply (diagonal_labels (abs_dim b)).
  - by apply (diagonal_victory (abs_dim b)).
Qed.

Lemma diagonal_wins_witness :
  ∃ b0, reset_board lost_position = Ret (tt, b0) ∧
    let b1 := diagonal_board b0 in
    (∀ row col, 0 <= row < rel_dim b0 → 0 <= col < rel_dim b0 →
       label b1 (rel_index b1 row col)
       = Some (if decide (row + col = rel_dim b0 - 1) then BLUE else WHITE)) ∧
    is_victory BLUE b1 = Ret (true, b1).
Proof. apply (diagonal_wins lost_position), wf_dims, lost_position_wf. Defined.

(** The other diagonal of the playable area is no chain of neighbours:
    with [BLUE] on (0,0), (1,1) and (2,2) of the board of side 3,
    [is_victory] for [BLUE] returns false. *)
Lemma other_diagonal_3 :
  let b1 := paint_cells [(0, 0); (1, 1); (2, 2)] BLUE board3 in
  is_victory BLUE b1 = Ret (false, b1).
Proof. vm_compute. reflexivity. Qed.

(** C5.  On a well-formed scratch board with as many vertices as the board,
    for a valid candidate vertex, a list of valid vertices that are free on
    the board, and a shuffle that permutes, [simulate] returns a number of
    wins between 0 and the number of trials, and leaves every vertex of the
    list and the candidate [WHITE] on the scratch board. *)
Theorem simulate_bounds RNG (shuffle : RNG → list vertID → list vertID * RNG)
    curmove fvert (st : AIMonteCarloPlayer RNG) :
  (∀ g l, (shuffle g l).1 ≡ₚ l) →
  wf_board (gcopy st) →
  nodes (board st) = nodes (gcopy st) →
  0 <= curmove < nodes (gcopy st) →
  Forall (λ p, 0 <= p < nodes (gcopy st)) fvert →
  Forall (λ p, label (board st) p = Some WHITE) fvert →
  0 <= trials st →
  ∃ wins st', simulate RNG shuffle curmove fvert st = Ret (wins, st') ∧
    0 <= wins <= trials st ∧
    label (gcopy st') curmove = Some WHITE ∧
    ∀ p, p ∈ fvert → label (gcopy st') p = Some WHITE.
Proof.
  intros Hperm Hwf Hn Hcur Hvalid Hfree Htrials.
  destruct (simulate_spec RNG shuffle Hperm curmove fvert st
              Hwf Hn Hcur Hvalid Hfree)
    as (wins & st' & Hsim & Hw & _ & _ & _ & Hc & Hf).
  exists wins, st'. split_and!; try done; lia.
Qed.

Lemma simulate_bounds_witness :
  ∃ wins st',
    simulate unit (λ g l, (reverse l, g)) 12 [7; 12]
             (mkAI lost_position tt board3 20) = Ret (wins, st') ∧
    0 <= wins <= 20 ∧
    label (gcopy st') 12 = Some WHITE ∧
    ∀ p, p ∈ [7; 12] → label (gcopy st') p = Some WHITE.
Proof.
  apply (simulate_bounds unit (λ g l, (reverse l, g)) 12 [7; 12]
           (mkAI lost_position tt board3 20)).
  - intros g l. simpl. apply reverse_Permutation.
  - apply board3_wf.
  - reflexivity.
  - vm_compute. split; [discriminate | reflexivity].
  - repeat constructor; vm_compute; discriminate.
  - repeat constructor.
  - simpl. lia.
Defined.

(** C6, at the input where the code parts from it.  In [lost_position]
    every playout of either candidate is lost, whatever the generator and
    the number of trials: no candidate scores more than the initial
    [hiwins = 0], [winner] stays at the vertex 0, and [play] ends on its
    assertion [winner != 0] instead of choosing the first candidate. *)
Theorem ai_play_no_choice RNG
    (shuffle : RNG → list vertID → list vertID * RNG) g tr :
  (∀ g l, (shuffle g l).1 ≡ₚ l) →
  ai_play RNG shuffle (mkAI lost_position g board3 tr) = Abort.
Proof. intros Hperm. by apply ai_play_lost. Qed.

Lemma ai_play_no_choice_witness :
  ai_play unit (λ g l, (l, g)) (mkAI lost_position tt board3 1000) = Abort.
Proof. apply ai_play_no_choice. intros g l. reflexivity. Defined.

(** C7, amended.  For two distinct valid vertices [x] and [y] of a graph
    whose two ends agree on the edge between them and keep it at most once
    (as in every graph built by [add_edge] on distinct ends),
    [add_edge(x,y,w1)] followed by [add_edge(x,y,w2)] leaves exactly one
    edge between [x] and [y], of weight [w2] from either end, and the
    second call does not change the number of edges. *)
Theorem add_edge_twice {vtype etype} (g : Graph vtype etype) x y w1 w2 :
  Z.of_nat (length (vlist g)) < 2 ^ 32 →
  0 <= x < Z.of_nat (length (vlist g)) →
  0 <= y < Z.of_nat (length (vlist g)) →
  x ≠ y →
  length (edges_to g x y) = length (edges_to g y x) →
  (length (edges_to g x y) ≤ 1)%nat →
  inserted_once g x y w1 w2.
Proof.
  intros Hn Hx Hy Hne Hsym Hone.
  assert (Hfirst : ∃ g1, add_edge x y w1 g = Ret (tt, g1) ∧
            length (vlist g1) = length (vlist g) ∧
            edges_to g1 x y = [mkEdge y w1] ∧
            edges_to g1 y x = [mkEdge x w1]).
  { destruct (edges_to g x y) as [|e [|? ?]] eqn:El; simpl in Hone; [| |lia];
      destruct (edges_to g y x) as [|e' [|? ?]] eqn:Er; simpl in Hsym;
      try lia.
    - exists (with_new_edge x y w1 g). split_and!.
      + apply add_edge_new; [done..|]. by apply edges_to_nil_iff.
      + apply length_with_new_edge.
      + rewrite edges_to_new_edge_l by (done || lia). by rewrite El.
      + rewrite edges_to_new_edge_r by (done || lia). by rewrite Er.
    - destruct (add_edge_again g x y w1 e e' Hn Hx Hy Hne El Er)
        as (g1 & H1 & H2 & _ & H3 & H4).
      by exists g1. }
  destruct Hfirst as (g1 & Hg1 & Hlen1 & Hl1 & Hr1).
  rewrite <- Hlen1 in Hn, Hx, Hy.
  destruct (add_edge_again g1 x y w2 _ _ Hn Hx Hy Hne Hl1 Hr1)
    as (g2 & Hg2 & Hlen2 & Hcount & Hl2 & Hr2).
  rewrite <- Hlen2 in Hn, Hx, Hy.
  exists g1, g2. split_and!; try done.
  - apply get_edge_weight_eq; [done | lia | done].
  - apply get_edge_weight_eq; [done | lia | done].
  - unfold get_edges. munfold. by rewrite Hcount.
Qed.

(** A graph of two vertices and no edge satisfies the hypotheses of
    [add_edge_twice]. *)
Lemma add_edge_twice_witness :
  inserted_once (mkGraph 0 [mkVertex WHITE []; mkVertex WHITE []]) 0 1 5 7.
Proof. apply add_edge_twice; simpl; (lia || done). Defined.

(** C7 as first stated also covers [x = y], where it fails: [add_edge]
    appends the loop to the edge list of [x] twice, and the second call
    gives the new weight to the first copy only. *)
Lemma add_edge_twice_loop :
  ¬ inserted_once (mkGraph 0 [mkVertex WHITE []]) 0 0 5 7.
Proof.
  intros (g1 & g2 & H1 & H2 & H3 & _).
  vm_compute in H1. injection H1 as <-.
  vm_compute in H2. injection H2 as <-.
  vm_compute in H3. discriminate H3.
Qed.

(** * More properties of the program *)

(** ** The board *)

(** X1.  On a well-formed board [get_free_vertices] returns the free cells
    of the playable area, row by row and each once, and leaves the board as
    it is; the vertex 0 is never among them. *)
Theorem free_vertices_listed b :
  wf_board b →
  get_free_vertices b = Ret (free_cells b, b) ∧
  NoDup (free_cells b) ∧
  (0 ∉ free_cells b) ∧
  ∀ v, v ∈ free_cells b ↔
       ∃ row col, 0 <= row < rel_dim b ∧ 0 <= col < rel_dim b ∧
                  v = rel_index b row col ∧ label b v = Some WHITE.
Proof.
  intros Hwf. split_and!.
  - by apply get_free_vertices_eq.
  - apply NoDup_filter. by apply NoDup_playable.
  - intros (row & col & Hr & Hc & E & _)%free_cells_spec; [|done].
    unfold rel_index in E. destruct Hwf as [[? ? ? ? ?] _ _]. nia.
  - intros v. split; [by apply free_cells_spec|].
    intros (row & col & Hr & Hc & -> & Hl).
    apply list_elem_of_filter. split; [done|].
    apply elem_of_playable. by exists row, col.
Qed.

Lemma free_vertices_listed_witness :
  get_free_vertices lost_position = Ret ([7; 12], lost_position).
Proof.
  exact (proj1 (free_vertices_listed lost_position lost_position_wf)).
Defined.

(** X2.  [vertex_to_row_col] gives back the coordinates from which
    [rel_pos] made the vertex of a playable cell. *)
Theorem row_col_round_trip b row col :
  wf_board b → 0 <= row < rel_dim b → 0 <= col < rel_dim b →
  ∃ v, call_rel_pos row col b = Ret (v, b) ∧
       vertex_to_row_col v b = Ret ((row, col), b).
Proof.
  intros Hwf Hr Hc. exists (rel_index b row col). split.
  - by apply call_rel_pos_eq; [apply (wf_dims _ Hwf)|..].
  - by apply vertex_to_row_col_rel.
Qed.

Lemma row_col_round_trip_witness :
  ∃ v, call_rel_pos 1 2 board3 = Ret (v, board3) ∧
       vertex_to_row_col v board3 = Ret ((1, 2), board3).
Proof.
  apply (row_col_round_trip board3 1 2); [apply board3_wf|..];
    vm_compute; split; (discriminate || reflexivity).
Defined.

(** X3.  A call of [play] that returns an error leaves the list of
    [get_free_vertices] as it is; any other call takes the played cell, and
    no other, out of that list. *)
Theorem move_takes_one_cell b row col o b' :
  wf_board b → is_int row → is_int col →
  play row col b = Ret (o, b') →
  get_free_vertices b = Ret (free_cells b, b) ∧
  get_free_vertices b' = Ret (free_cells b', b') ∧
  if decide (o = OOB_ERROR ∨ o = OCC_ERROR)
  then free_cells b' = free_cells b
  else rel_index b row col ∈ free_cells b ∧
       free_cells b' = filter (λ u, u ≠ rel_index b row col) (free_cells b) ∧
       (length (free_cells b') + 1)%nat = length (free_cells b).
Proof.
  intros Hwf Hr Hc Hplay.
  split; [by apply get_free_vertices_eq|].
  destruct (play_cases b row col o b' Hwf Hr Hc Hplay)
    as [[-> Ho]|(Hr' & Hc' & Hfree & Hcase)].
  { split; [by apply get_free_vertices_eq|]. by rewrite decide_True. }
  pose proof (rel_index_valid b row col Hwf Hr' Hc') as Hv.
  set (v := rel_index b row col) in *.
  set (c := if p1_turn b then BLUE else RED) in *.
  assert (Hc0 : c ≠ WHITE) by (unfold c; by destruct (p1_turn b)).
  assert (Hin : v ∈ free_cells b).
  { apply list_elem_of_filter. split; [done|].
    apply elem_of_playable. by exists row, col. }
  assert (Hcells : free_cells (paint v c b) = filter (λ u, u ≠ v) (free_cells b))
    by by apply free_cells_paint.
  assert (Hlen : (length (filter (λ u, u ≠ v) (free_cells b)) + 1)%nat
                 = length (free_cells b)).
  { apply length_filter_remove; [|done].
    apply NoDup_filter. by apply NoDup_playable. }
  simpl in Hcase. destruct Hcase as [(_ & -> & ->)|(_ & -> & ->)].
  - split; [apply get_free_vertices_eq; by apply wf_board_paint|].
    rewrite decide_False by (destruct (p1_turn b); naive_solver).
    by rewrite Hcells.
  - split.
    { apply get_free_vertices_eq. by apply wf_board_with_turn, wf_board_paint. }
    rewrite decide_False by naive_solver.
    by rewrite free_cells_with_turn, Hcells.
Qed.

Lemma move_takes_one_cell_witness :
  get_free_vertices lost_position = Ret ([7; 12], lost_position) ∧
  get_free_vertices (state_after (play 1 1) lost_position)
  = Ret ([7], state_after (play 1 1) lost_position).
Proof.
  destruct (move_takes_one_cell lost_position 1 1 NO_WIN
              (state_after (play 1 1) lost_position))
    as (H1 & H2 & _).
  - apply lost_position_wf.
  - apply small_is_int. lia.
  - apply small_is_int. lia.
  - vm_compute. reflexivity.
  - split; [exact H1 | exact H2].
Defined.

(** X4.  The constructor refuses the dimensions up to 2.  For a larger
    dimension [d] (whose padded grid fits [vertID]) it returns a
    well-formed board of playable dimension [d] on which player 1 is to
    move and all the [d * d] cells of the playable area are free. *)
Theorem new_board_position d :
  (0 <= d <= 2 → new_HexBoard d = Abort) ∧
  (2 < d → (d + 2) * (d + 2) < 2 ^ 32 →
   ∃ b, new_HexBoard d = Ret b ∧ wf_board b ∧
        get_playable_dim b = Ret (d, b) ∧
        get_current_player b = Ret (1, b) ∧
        get_free_vertices b = Ret (playable b, b) ∧
        Z.of_nat (length (playable b)) = d * d).
Proof.
  split; [apply new_HexBoard_small|]. intros Hd Hfit.
  destruct (new_HexBoard_spec d Hd Hfit) as (b & Hb & Hf & Hrel).
  pose proof (fresh_wf _ _ Hf) as Hwf.
  exists b. split_and!; try done.
  - rewrite <- Hrel. apply get_playable_dim_eq. done.
  - unfold get_current_player. rewrite bind_get_state.
    by rewrite (fresh_turn _ _ Hf).
  - rewrite get_free_vertices_eq by done. do 2 f_equal.
    apply free_cells_all. intros v Hv. by apply (fresh_playable_free (d + 2)).
  - rewrite length_playable by lia. by rewrite Hrel.
Qed.

Lemma new_board_position_witness :
  new_HexBoard 2 = Abort ∧
  ∃ b, new_HexBoard 3 = Ret b ∧ wf_board b ∧
       get_playable_dim b = Ret (3, b) ∧
       get_current_player b = Ret (1, b) ∧
       get_free_vertices b = Ret (playable b, b) ∧
       Z.of_nat (length (playable b)) = 3 * 3.
Proof.
  split.
  - apply (proj1 (new_board_position 2)). lia.
  - apply (proj2 (new_board_position 3)); [lia | vm_compute; reflexivity].
Defined.

(** X5.  From any well-formed board [reset_board] starts a new game: the
    playable area is the same, all its cells are free, and player 1 is to
    move. *)
Theorem reset_board_new_game b :
  wf_board b →
  ∃ b', reset_board b = Ret (tt, b') ∧ wf_board b' ∧
        playable b' = playable b ∧
        get_current_player b' = Ret (1, b') ∧
        get_free_vertices b' = Ret (playable b', b').
Proof.
  intros Hwf.
  destruct (reset_board_spec b (wf_dims _ Hwf)) as ([] & b' & Hb' & Hf & Hrel).
  pose proof (fresh_wf _ _ Hf) as Hwf'.
  exists b'. split_and!; try done.
  - unfold playable, rel_index. by rewrite Hrel, (fresh_abs _ _ Hf).
  - unfold get_current_player. rewrite bind_get_state.
    by rewrite (fresh_turn _ _ Hf).
  - rewrite get_free_vertices_eq by done. do 2 f_equal.
    apply free_cells_all. intros v Hv.
    by apply (fresh_playable_free (abs_dim b)).
Qed.

Lemma reset_board_new_game_witness :
  ∃ b', reset_board lost_position = Ret (tt, b') ∧ wf_board b' ∧
        playable b' = playable lost_position ∧
        get_current_player b' = Ret (1, b') ∧
        get_free_vertices b' = Ret (playable b', b').
Proof. apply (reset_board_new_game lost_position), lost_position_wf. Defined.

(** X6.  [clone_board_state] refuses a board with another number of
    vertices; from a board with the same number it copies every label, and
    leaves the edges, the dimensions and the turn of the target as they
    are. *)
Theorem clone_board_state_copies other b :
  nodes b < 2 ^ 32 → nodes other < 2 ^ 32 →
  (nodes other ≠ nodes b → clone_board_state other b = Abort) ∧
  (nodes other = nodes b →
   ∃ b', clone_board_state other b = Ret (tt, b') ∧ same_shape b b' ∧
         ∀ x, label b' x = label other x).
Proof.
  intros Hb Ho. split.
  - by apply clone_board_state_mismatch.
  - intros Hn.
    destruct (clone_board_state_spec other b Hb Hn) as ([] & b' & H1 & H2 & H3).
    by exists b'.
Qed.

Lemma clone_board_state_copies_witness :
  clone_board_state no_board board3 = Abort ∧
  ∃ b', clone_board_state lost_position board3 = Ret (tt, b') ∧
        same_shape board3 b' ∧ ∀ x, label b' x = label lost_position x.
Proof.
  split.
  - apply (proj1 (clone_board_state_copies no_board board3
                    ltac:(vm_compute; reflexivity)
                    ltac:(vm_compute; reflexivity))).
    vm_compute. discriminate.
  - apply (proj2 (clone_board_state_copies lost_position board3
                    ltac:(vm_compute; reflexivity)
                    ltac:(vm_compute; reflexivity))).
    vm_compute. reflexivity.
Defined.

(** ** Games *)

(** X7.  As long as [play] has returned no win since the board was built or
    reset, neither colour has a winning path: [is_victory] returns false
    for both. *)
Theorem no_winner_in_play b :
  in_play b →
  is_victory BLUE b = Ret (false, b) ∧ is_victory RED b = Ret (false, b).
Proof.
  intros (Hwf & Hblue & Hred & _)%in_play_invariant.
  split; by apply is_victory_false.
Qed.

Lemma no_winner_in_play_witness :
  is_victory BLUE near_win = Ret (false, near_win) ∧
  is_victory RED near_win = Ret (false, near_win).
Proof. apply (no_winner_in_play near_win), in_play_near_win. Defined.

(** X8.  In a game in progress, a win that [play] returns is the win of the
    player who moved: after [P1_WIN] BLUE has a winning path and RED has
    none, and after [P2_WIN] RED has one and BLUE has none. *)
Theorem winner_is_mover b row col o b' :
  in_play b → is_int row → is_int col →
  play row col b = Ret (o, b') →
  (o = P1_WIN → p1_turn b = true ∧
     is_victory BLUE b' = Ret (true, b') ∧
     is_victory RED b' = Ret (false, b')) ∧
  (o = P2_WIN → p1_turn b = false ∧
     is_victory RED b' = Ret (true, b') ∧
     is_victory BLUE b' = Ret (false, b')).
Proof.
  intros (Hwf & Hblue & Hred & _)%in_play_invariant Hr Hc Hplay.
  destruct (play_cases b row col o b' Hwf Hr Hc Hplay)
    as [[-> [-> | ->]]|(Hr' & Hc' & Hfree & Hcase)]; [done..|].
  pose proof (rel_index_valid b row col Hwf Hr' Hc') as Hv.
  simpl in Hcase. revert Hcase.
  destruct (p1_turn b) eqn:Et; intros [(Hp & -> & ->)|(_ & -> & _)].
  - assert (Hwf1 : wf_board (paint (rel_index b row col) BLUE b))
      by by apply wf_board_paint.
    split; [intros _|intros [=]].
    split_and!; [done|by apply is_victory_true|].
    apply is_victory_false; [done|]. intros Hp'. apply Hred.
    by apply (colored_path_paint b _ BLUE RED) in Hp';
      [|done|rewrite Hfree; congruence|done].
  - split; intros [=].
  - assert (Hwf1 : wf_board (paint (rel_index b row col) RED b))
      by by apply wf_board_paint.
    split; [intros [=]|intros _].
    split_and!; [done|by apply is_victory_true|].
    apply is_victory_false; [done|]. intros Hp'. apply Hblue.
    by apply (colored_path_paint b _ RED BLUE) in Hp';
      [|done|rewrite Hfree; congruence|done].
  - split; intros [=].
Qed.

Lemma winner_is_mover_witness :
  p1_turn near_win = true ∧
  is_victory BLUE (state_after (play 1 2) near_win)
  = Ret (true, state_after (play 1 2) near_win) ∧
  is_victory RED (state_after (play 1 2) near_win)
  = Ret (false, state_after (play 1 2) near_win).
Proof.
  apply (proj1 (winner_is_mover near_win 1 2 P1_WIN
                  (state_after (play 1 2) near_win)
                  in_play_near_win
                  (small_is_int 1 ltac:(lia)) (small_is_int 2 ltac:(lia))
                  ltac:(vm_compute; reflexivity))).
  reflexivity.
Defined.

(** X9.  In a game in progress the players have moved in turn: BLUE has as
    many stones on the playable area as RED when player 1 is to move, and
    one more when player 2 is to move. *)
Theorem stones_alternate b :
  in_play b →
  stones BLUE b = (stones RED b + if p1_turn b then 0 else 1)%nat.
Proof. by intros (_ & _ & _ & H)%in_play_invariant. Qed.

Lemma stones_alternate_witness :
  stones BLUE near_win = (stones RED near_win + 0)%nat.
Proof. apply (stones_alternate near_win), in_play_near_win. Defined.

(** ** The Monte Carlo player *)

(** X10.  [play] of the Monte Carlo player runs [simulate] on every free
    cell in the order of [get_free_vertices], and leaves the game board as
    it is.  When some count is positive it returns the coordinates of the
    first cell whose count is the highest, a free cell of the playable
    area; when there is no free cell or every count is 0, it stops on a
    failed assertion. *)
Theorem ai_play_move RNG (shuffle : RNG → list vertID → list vertID * RNG)
    (st : AIMonteCarloPlayer RNG) :
  (∀ g l, (shuffle g l).1 ≡ₚ l) →
  wf_board (board st) → wf_board (gcopy st) →
  nodes (board st) = nodes (gcopy st) →
  ∃ ws st1,
    scores RNG shuffle (free_cells (board st)) (free_cells (board st)) st
    = Ret (ws, st1) ∧
    board st1 = board st ∧
    length ws = length (free_cells (board st)) ∧
    ((Forall (λ w, w <= 0) ws ∧ ai_play RNG shuffle st = Abort) ∨
     (∃ i row col w,
        free_cells (board st) !! i = Some (rel_index (board st) row col) ∧
        0 <= row < rel_dim (board st) ∧ 0 <= col < rel_dim (board st) ∧
        label (board st) (rel_index (board st) row col) = Some WHITE ∧
        ws !! i = Some w ∧ 0 < w ∧ Forall (λ w', w' <= w) ws ∧
        (∀ j w', (j < i)%nat → ws !! j = Some w' → w' < w) ∧
        ai_play RNG shuffle st = Ret ((row, col), st1))).
Proof.
  intros Hperm Hwfb Hwfg Hn.
  destruct (ai_play_spec RNG shuffle Hperm st Hwfb Hwfg Hn)
    as (ws & st1 & H1 & H2 & H3 & _ & H4).
  by exists ws, st1.
Qed.

Lemma ai_play_move_witness :
  ∃ ws st1,
    scores unit (λ g l, (l, g)) (free_cells near_win) (free_cells near_win)
           (mkAI near_win tt board3 3)
    = Ret (ws, st1) ∧
    board st1 = near_win ∧
    length ws = length (free_cells near_win) ∧
    ((Forall (λ w, w <= 0) ws ∧
      ai_play unit (λ g l, (l, g)) (mkAI near_win tt board3 3) = Abort) ∨
     (∃ i row col w,
        free_cells near_win !! i = Some (rel_index near_win row col) ∧
        0 <= row < rel_dim near_win ∧ 0 <= col < rel_dim near_win ∧
        label near_win (rel_index near_win row col) = Some WHITE ∧
        ws !! i = Some w ∧ 0 < w ∧ Forall (λ w', w' <= w) ws ∧
        (∀ j w', (j < i)%nat → ws !! j = Some w' → w' < w) ∧
        ai_play unit (λ g l, (l, g)) (mkAI near_win tt board3 3)
        = Ret ((row, col), st1))).
Proof.
  apply (ai_play_move unit (λ g l, (l, g)) (mkAI near_win tt board3 3)).
  - intros g l. reflexivity.
  - apply in_play_wf, in_play_near_win.
  - apply board3_wf.
  - reflexivity.
Defined.

(** X11.  The constructor of the Monte Carlo player, on a well-formed game
    board, returns a player with 1000 trials whose scratch board is a new
    board with the dimensions of the game board. *)
Theorem new_player_ready {RNG} (seed : RNG) b :
  wf_board b →
  ∃ gc, new_AIMonteCarloPlayer seed b = Ret (mkAI b seed gc 1000) ∧
        wf_board gc ∧ nodes gc = nodes b ∧ rel_dim gc = rel_dim b ∧
        get_free_vertices gc = Ret (playable b, gc).
Proof.
  intros Hwf.
  destruct (new_AIMonteCarloPlayer_eq seed b Hwf) as (gc & Hgc & Hf & Hrel).
  pose proof (fresh_wf _ _ Hf) as Hwfg.
  exists gc. split_and!; try done.
  - rewrite (fresh_nodes _ _ Hf). by rewrite (wf_nodes _ Hwf).
  - rewrite get_free_vertices_eq by done. do 2 f_equal.
    rewrite free_cells_all
      by (intros v Hv; by apply (fresh_playable_free (abs_dim b))).
    unfold playable, rel_index. by rewrite Hrel, (fresh_abs _ _ Hf).
Qed.

Lemma new_player_ready_witness :
  ∃ gc, new_AIMonteCarloPlayer tt lost_position
        = Ret (mkAI lost_position tt gc 1000) ∧
        wf_board gc ∧ nodes gc = nodes lost_position ∧
        rel_dim gc = rel_dim lost_position ∧
        get_free_vertices gc = Ret (playable lost_position, gc).
Proof. apply (new_player_ready tt lost_position), lost_position_wf. Defined.

(** X12.  With a number of trials that is not positive, every count of
    [simulate] is 0, and [play] of the Monte Carlo player stops on its
    failed assertion whatever the board. *)
Theorem ai_play_without_trials RNG
    (shuffle : RNG → list vertID → list vertID * RNG)
    (st : AIMonteCarloPlayer RNG) t :
  (∀ g l, (shuffle g l).1 ≡ₚ l) →
  wf_board (board st) → wf_board (gcopy st) →
  nodes (board st) = nodes (gcopy st) →
  t <= 0 →
  (set_trials t;; ai_play RNG shuffle) st = Abort.
Proof.
  intros Hperm Hwfb Hwfg Hn Ht.
  unfold set_trials. rewrite bind_unfold, bind_get_state.
  change (put_state ?s st) with (Ret (tt, s)). cbv beta iota.
  set (st' := {| board := board st; gen := gen st; gcopy := gcopy st;
                 trials := t |}).
  destruct (ai_play_spec RNG shuffle Hperm st' Hwfb Hwfg Hn)
    as (ws & st1 & _ & _ & _ & Hws & [[_ Habort]|Hmove]); [done|].
  destruct Hmove as (i & row & col & w & _ & _ & _ & _ & Hw & Hpos & _).
  exfalso. rewrite Forall_forall in Hws.
  apply list_elem_of_lookup_2 in Hw. apply Hws in Hw. simpl in Hw. lia.
Qed.

Lemma ai_play_without_trials_witness :
  (set_trials 0;; ai_play unit (λ g l, (l, g)))
    (mkAI near_win tt board3 1000) = Abort.
Proof.
  apply (ai_play_without_trials unit (λ g l, (l, g))
           (mkAI near_win tt board3 1000) 0).
  - intros g l. reflexivity.
  - apply in_play_wf, in_play_near_win.
  - apply board3_wf.
  - reflexivity.
  - lia.
Defined.

(** ** The graph *)

(** X13.  A graph built through the interface is undirected: two vertices
    are adjacent from one end exactly when they are from the other, and
    then [get_edge_weight] returns the same weight from both ends; when
    they are not adjacent it fails from both. *)
Theorem built_undirected {vtype etype} (g : Graph vtype etype) x y :
  built g → order g < 2 ^ 32 → 0 <= x < order g → 0 <= y < order g →
  ∃ a, is_adjacent x y g = Ret (a, g) ∧ is_adjacent y x g = Ret (a, g) ∧
       if (a : bool)
       then ∃ w, get_edge_weight x y g = Ret (w, g) ∧
                 get_edge_weight y x g = Ret (w, g)
       else get_edge_weight x y g = Abort ∧ get_edge_weight y x g = Abort.
Proof.
  intros Hb Hn Hx Hy. destruct (built_invariant g Hb Hn) as [Hu _].
  exists (bool_decide (y ∈ gneighbors g x)). split_and!.
  - apply is_adjacent_eq; unfold order in *; lia.
  - rewrite is_adjacent_eq by (unfold order in *; lia). do 2 f_equal.
    apply bool_decide_ext. split; by apply undirected_sym.
  - rewrite !get_edge_weight_head by lia.
    case_bool_decide as Hin.
    + destruct (decide (x = y)) as [->|Hne].
      * apply gneighbors_edges_to in Hin.
        destruct (edges_to g y y) as [|e ?]; [done|]. by exists (val e).
      * destruct (undirected_single g x y Hu Hne Hin) as (w & -> & ->).
        by exists w.
    + assert (E1 : edges_to g x y = []) by by apply edges_to_nil_iff.
      assert (E2 : edges_to g y x = []).
      { apply edges_to_nil_iff. intros Hin'. apply Hin.
        by apply undirected_sym. }
      by rewrite E1, E2.
Qed.

Lemma built_undirected_witness :
  ∃ a, is_adjacent 0 1 two_linked = Ret (a, two_linked) ∧
       is_adjacent 1 0 two_linked = Ret (a, two_linked) ∧
       if (a : bool)
       then ∃ w, get_edge_weight 0 1 two_linked = Ret (w, two_linked) ∧
                 get_edge_weight 1 0 two_linked = Ret (w, two_linked)
       else get_edge_weight 0 1 two_linked = Abort ∧
            get_edge_weight 1 0 two_linked = Abort.
Proof.
  apply (built_undirected two_linked 0 1);
    [apply built_two_linked | vm_compute; reflexivity
    | vm_compute; split; (discriminate || reflexivity)
    | vm_compute; split; (discriminate || reflexivity)].
Defined.

(** X14.  In a graph built through the interface the lengths of the edge
    lists add up to twice the number of edges that [get_edges] returns
    (which is kept modulo 2^32). *)
Theorem built_handshake {vtype etype} (g : Graph vtype etype) :
  built g → order g < 2 ^ 32 →
  ∃ m, degree_sum g = (2 * m)%nat ∧ get_edges g = Ret (u32 (Z.of_nat m), g).
Proof.
  intros Hb Hn. destruct (built_invariant g Hb Hn) as [_ (m & Hd & Hm)].
  exists m. split; [done|]. unfold get_edges. rewrite bind_get_state.
  by rewrite Hm.
Qed.

Lemma built_handshake_witness :
  ∃ m, degree_sum two_linked = (2 * m)%nat ∧
       get_edges two_linked = Ret (u32 (Z.of_nat m), two_linked).
Proof.
  apply (built_handshake two_linked);
    [apply built_two_linked | vm_compute; reflexivity].
Defined.

(** X15.  An index of a vertex that is not below the number of vertices
    makes [is_adjacent], [get_edge_weight], [add_edge], [set_edge_weight],
    [get_vertex_key] and [set_vertex_key] stop on a failed assertion;
    [is_vertex] returns false for it. *)
Theorem out_of_range_refused {vtype etype} (g : Graph vtype etype) x y
    (w : etype) (k : vtype) :
  order g < 2 ^ 32 → is_vertID x → is_vertID y →
  ¬ (x < order g ∧ y < order g) →
  is_adjacent x y g = Abort ∧ get_edge_weight x y g = Abort ∧
  add_edge x y w g = Abort ∧ set_edge_weight x y w g = Abort ∧
  (order g <= x →
   get_vertex_key x g = Abort ∧ set_vertex_key x k g = Abort ∧
   is_vertex x g = Ret (false, g)).
Proof.
  intros Hn [Hx _] [Hy _] Hout.
  pose proof (validate_vertices_out g x y Hn Hx Hy Hout) as Hv.
  split_and!.
  - unfold is_adjacent. by rewrite bind_unfold, Hv.
  - unfold get_edge_weight. by rewrite bind_unfold, Hv.
  - unfold add_edge. by rewrite bind_unfold, Hv.
  - unfold set_edge_weight. by rewrite bind_unfold, Hv.
  - intros Hge. pose proof (validate_vertex_out g x Hn Hge) as Hv1.
    split_and!.
    + unfold get_vertex_key. by rewrite bind_unfold, Hv1.
    + unfold set_vertex_key. by rewrite bind_unfold, Hv1.
    + rewrite is_vertex_eq by done. by rewrite bool_decide_eq_false_2 by lia.
Qed.

Lemma out_of_range_refused_witness :
  is_adjacent 2 0 two_linked = Abort ∧
  get_edge_weight 2 0 two_linked = Abort ∧
  add_edge 2 0 7 two_linked = Abort ∧
  set_edge_weight 2 0 7 two_linked = Abort ∧
  (order two_linked <= 2 →
   get_vertex_key 2 two_linked = Abort ∧
   set_vertex_key 2 GRAY two_linked = Abort ∧
   is_vertex 2 two_linked = Ret (false, two_linked)).
Proof.
  apply (out_of_range_refused two_linked 2 0 7 GRAY).
  - vm_compute. reflexivity.
  - unfold is_vertID. lia.
  - unfold is_vertID. lia.
  - vm_compute. intros [H _]. discriminate H.
Defined.

(** X16.  [add_vertex] adds one vertex at the end: it gets the next index
    and the given key, it has no neighbour, and the keys and neighbours of
    the other vertices and the number of edges are as before. *)
Theorem add_vertex_appends {vtype etype} (g : Graph vtype etype) (k : vtype) :
  order g + 1 < 2 ^ 32 →
  ∃ g', add_vertex k g = Ret (tt, g') ∧
        get_nodes g' = Ret (order g + 1, g') ∧
        get_vertex_key (order g) g' = Ret (k, g') ∧
        get_neighbors (order g) g' = Ret ([], g') ∧
        get_edges g' = Ret (nedges g, g') ∧
        ∀ x, 0 <= x < order g →
             gkey g' x = gkey g x ∧ gneighbors g' x = gneighbors g x.
Proof.
  intros Hn.
  set (g' := {| nedges := nedges g; vlist := vlist g ++ [mkVertex k []] |}).
  assert (Ho : order g' = order g + 1).
  { unfold order, g'. simpl. rewrite length_app. simpl. lia. }
  assert (Hlast : at_index (vlist g') (order g) = Some (mkVertex k [])).
  { unfold g'. simpl. rewrite at_index_snoc. by rewrite decide_True. }
  exists g'. split_and!.
  - apply add_vertex_eq.
  - rewrite <- Ho. apply get_nodes_eq. lia.
  - apply gkey_Some; [lia|]. unfold gkey. by rewrite Hlast.
  - rewrite get_neighbors_gneighbors by (unfold order in *; lia).
    unfold gneighbors. by rewrite Hlast.
  - done.
  - intros x Hx. unfold gkey, gneighbors, g'. simpl.
    rewrite at_index_snoc. by rewrite decide_False by (unfold order in *; lia).
Qed.

Lemma add_vertex_appends_witness :
  ∃ g', add_vertex WHITE two_linked = Ret (tt, g') ∧
        get_nodes g' = Ret (order two_linked + 1, g') ∧
        get_vertex_key (order two_linked) g' = Ret (WHITE, g') ∧
        get_neighbors (order two_linked) g' = Ret ([], g') ∧
        get_edges g' = Ret (nedges two_linked, g') ∧
        ∀ x, 0 <= x < order two_linked →
             gkey g' x = gkey two_linked x ∧
             gneighbors g' x = gneighbors two_linked x.
Proof.
  apply (add_vertex_appends two_linked WHITE). vm_compute. reflexivity.
Defined.

(** X17.  [set_vertex_key] and then [get_vertex_key] on the same valid
    vertex gives the new key; the other keys, all the neighbours, the
    number of vertices and the number of edges are as before. *)
Theorem set_get_vertex_key {vtype etype} (g : Graph vtype etype) x (k : vtype) :
  order g < 2 ^ 32 → 0 <= x < order g →
  ∃ g', set_vertex_key x k g = Ret (tt, g') ∧
        get_vertex_key x g' = Ret (k, g') ∧
        get_nodes g' = Ret (order g, g') ∧
        get_edges g' = Ret (nedges g, g') ∧
        (∀ y, y ≠ x → gkey g' y = gkey g y) ∧
        (∀ y, gneighbors g' y = gneighbors g y).
Proof.
  intros Hn Hx.
  set (g' := {| nedges := nedges g;
                vlist := alter (set_key k) (Z.to_nat x) (vlist g) |}).
  assert (Ho : order g' = order g).
  { unfold order, g'. simpl. by rewrite length_alter. }
  destruct (at_index_is_Some (vlist g) x Hx) as [v Hv].
  exists g'. split_and!.
  - by apply set_vertex_key_alter.
  - apply gkey_Some; [lia|]. unfold gkey, g'. simpl.
    rewrite at_index_alter, decide_True by (lia || done). by rewrite Hv.
  - rewrite <- Ho. apply get_nodes_eq. lia.
  - done.
  - intros y Hy. unfold gkey, g'. simpl.
    by rewrite at_index_alter, decide_False by (lia || done).
  - intros y. unfold gneighbors, g'. simpl. rewrite at_index_alter by lia.
    case_decide; [|done]. by destruct (at_index (vlist g) y).
Qed.

Lemma set_get_vertex_key_witness :
  ∃ g', set_vertex_key 1 GRAY two_linked = Ret (tt, g') ∧
        get_vertex_key 1 g' = Ret (GRAY, g') ∧
        get_nodes g' = Ret (order two_linked, g') ∧
        get_edges g' = Ret (nedges two_linked, g') ∧
        (∀ y, y ≠ 1 → gkey g' y = gkey two_linked y) ∧
        (∀ y, gneighbors g' y = gneighbors two_linked y).
Proof.
  apply (set_get_vertex_key two_linked 1 GRAY);
    [vm_compute; reflexivity | vm_compute; split; (discriminate || reflexivity)].
Defined.

(** X18.  On a graph built through the interface, [set_edge_weight] between
    two distinct vertices that are not adjacent stops on a failed
    assertion; between adjacent ones it gives the edge the new weight at
    both ends, and leaves the neighbours and the number of edges as they
    are. *)
Theorem set_edge_weight_both_ends {vtype etype} (g : Graph vtype etype) x y
    (w : etype) :
  built g → order g < 2 ^ 32 → 0 <= x < order g → 0 <= y < order g →
  x ≠ y →
  (is_adjacent x y g = Ret (false, g) → set_edge_weight x y w g = Abort) ∧
  (is_adjacent x y g = Ret (true, g) →
   ∃ g', set_edge_weight x y w g = Ret (tt, g') ∧
         get_edge_weight x y g' = Ret (w, g') ∧
         get_edge_weight y x g' = Ret (w, g') ∧
         get_edges g' = Ret (nedges g, g') ∧
         ∀ z, gneighbors g' z = gneighbors g z).
Proof.
  intros Hb Hn Hx Hy Hne. destruct (built_invariant g Hb Hn) as [Hu _].
  split; intros Ha; apply is_adjacent_inv in Ha; try done; try lia.
  - symmetry in Ha. apply bool_decide_eq_false in Ha.
    apply set_edge_weight_missing; try done; lia.
  - symmetry in Ha. apply bool_decide_eq_true in Ha.
    destruct (undirected_single g x y Hu Hne Ha) as (w0 & E1 & E2).
    exists (with_new_weight x y w g).
    assert (Ho : order (with_new_weight x y w g) = order g).
    { unfold order. by rewrite length_with_new_weight. }
    split_and!.
    + apply set_edge_weight_old; [done..|]. by apply undirected_sym.
    + apply get_edge_weight_eq; [unfold order in *; lia..|].
      by apply (edges_to_new_weight_l g x y w (mkEdge y w0)); [|lia..|].
    + apply get_edge_weight_eq; [unfold order in *; lia..|].
      by apply (edges_to_new_weight_r g x y w (mkEdge x w0)); [|lia..|].
    + done.
    + intros z. apply gneighbors_new_weight; lia.
Qed.

Lemma set_edge_weight_both_ends_witness :
  ∃ g', set_edge_weight 0 1 9 two_linked = Ret (tt, g') ∧
        get_edge_weight 0 1 g' = Ret (9, g') ∧
        get_edge_weight 1 0 g' = Ret (9, g') ∧
        get_edges g' = Ret (nedges two_linked, g') ∧
        ∀ z, gneighbors g' z = gneighbors two_linked z.
Proof.
  apply (proj2 (set_edge_weight_both_ends two_linked 0 1 9 built_two_linked
                  ltac:(vm_compute; reflexivity)
                  ltac:(vm_compute; split; (discriminate || reflexivity))
                  ltac:(vm_compute; split; (discriminate || reflexivity))
                  ltac:(discriminate))).
  vm_compute. reflexivity.
Defined.

(** X19.  [Vertex::del] removes the first edge to the given neighbour, and
    only that one, and returns true; when there is no such edge it returns
    false and changes nothing.  It undoes [add] of an edge that was not
    there. *)
Theorem del_first_edge {vtype etype} (v : Vertex vtype etype) n (w : etype) :
  (((n ∉ vertex_get_neighbors v) ∧ del n v = (false, v)) ∨
   (∃ l1 e l2, elist v = l1 ++ e :: l2 ∧ neigh e = n ∧ (n ∉ neigh <$> l1) ∧
               del n v = (true, {| key := key v; elist := l1 ++ l2 |}))) ∧
  (n ∉ vertex_get_neighbors v → del n (add n w v) = (true, v)).
Proof. split; [apply del_spec | apply del_add]. Qed.

Lemma del_first_edge_witness :
  del 4 (add 4 1 (mkVertex BLUE [mkEdge 2 1; mkEdge 3 1]))
  = (true, mkVertex BLUE [mkEdge 2 1; mkEdge 3 1]).
Proof.
  apply (proj2 (del_first_edge (mkVertex BLUE [mkEdge 2 1; mkEdge 3 1]) 4 1)).
  vm_compute. intros H. by repeat (apply elem_of_cons in H as [H|H]);
    try discriminate; apply elem_of_nil in H.
Defined.

(** X20.  [clone] into an empty graph, of a graph built through the
    interface, copies the vertices with their keys and the edges between
    distinct vertices with their weights; loops are not copied. *)
Theorem clone_copies {vtype etype} (g : Graph vtype etype) :
  built g → order g < 2 ^ 32 →
  ∃ g', clone g empty_graph = Ret (tt, g') ∧
        get_nodes g' = Ret (order g, g') ∧
        (∀ x, gkey g' x = gkey g x) ∧
        (∀ x y, x ≠ y → edges_to g' x y = edges_to g x y) ∧
        (∀ x, edges_to g' x x = []) ∧ built g'.
Proof.
  intros Hb Hn. destruct (built_invariant g Hb Hn) as [Hu _].
  destruct (clone_spec g Hn Hu) as ([] & g' & Hc & Ho & Hk & He & Hl & Hb').
  exists g'. split_and!; try done.
  rewrite <- Ho. apply get_nodes_eq. lia.
Qed.

Lemma clone_copies_witness :
  ∃ g', clone two_linked empty_graph = Ret (tt, g') ∧
        get_nodes g' = Ret (order two_linked, g') ∧
        (∀ x, gkey g' x = gkey two_linked x) ∧
        (∀ x y, x ≠ y → edges_to g' x y = edges_to two_linked x y) ∧
        (∀ x, edges_to g' x x = []) ∧ built g'.
Proof.
  apply (clone_copies two_linked);
    [apply built_two_linked | vm_compute; reflexivity].
Defined.

(** ** The player who uses the arrows *)

(** X21.  The cursor of a new player is on the playable area, at its
    centre.  Whatever is typed afterwards, [play] never fails, the cursor
    stays on the playable area, and the move that [play] returns is the
    cell of the cursor: the board never answers [OOB_ERROR] to it. *)
Theorem arrow_player_in_bounds ICANON ECHO EOF (to_char : Z → Z) :
  (∀ b tm, wf_board b →
     ∃ s0, ArrowHumanPlayer.new b tm = Ret s0 ∧ cursor_ok s0 ∧
           ArrowHumanPlayer.board s0 = b ∧
           ArrowHumanPlayer.y s0 = rel_dim b `quot` 2 ∧
           ArrowHumanPlayer.x s0 = rel_dim b `quot` 2) ∧
  (∀ fuel s, cursor_ok s →
     ArrowHumanPlayer.play ICANON ECHO EOF to_char fuel s = OutOfFuel ∨
     ∃ row col s',
       ArrowHumanPlayer.play ICANON ECHO EOF to_char fuel s
       = Ret ((row, col), s') ∧
       cursor_ok s' ∧
       ArrowHumanPlayer.board s' = ArrowHumanPlayer.board s ∧
       row = ArrowHumanPlayer.y s' ∧ col = ArrowHumanPlayer.x s' ∧
       ∀ o b', play row col (ArrowHumanPlayer.board s) = Ret (o, b') →
               o ≠ OOB_ERROR).
Proof.
  split.
  - intros b tm Hwf. destruct (arrow_new_eq b tm Hwf) as [Hnew Hok].
    eexists. split; [exact Hnew|]. by split_and!.
  - intros fuel s Hok.
    destruct (arrow_play_safe ICANON ECHO EOF to_char fuel s Hok)
      as [->|(s' & -> & Hb & Hok')]; [by left|right].
    exists (ArrowHumanPlayer.y s'), (ArrowHumanPlayer.x s'), s'.
    split_and!; try done.
    intros o b' Hplay. destruct Hok' as (Hwf & Hy & Hx). rewrite Hb in *.
    destruct (label_is_Some _ _ (rel_index_valid _ _ _ Hwf Hy Hx)) as [k Hk].
    destruct (play_in_bounds _ _ _ k Hwf Hy Hx Hk) as (won & _ & Hp).
    rewrite Hplay in Hp.
    case_decide; [destruct won|]; injection Hp as -> _;
      try done; by destruct (p1_turn _).
Qed.

Lemma arrow_player_in_bounds_witness :
  ∃ s0, ArrowHumanPlayer.new board3 (mkTerminal [UP; UP; UP; SPACE] 0)
        = Ret s0 ∧
    (ArrowHumanPlayer.play 2 8 (-1) (λ z, z) 9 s0 = OutOfFuel ∨
     ∃ row col s',
       ArrowHumanPlayer.play 2 8 (-1) (λ z, z) 9 s0 = Ret ((row, col), s') ∧
       cursor_ok s' ∧
       ArrowHumanPlayer.board s' = ArrowHumanPlayer.board s0 ∧
       row = ArrowHumanPlayer.y s' ∧ col = ArrowHumanPlayer.x s' ∧
       ∀ o b', play row col (ArrowHumanPlayer.board s0) = Ret (o, b') →
               o ≠ OOB_ERROR).
Proof.
  destruct (proj1 (arrow_player_in_bounds 2 8 (-1) (λ z, z))
              board3 (mkTerminal [UP; UP; UP; SPACE] 0) board3_wf)
    as (s0 & Hnew & Hok & _).
  exists s0. split; [exact Hnew|].
  exact (proj2 (arrow_player_in_bounds 2 8 (-1) (λ z, z)) 9%nat s0 Hok).
Defined.

(** X22.  When keys other than [SPACE] and then [SPACE] are typed, each as
    its character or as that character after [ESC] and [[], [play] returns
    the cell that the cursor reaches by taking the keys in order: an arrow
    moves it by one cell unless that would leave the playable area, any
    other key leaves it in place.  What was typed after [SPACE] stays on
    the input. *)
Theorem arrow_keys_walk ICANON ECHO EOF (to_char : Z → Z)
    (keys : list (bool * Z)) rest (s : ArrowHumanPlayer.t) :
  (∀ z, 0 <= z <= 127 → to_char z = z) →
  cursor_ok s →
  Forall (λ k, 0 <= k.2 <= 127 ∧ k.2 ≠ SPACE ∧ (k.1 = false → k.2 ≠ ESC))
         keys →
  stdin (ArrowHumanPlayer.terminal s)
  = (keys ≫= key_chars) ++ SPACE :: rest →
  let pos := foldl (arrow_step (rel_dim (ArrowHumanPlayer.board s)))
                   (ArrowHumanPlayer.y s, ArrowHumanPlayer.x s)
                   (snd <$> keys) in
  ∃ fl, ArrowHumanPlayer.play ICANON ECHO EOF to_char (S (length keys)) s
        = Ret (pos, ArrowHumanPlayer.mk (ArrowHumanPlayer.board s)
                      (mkTerminal rest fl) pos.1 pos.2).
Proof. intros Hchar. by apply arrow_play_keys. Qed.

Lemma arrow_keys_walk_witness :
  ∃ fl, ArrowHumanPlayer.play 2 8 (-1) (λ z, z) 5
          (ArrowHumanPlayer.mk board3
             (mkTerminal [ESC; 91; UP; UP; 120; ESC; 91; RIGHT; SPACE; LEFT] 0)
             1 1)
        = Ret ((0, 2), ArrowHumanPlayer.mk board3 (mkTerminal [LEFT] fl) 0 2).
Proof.
  apply (arrow_keys_walk 2 8 (-1) (λ z, z)
           [(true, UP); (false, UP); (false, 120); (true, RIGHT)] [LEFT]
           (ArrowHumanPlayer.mk board3
              (mkTerminal [ESC; 91; UP; UP; 120; ESC; 91; RIGHT; SPACE; LEFT] 0)
              1 1)).
  - intros z _. reflexivity.
  - split; [apply board3_wf|].
    vm_compute. repeat split; (discriminate || reflexivity).
  - repeat constructor; simpl; try (unfold UP, RIGHT; lia); try discriminate.
  - reflexivity.
Defined.

(** ** Further properties *)

(** X23.  In a game in progress every cell of the playable area is free or
    holds a stone of BLUE or of RED: the free cells and the stones of the
    two players add up to the [d * d] cells. *)
Theorem cells_add_up b :
  in_play b →
  (length (free_cells b) + stones BLUE b + stones RED b)%nat
  = length (playable b) ∧
  Z.of_nat (length (playable b)) = rel_dim b * rel_dim b.
Proof.
  intros Hin. pose proof (in_play_wf b Hin) as Hwf.
  pose proof (wf_rel_dim_small b Hwf) as Hd. split.
  - symmetry. apply (length_filter_colors (label b)).
    intros v Hv. by apply in_play_colors.
  - apply length_playable. lia.
Qed.

Lemma cells_add_up_witness :
  (length (free_cells near_win) + stones BLUE near_win
   + stones RED near_win)%nat = length (playable near_win) ∧
  Z.of_nat (length (playable near_win)) = rel_dim near_win * rel_dim near_win.
Proof. apply (cells_add_up near_win), in_play_near_win. Defined.

(** X24.  [simulate] on a free cell of the game board leaves the game board
    as it is, and leaves the scratch board with the labels of the game
    board and with its own edges. *)
Theorem simulate_restores RNG (shuffle : RNG → list vertID → list vertID * RNG)
    curmove fvert (st : AIMonteCarloPlayer RNG) :
  (∀ g l, (shuffle g l).1 ≡ₚ l) →
  wf_board (gcopy st) →
  nodes (board st) = nodes (gcopy st) →
  0 <= curmove < nodes (gcopy st) →
  label (board st) curmove = Some WHITE →
  Forall (λ p, 0 <= p < nodes (gcopy st)) fvert →
  Forall (λ p, label (board st) p = Some WHITE) fvert →
  ∃ wins st', simulate RNG shuffle curmove fvert st = Ret (wins, st') ∧
    board st' = board st ∧
    edges (gcopy st') = edges (gcopy st) ∧
    ∀ x, label (gcopy st') x = label (board st) x.
Proof.
  intros Hperm Hwf Hn Hcur Hcfree Hvalid Hfree.
  destruct (simulate_labels RNG shuffle Hperm curmove fvert st
              Hwf Hn Hcur Hcfree Hvalid Hfree)
    as (wins & st' & Hsim & Hb & _ & Hs & Hl).
  exists wins, st'. split_and!; try done. apply (shape_edges _ _ Hs).
Qed.

Lemma simulate_restores_witness :
  ∃ wins st',
    simulate unit (λ g l, (reverse l, g)) 12 [7; 12]
             (mkAI lost_position tt board3 20) = Ret (wins, st') ∧
    board st' = lost_position ∧
    edges (gcopy st') = edges board3 ∧
    ∀ x, label (gcopy st') x = label lost_position x.
Proof.
  apply (simulate_restores unit (λ g l, (reverse l, g)) 12 [7; 12]
           (mkAI lost_position tt board3 20)).
  - intros g l. simpl. apply reverse_Permutation.
  - apply board3_wf.
  - reflexivity.
  - vm_compute. split; [discriminate | reflexivity].
  - reflexivity.
  - repeat constructor; vm_compute; discriminate.
  - repeat constructor.
Defined.

(** X25.  [is_adjacent(x,y)] is true exactly when [y] is in the list that
    [get_neighbors(x)] returns. *)
Theorem adjacent_iff_neighbor {vtype etype} (g : Graph vtype etype) x y :
  order g < 2 ^ 32 → 0 <= x < order g → y < order g →
  ∃ ns, get_neighbors x g = Ret (ns, g) ∧
        is_adjacent x y g = Ret (bool_decide (y ∈ ns), g).
Proof.
  intros Hn Hx Hy. exists (gneighbors g x). split.
  - by apply get_neighbors_gneighbors.
  - by apply is_adjacent_eq.
Qed.

Lemma adjacent_iff_neighbor_witness :
  ∃ ns, get_neighbors 0 two_linked = Ret (ns, two_linked) ∧
        is_adjacent 0 1 two_linked = Ret (bool_decide (1 ∈ ns), two_linked).
Proof.
  apply (adjacent_iff_neighbor two_linked 0 1);
    [vm_compute; reflexivity
    | vm_compute; split; (discriminate || reflexivity)
    | vm_compute; reflexivity].
Defined.

(** X26.  [Cursor::read] always returns a key; it takes at most three
    characters from the input, at least one when there is one, and it
    leaves the terminal with the modes [ICANON] and [ECHO] set and the
    other modes as they were. *)
Theorem read_restores_terminal ICANON ECHO EOF (to_char : Z → Z) tm :
  0 <= ICANON < 2 ^ 32 → 0 <= ECHO < 2 ^ 32 → 0 <= c_lflag tm < 2 ^ 32 →
  ∃ code n,
    Cursor.read ICANON ECHO EOF to_char tm
    = Ret (code, mkTerminal (drop n (stdin tm))
                   (Z.lor (c_lflag tm) (Z.lor ICANON ECHO))) ∧
    (n ≤ 3)%nat ∧ (stdin tm ≠ [] → (1 ≤ n)%nat).
Proof. apply read_terminal. Qed.

Lemma read_restores_terminal_witness :
  ∃ code n,
    Cursor.read 2 8 (-1) (λ z, z) (mkTerminal [ESC; 91; UP; SPACE] 5)
    = Ret (code, mkTerminal (drop n [ESC; 91; UP; SPACE]) 15) ∧
    (n ≤ 3)%nat ∧ ([ESC; 91; UP; SPACE] ≠ [] → (1 ≤ n)%nat).
Proof.
  apply (read_restores_terminal 2 8 (-1) (λ z, z)
           (mkTerminal [ESC; 91; UP; SPACE] 5));
    vm_compute; split; (discriminate || reflexivity).
Defined.

(** X27.  The player who moves at random returns a cell of the playable
    area, whatever [rand] returns (it returns no negative number): the
    board never answers [OOB_ERROR] to its move, and [play] of this player
    leaves the board as it is. *)
Theorem random_player_in_bounds RandState (rand : RandState → Z * RandState)
    (s : AIRandomPlayer.t RandState) :
  (∀ g, 0 <= (rand g).1) →
  wf_board (AIRandomPlayer.board s) →
  ∃ row col s',
    AIRandomPlayer.play RandState rand s = Ret ((row, col), s') ∧
    AIRandomPlayer.board s' = AIRandomPlayer.board s ∧
    0 <= row < rel_dim (AIRandomPlayer.board s) ∧
    0 <= col < rel_dim (AIRandomPlayer.board s) ∧
    ∀ o b', play row col (AIRandomPlayer.board s) = Ret (o, b') →
            o ≠ OOB_ERROR.
Proof.
  intros Hrand Hwf. pose proof (wf_rel_dim_small _ Hwf) as Hd.
  pose proof (random_play_eq RandState rand s Hrand Hwf) as Hplay.
  simpl in Hplay.
  set (d := rel_dim (AIRandomPlayer.board s)) in *.
  set (r1 := (rand (AIRandomPlayer.seed s)).1) in *.
  set (r2 := (rand (rand (AIRandomPlayer.seed s)).2).1) in *.
  assert (H1 : 0 <= r1) by apply Hrand.
  assert (H2 : 0 <= r2) by apply Hrand.
  pose proof (Z.rem_bound_pos r1 d H1 ltac:(lia)) as Hrow.
  pose proof (Z.rem_bound_pos r2 d H2 ltac:(lia)) as Hcol.
  eexists _, _, _. split; [exact Hplay|]. split_and!; try done; try lia.
  intros o b' Hp.
  destruct (label_is_Some _ _ (rel_index_valid _ _ _ Hwf Hrow Hcol)) as [k Hk].
  destruct (play_in_bounds _ _ _ k Hwf Hrow Hcol Hk) as (won & _ & Hp').
  rewrite Hp in Hp'.
  case_decide; [destruct won|]; injection Hp' as -> _;
    try done; by destruct (p1_turn _).
Qed.

Lemma random_player_in_bounds_witness :
  ∃ row col s',
    AIRandomPlayer.play Z (λ g, (Z.abs g, g + 1))
                        (AIRandomPlayer.mk lost_position 4)
    = Ret ((row, col), s') ∧
    AIRandomPlayer.board s' = lost_position ∧
    0 <= row < rel_dim lost_position ∧
    0 <= col < rel_dim lost_position ∧
    ∀ o b', play row col lost_position = Ret (o, b') → o ≠ OOB_ERROR.
Proof.
  apply (random_player_in_bounds Z (λ g, (Z.abs g, g + 1))
           (AIRandomPlayer.mk lost_position 4)).
  - intros g. simpl. lia.
  - apply lost_position_wf.
Defined.
